(** * CAFE: estimation of the birth-death rate (lambda)

    A shallow embedding of the lambda command of CAFE (posterior scoring,
    empirical Poisson prior, grid scan, whole-data search with its
    convergence check and EM refinement, per-family search) and the
    properties of it that the specification states.

    Conventions of the embedding.
    - A C [double] is a primitive binary64 float; comparisons, [fabs],
      negation, sum and product are the IEEE operations of [PrimFloat].
    - A C [int] is a [Z]; indices and counts stay far from the 32-bit
      limits, so wrap-around is not modelled.  The sizes of a grid come
      from a [double] and can exceed them: what is proved of the rows and
      of the log of a scan assumes that they fit ([scan_fits_int]).
    - An array is a list read with [nth] (default [0] outside the bounds,
      where the C program has undefined behaviour) and written with
      [set_nth].
    - Functions that mutate the session ([CafeParam]) take it and return
      the new one.  A C++ exception is the [Throw] outcome.
    - Code of the program that is not part of the two files embedded here
      (libm, the tree likelihood evaluator, the simplex optimizer, ...)
      is a field of the class [Collaborators] or, for what only the
      command itself calls, of [CommandCollaborators]. *)

From Stdlib Require Import ZArith List Lia Bool String.
From Stdlib Require Import Floats Uint63 DecimalString.
Import ListNotations.
Set Warnings "-inexact-float".

(** ** Numbers and arrays *)

(** Conversion [int -> double]. *)
Definition int_to_double (z : Z) : float :=
  if (z <? 0)%Z then (- of_uint63 (Uint63.of_Z (- z)))%float
  else of_uint63 (Uint63.of_Z z).

(** Conversion [double -> int]: truncation towards zero (undefined in C
    for NaN and the infinities, [0] here). *)
Definition double_to_int (x : float) : Z :=
  match Prim2SF x with
  | S754_finite s m e =>
      let v := if (0 <=? e)%Z then (Zpos m * 2 ^ e)%Z else (Zpos m / 2 ^ (- e))%Z in
      if s then (- v)%Z else v
  | _ => 0%Z
  end.

(** libm's [rint] in the default rounding mode: the nearest integral
    value, ties to even. *)
Definition rint (x : float) : float :=
  match Prim2SF x with
  | S754_finite s m e =>
      if (0 <=? e)%Z then x
      else
        let d := (2 ^ (- e))%Z in
        let q := (Zpos m / d)%Z in
        let r := (Zpos m mod d)%Z in
        let n := if (2 * r <? d)%Z then q
                 else if (d <? 2 * r)%Z then (q + 1)%Z
                 else if Z.even q then q else (q + 1)%Z in
        if s then (- int_to_double n)%float else int_to_double n
  | _ => x
  end.

(** [a[i] = x]; nothing is written outside the bounds. *)
Fixpoint set_nth {A : Type} (i : nat) (x : A) (l : list A) : list A :=
  match l, i with
  | [], _ => []
  | _ :: t, O => x :: t
  | a :: t, S j => a :: set_nth j x t
  end.

(** [std::max_element] over a range with first element [best]: the first
    of the largest elements for [operator<]. *)
Fixpoint max_element_from (best : float) (l : list float) : float :=
  match l with
  | [] => best
  | x :: t => max_element_from (if (best <? x)%float then x else best) t
  end.

(** [*std::max_element(v.begin(), v.end())]; on an empty vector the C++
    program dereferences [end()], here [0]. *)
Definition max_element (l : list float) : float :=
  match l with
  | [] => 0%float
  | x :: t => max_element_from x t
  end.

(** Modelled from the spec: mathfunc's [__max(a, n)] is not among the
    embedded files; it is the largest of the first [n] values of [a]
    (the "maximum over s" of the likelihood vector). *)
Definition __max (a : list float) (n : nat) : float := max_element (firstn n a).

(** Index of the first largest value among [l], counted from [i]. *)
Fixpoint maxidx_from (best : float) (besti i : Z) (l : list float) : Z :=
  match l with
  | [] => besti
  | x :: t =>
      if (best <? x)%float then maxidx_from x i (i + 1)%Z t
      else maxidx_from best besti (i + 1)%Z t
  end.

(** Modelled from the spec: mathfunc's [__maxidx(a, n)], the index of the
    largest of the first [n] values (the "most-likely-root-size index"). *)
Definition __maxidx (a : list float) (n : nat) : Z :=
  match firstn n a with
  | [] => 0%Z
  | x :: t => maxidx_from x 0%Z 1%Z t
  end.

(** Modelled from the spec: mathfunc's [__min(a, n)], the smallest of the
    first [n] values (the "minimum of all previous runs"). *)
Definition __min (a : list float) (n : nat) : float :=
  match firstn n a with
  | [] => 0%float
  | x :: t => fold_left (fun m y => if (y <? m)%float then y else m) t x
  end.

(** ** Data model *)

Definition FAMILYSIZEMAX : nat := 1000.

Record family_size_range := mk_family_size_range
  { min : Z; max : Z; root_min : Z; root_max : Z }.

(** The part of [CafeTree] this code reads and writes.  The topology and
    the per-node data belong to the tree library: [node_familysize] and
    [node_lambda] stand for the leaf counts and the rates currently
    assigned on the nodes, [bd_cache] for the birth-death cache. *)
Record CafeTree := mk_CafeTree
  { range : family_size_range;
    rfsize : Z;
    node_familysize : list Z;
    node_lambda : list float;
    bd_cache : bool }.

Definition set_range (t : CafeTree) (r : family_size_range) : CafeTree :=
  mk_CafeTree r (rfsize t) (node_familysize t) (node_lambda t) (bd_cache t).

(** One gene family ([CafeFamilyItem]): the fields this code uses.  A null
    [lambda] or [mu] pointer is [None]. *)
Record CafeFamilyItem := mk_CafeFamilyItem
  { id : string;
    ref : Z;
    count : list Z;
    maxlh : Z;
    lambda : option (list float);
    mu : option (list float) }.

Definition set_maxlh (it : CafeFamilyItem) (v : Z) : CafeFamilyItem :=
  mk_CafeFamilyItem (id it) (ref it) (count it) v (lambda it) (mu it).

Definition set_lambda_mu (it : CafeFamilyItem) (l m : option (list float))
  : CafeFamilyItem :=
  mk_CafeFamilyItem (id it) (ref it) (count it) (maxlh it) l m.

Definition null_item : CafeFamilyItem :=
  mk_CafeFamilyItem EmptyString (-1) [] (-1) None None.

Record CafeFamily := mk_CafeFamily
  { num_species : Z;
    index : list Z;
    flist : list CafeFamilyItem }.

Definition set_flist (pf : CafeFamily) (l : list CafeFamilyItem) : CafeFamily :=
  mk_CafeFamily (num_species pf) (index pf) l.

(** [flist->array[i]] *)
Definition family_item (pf : CafeFamily) (i : nat) : CafeFamilyItem :=
  nth i (flist pf) null_item.

(** An argument of a [cafe_log] / [fprintf] call; [AJoin sep n v] is the
    buffer [string_pchar_join_double(buf, sep, n, v)] fills. *)
Inductive LogArg :=
| AInt (z : Z)
| ADouble (x : float)
| AStr (s : string)
| AJoin (sep : string) (n : Z) (v : list float).

(** One [cafe_log] call: the format and its arguments. *)
Definition LogLine : Type := string * list LogArg.

(** The session ([tagCafeParam]): the fields this code uses.  [flog] is
    what [cafe_log] has written, [ferr] what went to [std::cerr]. *)
Record CafeParam := mk_CafeParam
  { flog : list LogLine;
    ferr : list string;
    pcafe : CafeTree;
    pfamily : CafeFamily;
    prior_rfsize : list float;
    input_parameters : list float;
    num_params : Z;
    param_lambda : option (list float);
    num_lambdas : Z;
    num_mus : Z;
    parameterized_k_value : Z;
    k_weights : list float;
    p_z_membership : list (list float);
    fixcluster0 : Z;
    checkconv : Z;
    family_size : family_size_range;
    quiet : Z }.

Definition set_flog (p : CafeParam) (v : list LogLine) : CafeParam :=
  mk_CafeParam v (ferr p) (pcafe p) (pfamily p) (prior_rfsize p)
    (input_parameters p) (num_params p) (param_lambda p) (num_lambdas p)
    (num_mus p) (parameterized_k_value p) (k_weights p) (p_z_membership p)
    (fixcluster0 p) (checkconv p) (family_size p) (quiet p).

Definition set_ferr (p : CafeParam) (v : list string) : CafeParam :=
  mk_CafeParam (flog p) v (pcafe p) (pfamily p) (prior_rfsize p)
    (input_parameters p) (num_params p) (param_lambda p) (num_lambdas p)
    (num_mus p) (parameterized_k_value p) (k_weights p) (p_z_membership p)
    (fixcluster0 p) (checkconv p) (family_size p) (quiet p).

Definition set_pcafe (p : CafeParam) (v : CafeTree) : CafeParam :=
  mk_CafeParam (flog p) (ferr p) v (pfamily p) (prior_rfsize p)
    (input_parameters p) (num_params p) (param_lambda p) (num_lambdas p)
    (num_mus p) (parameterized_k_value p) (k_weights p) (p_z_membership p)
    (fixcluster0 p) (checkconv p) (family_size p) (quiet p).

Definition set_pfamily (p : CafeParam) (v : CafeFamily) : CafeParam :=
  mk_CafeParam (flog p) (ferr p) (pcafe p) v (prior_rfsize p)
    (input_parameters p) (num_params p) (param_lambda p) (num_lambdas p)
    (num_mus p) (parameterized_k_value p) (k_weights p) (p_z_membership p)
    (fixcluster0 p) (checkconv p) (family_size p) (quiet p).

Definition set_input_parameters (p : CafeParam) (v : list float) : CafeParam :=
  mk_CafeParam (flog p) (ferr p) (pcafe p) (pfamily p) (prior_rfsize p)
    v (num_params p) (param_lambda p) (num_lambdas p)
    (num_mus p) (parameterized_k_value p) (k_weights p) (p_z_membership p)
    (fixcluster0 p) (checkconv p) (family_size p) (quiet p).

Definition set_param_lambda (p : CafeParam) (v : option (list float)) : CafeParam :=
  mk_CafeParam (flog p) (ferr p) (pcafe p) (pfamily p) (prior_rfsize p)
    (input_parameters p) (num_params p) v (num_lambdas p)
    (num_mus p) (parameterized_k_value p) (k_weights p) (p_z_membership p)
    (fixcluster0 p) (checkconv p) (family_size p) (quiet p).

Definition set_num_lambdas (p : CafeParam) (v : Z) : CafeParam :=
  mk_CafeParam (flog p) (ferr p) (pcafe p) (pfamily p) (prior_rfsize p)
    (input_parameters p) (num_params p) (param_lambda p) v
    (num_mus p) (parameterized_k_value p) (k_weights p) (p_z_membership p)
    (fixcluster0 p) (checkconv p) (family_size p) (quiet p).

Definition set_k_weights (p : CafeParam) (v : list float) : CafeParam :=
  mk_CafeParam (flog p) (ferr p) (pcafe p) (pfamily p) (prior_rfsize p)
    (input_parameters p) (num_params p) (param_lambda p) (num_lambdas p)
    (num_mus p) (parameterized_k_value p) v (p_z_membership p)
    (fixcluster0 p) (checkconv p) (family_size p) (quiet p).

Definition set_family_size (p : CafeParam) (v : family_size_range) : CafeParam :=
  mk_CafeParam (flog p) (ferr p) (pcafe p) (pfamily p) (prior_rfsize p)
    (input_parameters p) (num_params p) (param_lambda p) (num_lambdas p)
    (num_mus p) (parameterized_k_value p) (k_weights p) (p_z_membership p)
    (fixcluster0 p) (checkconv p) v (quiet p).

(** [cafe_log(param, fmt, ...)] *)
Definition cafe_log (p : CafeParam) (fmt : string) (args : list LogArg) : CafeParam :=
  set_flog p (flog p ++ [(fmt, args)]).

(** The result of a call that may throw [std::runtime_error]. *)
Inductive outcome (A : Type) :=
| Ok (a : A)
| Throw (what : string).
Arguments Ok {A} a.
Arguments Throw {A} what.

(** [std::endl] *)
Definition endl : string := String (Ascii.ascii_of_nat 10) EmptyString.

(** The simplex optimizer's handle ([pFMinSearch]): its settings and what
    the last [fminsearch_min] left in it. *)
Record FMinSearch := mk_FMinSearch
  { variable_count : Z;
    tolx : float;
    tolf : float;
    iters : Z;
    fv : float;
    minX : list float }.

(** ** Collaborators

    What this code calls and the embedded files do not define.  The
    optimizer is a black box that decides, from its settings, the start
    vector and the objective values it has seen so far, which point to
    evaluate next ([fmin_next], [None] to stop) and what it reports at the
    end ([fmin_report]: iterations, best value, best point); it evaluates
    the objective at most [fmin_maxeval] times. *)
Class Collaborators := mk_Collaborators
  { (* libm and mathfunc *)
    log : float -> float;
    exp : float -> float;
    poisspdf : float -> float -> float;
    (* the "%lf" conversion of fprintf *)
    printf_lf : float -> string;
    (* tree library and likelihood evaluator *)
    compute_tree_likelihoods : CafeTree -> CafeTree;
    get_likelihoods : CafeTree -> list float;
    max_branch_length : CafeTree -> float;
    cafe_family_set_size : CafeFamily -> CafeFamilyItem -> CafeTree -> CafeTree;
    cafe_family_set_size_with_family_forced : CafeFamily -> Z -> CafeTree -> CafeTree;
    cafe_tree_string_with_familysize_lambda : CafeTree -> string;
    reset_birthdeath_cache : CafeTree -> Z -> family_size_range -> CafeTree;
    cafe_free_birthdeath_cache : CafeTree -> CafeTree;
    (* the two effects of cafe_shell_set_lambdas: rates on the nodes, and the
       session's current rate vector *)
    set_node_lambdas : CafeParam -> list float -> CafeTree;
    set_current_lambda : CafeParam -> list float -> option (list float);
    (* the mixture objective, defined in another file *)
    __cafe_cluster_lambda_search : list float -> CafeParam -> CafeParam * float;
    (* input_values_randomize: the new parameter vector and k_weights, from
       the random draws, the session, kfix and the maximal branch length *)
    input_values_randomize : list float -> CafeParam -> Z -> float -> list float * list float;
    (* fminsearch *)
    fmin_maxeval : nat;
    fmin_next : FMinSearch -> list float -> list (list float * float) -> option (list float);
    fmin_report : FMinSearch -> list float -> list (list float * float) -> Z * float * list float }.

Section Lambda.

Context {ext : Collaborators}.

(** Modelled from the spec: [copy_range_to_tree] is declared in family.h
    and defined elsewhere; it stores the given family-size range on the
    tree. *)
Definition copy_range_to_tree (tree : CafeTree) (r : family_size_range) : CafeTree :=
  set_range tree r.

(** Modelled from the spec: [cafe_shell_set_lambdas] is declared in
    family.h and defined elsewhere ("setRatesOnTree(rates)"); it assigns
    the rates on the tree and keeps them as the session's current rate
    vector.  It touches nothing else of the session. *)
Definition cafe_shell_set_lambdas (param : CafeParam) (l : list float) : CafeParam :=
  set_param_lambda (set_pcafe param (set_node_lambdas param l))
    (set_current_lambda param l).

(** *** The optimizer *)

(** [fminsearch_new_with_eq(eq, N, args)] *)
Definition fminsearch_new_with_eq (N : Z) : FMinSearch :=
  mk_FMinSearch N 0%float 0%float 0 0%float [].

Definition set_tol (pfm : FMinSearch) (tx tf : float) : FMinSearch :=
  mk_FMinSearch (variable_count pfm) tx tf (iters pfm) (fv pfm) (minX pfm).

(** The evaluations of one [fminsearch_min]: the objective [eq] runs on the
    state [s] (it may change it) at every point the optimizer asks for. *)
Fixpoint fmin_evals {S : Type} (eq : list float -> S -> S * float)
    (pfm : FMinSearch) (X0 : list float) (fuel : nat)
    (seen : list (list float * float)) (s : S) : S * list (list float * float) :=
  match fuel with
  | O => (s, seen)
  | Datatypes.S fuel' =>
      match fmin_next pfm X0 seen with
      | None => (s, seen)
      | Some x =>
          let '(s1, v) := eq x s in
          fmin_evals eq pfm X0 fuel' (seen ++ [(x, v)]) s1
      end
  end.

(** [fminsearch_min(pfm, X0)] *)
Definition fminsearch_min {S : Type} (eq : list float -> S -> S * float)
    (pfm : FMinSearch) (X0 : list float) (s : S) : S * FMinSearch :=
  let '(s1, seen) := fmin_evals eq pfm X0 fmin_maxeval [] s in
  let '(it, v, x) := fmin_report pfm X0 seen in
  (s1, mk_FMinSearch (variable_count pfm) (tolx pfm) (tolf pfm) it v x).

(** [fminsearch_get_minX(pfm)] *)
Definition fminsearch_get_minX (pfm : FMinSearch) : list float := minX pfm.

(** [for (i = 0; i < n; i++) dst[i] = src[i];] *)
Definition copy_prefix (n : Z) (src dst : list float) : list float :=
  fold_left (fun d i => set_nth i (nth i src 0%float) d) (seq 0 (Z.to_nat n)) dst.

(** *** PosteriorScorer *)

Record posterior := mk_posterior { max_likelihood : float; max_posterior : float }.

(** The vector [posterior[j] = exp(log(likelihood[j]) + log(prior_rfsize[j]))],
    [j < rfsize]. *)
Definition posterior_vector (likelihood prior : list float) (n : nat) : list float :=
  map (fun j => exp (log (nth j likelihood 0%float) + log (nth j prior 0%float))%float)
      (seq 0 n).

Definition compute_posterior (pitem : CafeFamilyItem) (tree : CafeTree)
    (prior : list float) : CafeFamilyItem * CafeTree * posterior :=
  let tree1 := compute_tree_likelihoods tree in
  let likelihood := get_likelihoods tree1 in
  let n := Z.to_nat (rfsize tree1) in
  let ml := __max likelihood n in
  let pitem1 :=
    if (maxlh pitem <? 0)%Z then set_maxlh pitem (__maxidx likelihood n) else pitem in
  (pitem1, tree1, mk_posterior ml (max_element (posterior_vector likelihood prior n))).

(** The locals of [get_posterior] and what it mutates. *)
Record gp_state := mk_gp_state
  { gp_family : CafeFamily;
    gp_tree : CafeTree;
    family_max_likelihood : list float;
    family_max_posterior : list float;
    gp_score : float }.

Definition zero_posterior_what (pitem : CafeFamilyItem) : string :=
  ("WARNING: Calculated posterior probability for family " ++ id pitem ++ " = 0" ++ endl)%string.

(** The test [pitem->ref < 0 || pitem->ref == i]. *)
Definition own_family (pitem : CafeFamilyItem) (i : nat) : bool :=
  ((ref pitem <? 0)%Z || (ref pitem =? Z.of_nat i)%Z)%bool.

(** The part of the loop body of [get_posterior] before the zero test. *)
Definition get_posterior_fill (prior : list float) (i : nat) (st : gp_state) : gp_state :=
  let pitem := family_item (gp_family st) i in
  if own_family pitem i then
    let tree1 := cafe_family_set_size (gp_family st) pitem (gp_tree st) in
    let '(pitem1, tree2, p) := compute_posterior pitem tree1 prior in
    mk_gp_state (set_flist (gp_family st) (set_nth i pitem1 (flist (gp_family st))))
      tree2
      (set_nth i (max_likelihood p) (family_max_likelihood st))
      (set_nth i (max_posterior p) (family_max_posterior st))
      (gp_score st)
  else
    let r := Z.to_nat (ref pitem) in
    mk_gp_state (gp_family st) (gp_tree st)
      (set_nth i (nth r (family_max_likelihood st) 0%float) (family_max_likelihood st))
      (set_nth i (nth r (family_max_posterior st) 0%float) (family_max_posterior st))
      (gp_score st).

Definition gp_add_score (st : gp_state) (i : nat) : gp_state :=
  mk_gp_state (gp_family st) (gp_tree st) (family_max_likelihood st)
    (family_max_posterior st)
    (gp_score st + log (nth i (family_max_posterior st) 0%float))%float.

(** The loop of [get_posterior] over the family indices [idxs]. *)
Fixpoint get_posterior_loop (prior : list float) (idxs : list nat) (st : gp_state)
  : gp_state * outcome float :=
  match idxs with
  | [] => (st, Ok (gp_score st))
  | i :: rest =>
      let st1 := get_posterior_fill prior i st in
      if (nth i (family_max_likelihood st1) 0 =? 0)%float then
        (st1, Throw (zero_posterior_what (family_item (gp_family st1) i)))
      else get_posterior_loop prior rest (gp_add_score st1 i)
  end.

Definition gp_init (pf : CafeFamily) (tree : CafeTree) : gp_state :=
  let n := List.length (flist pf) in
  mk_gp_state pf tree (repeat 0%float n) (repeat 0%float n) 0%float.

Definition get_posterior (pf : CafeFamily) (tree : CafeTree) (prior : list float)
  : CafeFamily * CafeTree * outcome float :=
  let '(st, r) := get_posterior_loop prior (seq 0 (List.length (flist pf))) (gp_init pf tree) in
  (gp_family st, gp_tree st, r).

(** [sum(log(x))] over a vector, accumulated as the loop does. *)
Definition sum_log (l : list float) : float :=
  fold_left (fun s x => (s + log x)%float) l 0%float.

(** What identifies a family: its name and its reference. *)
Definition item_key (pitem : CafeFamilyItem) : string * Z := (id pitem, ref pitem).

Definition null_posterior : posterior := mk_posterior 0%float 0%float.

(** The best likelihood and best posterior of every family, in the words
    of the specification: a family of its own gets them from the
    likelihood evaluator and the prior; a family that refers to another one
    takes what that family got (nothing, hence 0, when that family comes
    later).  [acc] holds the families before [idxs]. *)
Fixpoint family_posteriors (prior : list float) (idxs : list nat) (pf : CafeFamily)
    (tree : CafeTree) (acc : list posterior) : list posterior :=
  match idxs with
  | [] => acc
  | i :: rest =>
      let pitem := family_item pf i in
      if own_family pitem i then
        let '(pitem1, tree1, p) :=
          compute_posterior pitem (cafe_family_set_size pf pitem tree) prior in
        family_posteriors prior rest (set_flist pf (set_nth i pitem1 (flist pf))) tree1
          (acc ++ [p])
      else
        family_posteriors prior rest pf tree
          (acc ++ [nth (Z.to_nat (ref pitem)) acc null_posterior])
  end.

(** A family's best likelihood is exactly 0. *)
Definition zero_likelihood (p : posterior) : bool := (max_likelihood p =? 0)%float.

(** [plambda[i] < 0] for some [i < n] *)
Definition has_negative (n : Z) (plambda : list float) : bool :=
  existsb (fun i => (nth i plambda 0 <? 0)%float) (seq 0 (Z.to_nat n)).

(** The session when [__cafe_best_lambda_search] calls [get_posterior]:
    rates set, birth-death cache rebuilt. *)
Definition scoring_session (plambda : list float) (param : CafeParam) : CafeParam :=
  let p1 := cafe_shell_set_lambdas param plambda in
  set_pcafe p1
    (reset_birthdeath_cache (pcafe p1) (parameterized_k_value p1) (family_size p1)).

(** The vector [pr] it passes as the prior. *)
Definition scoring_prior (param : CafeParam) : list float :=
  map (fun i => nth i (prior_rfsize param) 0%float) (seq 0 FAMILYSIZEMAX).

(** The posteriors of the families of the session for the rates [plambda]. *)
Definition session_posteriors (plambda : list float) (param : CafeParam) : list posterior :=
  let p := scoring_session plambda param in
  family_posteriors (scoring_prior param) (seq 0 (List.length (flist (pfamily p))))
    (pfamily p) (pcafe p) [].

(** The score in the words of the specification: the sum over all families
    of the log of the best posterior. *)
Definition sum_log_posteriors (posts : list posterior) : float :=
  sum_log (map max_posterior posts).

(** The local [score] of [__cafe_best_lambda_search] when its logging
    starts, with the session as the evaluation left it. *)
Definition posterior_score (plambda : list float) (param : CafeParam)
  : CafeParam * float :=
  if has_negative (num_lambdas param) plambda then (param, log 0%float)
  else
    let p1 := cafe_shell_set_lambdas param plambda in
    let p2 := set_pcafe p1
                (reset_birthdeath_cache (pcafe p1) (parameterized_k_value p1) (family_size p1)) in
    let pr := map (fun i => nth i (prior_rfsize p2) 0%float) (seq 0 FAMILYSIZEMAX) in
    let '(pf, tree, r) := get_posterior (pfamily p2) (pcafe p2) pr in
    let p3 := set_pcafe (set_pfamily p2 pf) tree in
    let '(p4, score) :=
      match r with
      | Ok s => (p3, s)
      | Throw what =>
          ((if (quiet p3 =? 0)%Z then set_ferr p3 (ferr p3 ++ [what]) else p3), log 0%float)
      end in
    (set_pcafe p4 (cafe_free_birthdeath_cache (pcafe p4)), score).

Definition __cafe_best_lambda_search (plambda : list float) (param : CafeParam)
  : CafeParam * float :=
  let '(p1, score) := posterior_score plambda param in
  let p2 := cafe_log p1 "Lambda : %s & Score: %f\n"
              [AJoin "," (num_lambdas p1) plambda; ADouble score] in
  let p3 := cafe_log p2 "." [] in
  (p3, (- score)%float).

(** *** PriorEstimator *)

(** The objective of the Poisson fit; [data] is the vector of leaf sizes. *)
Definition __lnLPoisson (plambda : list float) (leaf_sizes : list Z) : float :=
  let lambda := nth 0 plambda 0%float in
  let score :=
    fold_left
      (fun score x =>
         let ll := poisspdf (int_to_double x) lambda in
         let ll := if is_nan ll then 0%float else ll in
         (score + log ll)%float)
      leaf_sizes 0%float in
  (- score)%float.

(** The inner loop of [collect_leaf_sizes], over the species of one family. *)
Definition collect_item_sizes (pf : CafeFamily) (pitem : CafeFamilyItem)
    (pLeavesSize : list Z) : list Z :=
  fold_left
    (fun acc i =>
       if (nth i (index pf) 0 <? 0)%Z then acc
       else if (0 <? nth i (count pitem) 0)%Z then acc ++ [(nth i (count pitem) 0 - 1)%Z]
       else acc)
    (seq 0 (Z.to_nat (num_species pf))) pLeavesSize.

Definition collect_leaf_sizes (pf : CafeFamily) : list Z :=
  fold_left (fun acc pitem => collect_item_sizes pf pitem acc) (flist pf) [].

Record poisson_lambda := mk_poisson_lambda
  { parameters : list float;
    pl_num_params : Z;
    num_iterations : Z;
    score : float }.

(** The part of [find_poisson_lambda] after the collection of the leaf
    sizes; [u] is the value [unifrnd()] returns for the seed. *)
Definition poisson_fit (leaf_sizes : list Z) (u : float) : poisson_lambda :=
  let num_params := 1%Z in
  let pfm := set_tol (fminsearch_new_with_eq num_params) 1e-6%float 1e-6%float in
  let parameters := [u] in
  let '(_, pfm1) :=
    fminsearch_min (fun x (_ : unit) => (tt, __lnLPoisson x leaf_sizes)) pfm parameters tt in
  let re := fminsearch_get_minX pfm1 in
  mk_poisson_lambda (copy_prefix num_params re parameters) num_params (iters pfm1) (fv pfm1).

Definition find_poisson_lambda (pf : CafeFamily) (u : float) : poisson_lambda :=
  poisson_fit (collect_leaf_sizes pf) u.

(** The leaf counts of a family: the counts of the species that are
    leaves of the tree (a species of the family table that the tree does
    not have, [index < 0], has no leaf). *)
Definition leaf_counts (pf : CafeFamily) (pitem : CafeFamilyItem) : list Z :=
  map (fun i => nth i (count pitem) 0%Z)
    (filter (fun i => negb (nth i (index pf) 0 <? 0)%Z)
       (seq 0 (Z.to_nat (num_species pf)))).

(** Every positive leaf count of every family, shifted by -1. *)
Definition shifted_positive_counts (pf : CafeFamily) : list Z :=
  flat_map
    (fun pitem => map (fun c => (c - 1)%Z) (filter (fun c => (0 <? c)%Z) (leaf_counts pf pitem)))
    (flist pf).

(** A pmf value with NaN coerced to 0. *)
Definition nan_to_zero (ll : float) : float := if is_nan ll then 0%float else ll.

Definition cafe_set_prior_rfsize_poisson_lambda (shift : Z) (lambda : list float)
  : list float :=
  map (fun i => poisspdf (int_to_double (shift - 1 + Z.of_nat i)) (nth 0 lambda 0%float))
      (seq 0 FAMILYSIZEMAX).

(** Returns the session (with its log) and the vector [prior_rfsize]. *)
Definition cafe_set_prior_rfsize_empirical (param : CafeParam) (u : float)
  : CafeParam * list float :=
  let result := find_poisson_lambda (pfamily param) u in
  let p1 := cafe_log param "Empirical Prior Estimation Result: (%d iterations)\n"
              [AInt (num_iterations result)] in
  let p2 := cafe_log p1 "Poisson lambda: %f & Score: %f\n"
              [ADouble (nth 0 (parameters result) 0%float); ADouble (score result)] in
  let prior_poisson_lambda := parameters result in
  (p2, cafe_set_prior_rfsize_poisson_lambda (root_min (range (pcafe param)))
         prior_poisson_lambda).

(** *** GridScanner *)

Record lambda_range := mk_lambda_range
  { range_start : float; range_step : float; range_end : float }.

(** Modelled from the spec: the gmatrix library is not among the embedded
    files.  A matrix over the dimensions [dimsize] holds one value for
    every point of their cartesian product; [gmatrix_dim_index] gives the
    coordinates of the [i]-th one (the last dimension varies fastest). *)
Record GMatrix := mk_GMatrix
  { dimsize : list Z;
    num_elements : Z;
    gm_data : list float }.

Definition gmatrix_double_new (size : list Z) : GMatrix :=
  let n := fold_right Z.mul 1%Z size in
  mk_GMatrix size n (repeat 0%float (Z.to_nat n)).

Fixpoint dim_index (size : list Z) (i : Z) : list Z :=
  match size with
  | [] => []
  | _ :: rest =>
      let m := fold_right Z.mul 1%Z rest in
      (i / m)%Z :: dim_index rest (i mod m)%Z
  end.

Definition gmatrix_dim_index (pgm : GMatrix) (i : Z) : list Z :=
  dim_index (dimsize pgm) i.

Definition gmatrix_double_set_with_index (pgm : GMatrix) (v : float) (i : Z) : GMatrix :=
  mk_GMatrix (dimsize pgm) (num_elements pgm) (set_nth (Z.to_nat i) v (gm_data pgm)).

Definition gmatrix_double_get_with_index (pgm : GMatrix) (i : Z) : float :=
  nth (Z.to_nat i) (gm_data pgm) 0%float.

(** [size[i] = 1 + rint((range[i].end - range[i].start) / range[i].step)],
    stored in an [int]: the value of the program where it fits one (the
    conversion of a larger [double] is undefined in C). *)
Definition grid_size (r : lambda_range) : Z :=
  double_to_int (1 + rint ((range_end r - range_start r) / range_step r))%float.

Definition null_range : lambda_range := mk_lambda_range 0%float 0%float 0%float.

(** [plambda[j] = range[j].step * idx[j] + range[j].start], [j < numrange] *)
Definition grid_point (range : list lambda_range) (idx : list Z) : list float :=
  map (fun j =>
         let r := nth j range null_range in
         (range_step r * int_to_double (nth j idx 0%Z) + range_start r)%float)
      (seq 0 (List.length range)).

(** [pitem->maxlh = -1] for every family *)
Definition invalidate_maxlh (pf : CafeFamily) : CafeFamily :=
  set_flist pf (map (fun pitem => set_maxlh pitem (-1)) (flist pf)).

(** The test [-v > 1e300] on the score [v] of a grid point: the fit is
    impossible for all purposes. *)
Definition impossible_fit (v : float) : bool := (1e300 <? - v)%float.

(** One iteration of the loop of [cafe_lambda_distribution]. *)
Definition distribution_step (range : list lambda_range)
    (st : CafeParam * GMatrix) (i : nat) : CafeParam * GMatrix :=
  let '(param, pgm) := st in
  let idx := gmatrix_dim_index pgm (Z.of_nat i) in
  let plambda := grid_point range idx in
  let '(p1, r) := __cafe_best_lambda_search plambda param in
  let v := (- r)%float in
  let pgm1 := gmatrix_double_set_with_index pgm v (Z.of_nat i) in
  let p2 :=
    if impossible_fit v then set_pfamily p1 (invalidate_maxlh (pfamily p1)) else p1 in
  (p2, pgm1).

Definition cafe_lambda_distribution (param : CafeParam) (range : list lambda_range)
  : CafeParam * GMatrix :=
  let pgm := gmatrix_double_new (map grid_size range) in
  fold_left (distribution_step range) (seq 0 (Z.to_nat (num_elements pgm))) (param, pgm).

(** The session and the matrix before the grid point [j] is evaluated. *)
Definition scan_state (param : CafeParam) (range : list lambda_range) (j : nat)
  : CafeParam * GMatrix :=
  fold_left (distribution_step range) (seq 0 j)
    (param, gmatrix_double_new (map grid_size range)).

Definition tab : string := String (Ascii.ascii_of_nat 9) EmptyString.

(** What one iteration of the loop of [write_lambda_distribution] prints:
    the text of its [fprintf] calls, one after the other. *)
Definition distribution_row (range : list lambda_range) (pgm : GMatrix) (j : nat)
  : string :=
  let idx := gmatrix_dim_index pgm (Z.of_nat j) in
  let coord k :=
    let r := nth k range null_range in
    (int_to_double (nth k idx 0%Z) * range_step r + range_start r)%float in
  let s0 := printf_lf (coord 0%nat) in
  let s1 := fold_left (fun s k => (s ++ tab ++ printf_lf (coord k))%string)
              (seq 1 (List.length range - 1)) s0 in
  (s1 ++ tab ++ printf_lf (gmatrix_double_get_with_index pgm (Z.of_nat j)) ++ endl)%string.

(** A row of tab-separated values, in the words of the specification. *)
Fixpoint tsv_tail (values : list float) : string :=
  match values with
  | [] => endl
  | x :: t => (tab ++ printf_lf x ++ tsv_tail t)%string
  end.

Definition tsv_row (values : list float) : string :=
  match values with
  | [] => endl
  | x :: t => (printf_lf x ++ tsv_tail t)%string
  end.

(** [fp] is [None] for a null [FILE*], else the rows written so far. *)
Definition write_lambda_distribution (param : CafeParam) (range : list lambda_range)
    (fp : option (list string)) : CafeParam * option (list string) :=
  let p1 := set_num_lambdas param (Z.of_nat (List.length range)) in
  let '(p2, pgm) := cafe_lambda_distribution p1 range in
  match fp with
  | Some rows =>
      (p2, Some (rows ++ map (distribution_row range pgm)
                           (seq 0 (Z.to_nat (num_elements pgm)))))
  | None => (p2, None)
  end.

(** *** SingleRateSearch, MixtureSearch and the convergence check *)

(** The index [(lambda_len)*(k - param->fixcluster0)] of the first weight. *)
Definition weight_index (lambda_len k : Z) (param : CafeParam) : nat :=
  Z.to_nat (lambda_len * (k - fixcluster0 param)).

(** The vector [sumofweights] after the two nested loops. *)
Definition sum_memberships (param : CafeParam) (k : Z) : list float :=
  fold_left
    (fun sw i =>
       fold_left
         (fun sw j =>
            set_nth j (nth j sw 0 + nth j (nth i (p_z_membership param) []) 0)%float sw)
         (seq 0 (Z.to_nat k)) sw)
    (seq 0 (List.length (flist (pfamily param))))
    (repeat 0%float (Z.to_nat (parameterized_k_value param))).

(** The weight slice becomes the mean responsibility of each cluster. *)
Definition em_reseed (lambda_len k : Z) (param : CafeParam) : CafeParam :=
  let sumofweights := sum_memberships param k in
  let size := int_to_double (Z.of_nat (List.length (flist (pfamily param)))) in
  set_input_parameters param
    (fold_left
       (fun ps j => set_nth (weight_index lambda_len k param + j)
                      (nth j sumofweights 0 / size)%float ps)
       (seq 0 (Z.to_nat (k - 1))) (input_parameters param)).

(** The body of the EM do-while, up to the copy of the optimum. *)
Definition em_pass (lambda_len k : Z) (pfm : FMinSearch) (param : CafeParam)
  : CafeParam * FMinSearch :=
  let p1 := em_reseed lambda_len k param in
  let '(p2, pfm1) :=
    fminsearch_min __cafe_cluster_lambda_search pfm (input_parameters p1) p1 in
  let re := fminsearch_get_minX pfm1 in
  (set_input_parameters p2 (copy_prefix (num_params p2) re (input_parameters p2)), pfm1).

(** The test of the EM do-while: [current_p - prev_p > pfm->tolx]. *)
Definition em_continue (pfm : FMinSearch) (current_p prev_p : float) : bool :=
  (tolx pfm <? current_p - prev_p)%float.

(** The EM do-while.  The program puts no bound on it; [fuel] bounds the
    number of passes and [None] is a loop still running after that many. *)
Fixpoint em_loop (fuel : nat) (lambda_len k : Z) (pfm : FMinSearch)
    (param : CafeParam) (current_p : float) : option (CafeParam * FMinSearch) :=
  match fuel with
  | O => None
  | S fuel' =>
      let '(p1, pfm1) := em_pass lambda_len k pfm param in
      let prev_p := current_p in
      let current_p := nth (weight_index lambda_len k p1) (input_parameters p1) 0%float in
      if em_continue pfm1 current_p prev_p then em_loop fuel' lambda_len k pfm1 p1 current_p
      else Some (p1, pfm1)
  end.

(** What is logged after the optimization of one run. *)
Definition log_search_result (k : Z) (pfm : FMinSearch) (param : CafeParam) : CafeParam :=
  let p1 := cafe_log param "\n" [] in
  let p2 := cafe_log p1 "Lambda Search Result: %d\n" [AInt (iters pfm)] in
  if (0 <? k)%Z then
    let kfix := (parameterized_k_value p2 - fixcluster0 p2)%Z in
    let p3 :=
      if (fixcluster0 p2 =? 0)%Z then
        cafe_log p2 "Lambda : %s\n"
          [AJoin "," (num_lambdas p2 * parameterized_k_value p2) (input_parameters p2)]
      else
        cafe_log p2 "Lambda : %s\n"
          [AStr "0,"; AJoin "," (num_lambdas p2 * kfix) (input_parameters p2)] in
    let p4 :=
      if (0 <? parameterized_k_value p3)%Z then
        let p := cafe_log p3 "p : %s\n"
                   [AJoin "," (parameterized_k_value p3) (k_weights p3)] in
        cafe_log p "p0 : %f\n"
          [ADouble (nth (Z.to_nat (num_lambdas p * kfix + 0)) (input_parameters p) 0%float)]
      else p3 in
    cafe_log p4 "Score: %f\n" [ADouble (fv pfm)]
  else
    cafe_log p2 "Lambda : %s & Score: %f\n"
      [AJoin "," (num_lambdas p2) (input_parameters p2); ADouble (fv pfm)].

(** The locals of [cafe_best_lambda_by_fminsearch] that outlive a run. *)
Record search_state := mk_search_state
  { ss_param : CafeParam;
    scores : list float;
    converged : Z;
    runs : Z }.

Definition max_runs : Z := 10.

(** The optimization of one run: random start, simplex search, EM
    refinement when [k > 0].  [rnd] are the random draws of this run. *)
Definition search_optimize (emfuel : nat) (lambda_len k : Z) (rnd : list float)
    (param : CafeParam) : option (CafeParam * FMinSearch) :=
  let p1 :=
    if (0 <? num_params param)%Z then
      let kfix := (k - fixcluster0 param)%Z in
      let '(ps, kw) :=
        input_values_randomize rnd param kfix (max_branch_length (pcafe param)) in
      set_k_weights (set_input_parameters param ps) kw
    else param in
  let p2 := set_pcafe p1 (copy_range_to_tree (pcafe p1) (family_size p1)) in
  let pfm :=
    if (0 <? k)%Z then set_tol (fminsearch_new_with_eq (num_params p2)) 1e-5%float 1e-5%float
    else set_tol (fminsearch_new_with_eq lambda_len) 1e-6%float 1e-6%float in
  let starting_values :=
    copy_prefix (num_params p2) (input_parameters p2)
      (repeat 0%float (Z.to_nat (num_params p2))) in
  let '(p3, pfm1) :=
    if (0 <? k)%Z then fminsearch_min __cafe_cluster_lambda_search pfm starting_values p2
    else fminsearch_min __cafe_best_lambda_search pfm starting_values p2 in
  let re := fminsearch_get_minX pfm1 in
  let p4 := set_input_parameters p3 (copy_prefix (num_params p3) re (input_parameters p3)) in
  let current_p := nth (weight_index lambda_len k p4) (input_parameters p4) 0%float in
  if (0 <? k)%Z then em_loop emfuel lambda_len k pfm1 p4 current_p
  else Some (p4, pfm1).

(** The convergence test after a run: [abs(minscore - *pfm->fv) < 10 * pfm->tolf]. *)
Definition close_to_best (scores : list float) (runs : Z) (pfm : FMinSearch) : bool :=
  let minscore := __min scores (Z.to_nat runs) in
  (abs (minscore - fv pfm) <? 10 * tolf pfm)%float.

(** The body of the outer do-while. *)
Definition search_run (emfuel : nat) (lambda_len k : Z) (rnd : list float)
    (st : search_state) : option search_state :=
  match search_optimize emfuel lambda_len k rnd (ss_param st) with
  | None => None
  | Some (p1, pfm) =>
      let p2 := log_search_result k pfm p1 in
      let converged1 :=
        if (0 <? runs st)%Z then
          if close_to_best (scores st) (runs st) pfm then 1%Z else converged st
        else converged st in
      let scores1 := set_nth (Z.to_nat (runs st)) (fv pfm) (scores st) in
      let p3 := set_pcafe p2 (copy_range_to_tree (pcafe p2) (family_size p2)) in
      Some (mk_search_state p3 scores1 converged1 (runs st + 1)%Z)
  end.

(** The test of the outer do-while:
    [param->checkconv && !converged && runs < max_runs]. *)
Definition search_again (st : search_state) : bool :=
  (negb (checkconv (ss_param st) =? 0)%Z && (converged st =? 0)%Z
   && (runs st <? max_runs)%Z)%bool.

(** The outer do-while; [n] bounds the number of runs from above and
    [rnd r] are the random draws of run [r]. *)
Fixpoint search_runs (n emfuel : nat) (lambda_len k : Z) (rnd : nat -> list float)
    (st : search_state) : option search_state :=
  match n with
  | O => Some st
  | S n' =>
      match search_run emfuel lambda_len k (rnd (Z.to_nat (runs st))) st with
      | None => None
      | Some st1 =>
          if search_again st1 then search_runs n' emfuel lambda_len k rnd st1
          else Some st1
      end
  end.

(** The verdict logged after the runs. *)
Definition log_convergence (st : search_state) : CafeParam :=
  let param := ss_param st in
  if (checkconv param =? 0)%Z then param
  else if (converged st =? 0)%Z then
    cafe_log param "score failed to converge in %d runs.\n" [AInt max_runs]
  else cafe_log param "score converged in %d runs.\n" [AInt (runs st)].

(** The locals [scores], [converged], [runs] are returned with the
    session; the C function returns [param->input.parameters]. *)
Definition cafe_best_lambda_by_fminsearch (emfuel : nat) (param : CafeParam)
    (lambda_len k : Z) (rnd : nat -> list float) : option search_state :=
  let st0 := mk_search_state param (repeat 0%float (Z.to_nat max_runs)) 0 0 in
  match search_runs (Z.to_nat max_runs) emfuel lambda_len k rnd st0 with
  | None => None
  | Some st =>
      Some (mk_search_state (log_convergence st) (scores st) (converged st) (runs st))
  end.

(** *** PerFamilySearch *)

(** The array a [double*] points to; a null pointer has none. *)
Definition deref (a : option (list float)) : list float :=
  match a with
  | Some l => l
  | None => []
  end.

Definition __cafe_each_best_lambda_search (plambda : list float) (param : CafeParam)
  : CafeParam * float :=
  let '(p1, score) :=
    if has_negative (num_lambdas param) plambda then (param, log 0%float)
    else
      let p1 := cafe_shell_set_lambdas param plambda in
      let tree1 :=
        reset_birthdeath_cache (pcafe p1) (parameterized_k_value p1) (family_size p1) in
      let tree2 := compute_tree_likelihoods tree1 in
      let likelihood := get_likelihoods tree2 in
      let score := log (__max likelihood (Z.to_nat (rfsize tree2))) in
      (set_pcafe p1 (cafe_free_birthdeath_cache tree2), score) in
  let p2 := cafe_log p1 "\tLambda : %s & Score: %f\n"
              [AJoin "," (num_lambdas p1) plambda; ADouble score] in
  let p3 := cafe_log p2 "\n" [] in
  (p3, (- score)%float).

(** The session, the optimizer handle, and the families for which
    [fminsearch_min] has been called so far (in call order). *)
Record each_state := mk_each_state
  { es_param : CafeParam;
    es_pfm : FMinSearch;
    fmin_calls : list nat }.

Definition es_items (st : each_state) : list CafeFamilyItem :=
  flist (pfamily (es_param st)).

Definition set_family_item (param : CafeParam) (i : nat) (pitem : CafeFamilyItem)
  : CafeParam :=
  set_pfamily param (set_flist (pfamily param) (set_nth i pitem (flist (pfamily param)))).

(** [a >= 0.5 || fabs(a - 0.5) < 1e-3] for some [a = re[j] * max_branch_length] *)
Definition near_boundary (lambda_len : Z) (re : list float) (tree : CafeTree) : bool :=
  existsb
    (fun j =>
       let a := (nth j re 0 * max_branch_length tree)%float in
       ((0.5 <=? a)%float || (abs (a - 0.5) <? 1e-3)%float)%bool)
    (seq 0 (Z.to_nat lambda_len)).

(** A family that refers to another one: its results are the other's. *)
Definition each_copy_ref (fsize : Z) (st : each_state) (i : nat) : each_state :=
  let param := es_param st in
  let pitem := family_item (pfamily param) i in
  let pref := family_item (pfamily param) (Z.to_nat (ref pitem)) in
  let pitem1 := set_lambda_mu pitem (lambda pref) (mu pref) in
  let p1 := set_family_item param i pitem1 in
  let p2 := cafe_shell_set_lambdas p1 (deref (lambda pitem1)) in
  let p3 := cafe_log p2 "%s: Lambda Search Result of %d/%d in %d iteration \n"
              [AStr (id pitem1); AInt (Z.of_nat i + 1); AInt fsize; AInt (iters (es_pfm st))] in
  let pstr := cafe_tree_string_with_familysize_lambda (pcafe p3) in
  let p4 := cafe_log p3 "%s: %s\n" [AStr (id pitem1); AStr pstr] in
  mk_each_state p4 (es_pfm st) (fmin_calls st).

(** A family of its own: the optimizer fits its rates. *)
Definition each_fit (lambda_len fsize : Z) (st : each_state) (i : nat) : each_state :=
  let param := es_param st in
  let pitem := family_item (pfamily param) i in
  let p1 := set_pcafe param
              (cafe_family_set_size_with_family_forced (pfamily param) (Z.of_nat i)
                 (pcafe param)) in
  let r := range (pcafe p1) in
  let p2 := set_family_size p1
              (mk_family_size_range (min r) (max r) (root_min r) (root_max r)) in
  let p3 := cafe_log p2 "%s:\n" [AStr (id pitem)] in
  let '(p4, pfm1) :=
    fminsearch_min __cafe_each_best_lambda_search (es_pfm st) (deref (param_lambda p3)) p3 in
  let re := fminsearch_get_minX pfm1 in
  let n := Z.to_nat lambda_len in
  let pitem1 :=
    set_lambda_mu (family_item (pfamily p4) i)
      (Some (copy_prefix lambda_len re (repeat 0%float n)))
      (Some (repeat 0%float n)) in
  let lambda_check := near_boundary lambda_len re (pcafe p4) in
  let p5 := cafe_shell_set_lambdas (set_family_item p4 i pitem1) re in
  let p6 := cafe_log p5 "Lambda Search Result of %d/%d in %d iteration \n"
              [AInt (Z.of_nat i + 1); AInt fsize; AInt (iters pfm1)] in
  let p7 := if lambda_check
            then cafe_log p6 "Caution : at least one lambda near boundary\n" [] else p6 in
  let pstr := cafe_tree_string_with_familysize_lambda (pcafe p7) in
  let p8 := if lambda_check then cafe_log p7 "@@ " [] else p7 in
  let p9 := cafe_log p8 "%s\n" [AStr pstr] in
  mk_each_state p9 pfm1 (fmin_calls st ++ [i]).

(** The test [pitem->ref >= 0 && pitem->ref != i]. *)
Definition refers_to_other (pitem : CafeFamilyItem) (i : nat) : bool :=
  ((0 <=? ref pitem)%Z && negb (ref pitem =? Z.of_nat i)%Z)%bool.

(** One iteration of the loop over the families. *)
Definition each_step (lambda_len fsize : Z) (st : each_state) (i : nat) : each_state :=
  if refers_to_other (family_item (pfamily (es_param st)) i) i
  then each_copy_ref fsize st i
  else each_fit lambda_len fsize st i.

(** Returns the session and the families the optimizer was called for;
    the C function returns [param->lambda]. *)
Definition cafe_each_best_lambda_by_fminsearch (param : CafeParam) (lambda_len : Z)
  : CafeParam * list nat :=
  let old_lambda := param_lambda param in
  let start := (0.5 / max_branch_length (pcafe param))%float in
  let p1 := set_num_lambdas
              (set_param_lambda param (Some (repeat start (Z.to_nat lambda_len))))
              lambda_len in
  let temp_range := family_size p1 in
  let pfm := set_tol (fminsearch_new_with_eq lambda_len) 1e-6%float 1e-6%float in
  let fsize := Z.of_nat (List.length (flist (pfamily p1))) in
  let st := fold_left (each_step lambda_len fsize)
              (seq 0 (List.length (flist (pfamily p1))))
              (mk_each_state p1 pfm []) in
  let p2 := es_param st in
  let p3 := set_pcafe p2 (copy_range_to_tree (pcafe p2) temp_range) in
  let p4 := set_family_size p3 temp_range in
  (set_param_lambda p4 old_lambda, fmin_calls st).

(** The state of the loop before the family [i] agrees with the
    posteriors [acc] of the families before [i]. *)
Record gp_sim (n i : nat) (st : gp_state) (acc : list posterior) : Prop := mk_gp_sim
  { sim_ml_length : List.length (family_max_likelihood st) = n;
    sim_mp_length : List.length (family_max_posterior st) = n;
    sim_acc_length : List.length acc = i;
    sim_ml : firstn i (family_max_likelihood st) = map max_likelihood acc;
    sim_mp : firstn i (family_max_posterior st) = map max_posterior acc;
    sim_ml_unwritten : forall j, i <= j -> nth j (family_max_likelihood st) 0%float = 0%float;
    sim_mp_unwritten : forall j, i <= j -> nth j (family_max_posterior st) 0%float = 0%float;
    sim_score : gp_score st = sum_log_posteriors acc;
    sim_nonzero : existsb zero_likelihood acc = false }.

End Lambda.

(** ** Reference collaborators

    A small instance of [Collaborators], used to run the definitions on
    concrete inputs.
    - [ref_log] and [ref_exp] are exact on the arguments for which C99
      (Annex F) fixes the result: [log(+-0) = -inf], [log(1) = +0],
      [log(+inf) = +inf], [log] of a negative number or of NaN is NaN,
      [exp(-inf) = +0], [exp(+-0) = 1], [exp(+inf) = +inf], [exp(NaN)] is
      NaN.  Elsewhere they are the first-order values [x - 1] and [1 + x];
      the examples below reach the special arguments only.
    - [ref_poisspdf] is NaN for a negative or NaN rate, as
      [exp(x * log(rate) - lgamma(x + 1) - rate)] is.
    - The evaluator is the likelihood of a tree on which nothing changes
      (rate zero): root size [root_min + j] has likelihood 1 when every leaf
      holds that many genes, else 0.
    - The optimizer evaluates the objective at the start vector and
      reports that point. *)

Definition ref_log (x : float) : float :=
  if is_nan x then nan
  else if (x <? 0)%float then nan
  else if (x =? 0)%float then neg_infinity
  else if (x =? infinity)%float then infinity
  else (x - 1)%float.

Definition ref_exp (x : float) : float :=
  if is_nan x then nan
  else if (x =? neg_infinity)%float then 0%float
  else if (x =? infinity)%float then infinity
  else (1 + x)%float.

Definition ref_poisspdf (x rate : float) : float :=
  if is_nan rate then nan
  else if (rate <? 0)%float then nan
  else if (x <? 0)%float then 0%float
  else (ref_exp (- rate) / (1 + x))%float.

(** Six decimals of a double of moderate size, as "%lf" prints them. *)
Definition ref_printf_lf (x : float) : string :=
  let v := double_to_int (rint (x * 1000000)%float) in
  let a := Z.abs v in
  let frac := NilZero.string_of_uint (N.to_uint (Z.to_N (1000000 + a mod 1000000))) in
  ((if (v <? 0)%Z then "-" else "")
   ++ NilZero.string_of_uint (N.to_uint (Z.to_N (a / 1000000)))
   ++ "." ++ String.substring 1 6 frac)%string.

Definition ref_family_set_size (pf : CafeFamily) (pitem : CafeFamilyItem)
    (tree : CafeTree) : CafeTree :=
  mk_CafeTree (range tree) (rfsize tree)
    (map (fun i => nth i (count pitem) 0%Z)
       (filter (fun i => negb (nth i (index pf) 0 <? 0)%Z)
          (seq 0 (Z.to_nat (num_species pf)))))
    (node_lambda tree) (bd_cache tree).

Definition ref_get_likelihoods (tree : CafeTree) : list float :=
  map (fun j =>
         if forallb (fun c => (c =? root_min (range tree) + Z.of_nat j)%Z)
              (node_familysize tree)
         then 1%float else 0%float)
      (seq 0 (Z.to_nat (rfsize tree))).

(** The range of a family alone: its smallest and largest leaf count. *)
Definition ref_family_set_size_forced (pf : CafeFamily) (i : Z) (tree : CafeTree)
  : CafeTree :=
  let t := ref_family_set_size pf (family_item pf (Z.to_nat i)) tree in
  let lo := fold_right Z.min 1000%Z (node_familysize t) in
  let hi := fold_right Z.max 0%Z (node_familysize t) in
  mk_CafeTree (mk_family_size_range lo hi (Z.max 1 lo) hi) (hi - Z.max 1 lo + 1)
    (node_familysize t) (node_lambda t) (bd_cache t).

Definition ref_set_cache (b : bool) (tree : CafeTree) : CafeTree :=
  mk_CafeTree (range tree) (rfsize tree) (node_familysize tree) (node_lambda tree) b.

#[local] Instance ref_collaborators : Collaborators :=
  {| log := ref_log;
     exp := ref_exp;
     poisspdf := ref_poisspdf;
     printf_lf := ref_printf_lf;
     compute_tree_likelihoods := fun tree => tree;
     get_likelihoods := ref_get_likelihoods;
     max_branch_length := fun _ => 2%float;
     cafe_family_set_size := ref_family_set_size;
     cafe_family_set_size_with_family_forced := ref_family_set_size_forced;
     cafe_tree_string_with_familysize_lambda := fun _ => "(A,B)"%string;
     reset_birthdeath_cache := fun tree _ _ => ref_set_cache true tree;
     cafe_free_birthdeath_cache := ref_set_cache false;
     set_node_lambdas := fun param l =>
       mk_CafeTree (range (pcafe param)) (rfsize (pcafe param))
         (node_familysize (pcafe param)) l (bd_cache (pcafe param));
     set_current_lambda := fun _ l => Some l;
     __cafe_cluster_lambda_search := fun _ param => (param, 7%float);
     input_values_randomize := fun rnd param _ _ => (rnd, k_weights param);
     fmin_maxeval := 8;
     fmin_next := fun _ X0 seen =>
       match seen with
       | [] => Some X0
       | _ => None
       end;
     fmin_report := fun _ X0 seen =>
       match seen with
       | (x, v) :: _ => (1%Z, v, x)
       | [] => (0%Z, 0%float, X0)
       end |}.

(** A tree with two leaves, root sizes 1 and 2. *)
Definition ref_tree : CafeTree :=
  mk_CafeTree (mk_family_size_range 0 2 1 2) 2 [0%Z; 0%Z] [] false.

Definition ref_family (items : list CafeFamilyItem) : CafeFamily :=
  mk_CafeFamily 2 [0%Z; 1%Z] items.

Definition ref_item (name : string) (r : Z) (counts : list Z) : CafeFamilyItem :=
  mk_CafeFamilyItem name r counts (-1) None None.

Definition ref_param (items : list CafeFamilyItem) (prior : list float) : CafeParam :=
  mk_CafeParam [] [] ref_tree (ref_family items) prior [] 1 None 1 0 0 [] [] 0 0
    (mk_family_size_range 0 2 1 2) 0.

(** The tolerance on the objective is one of the two the searches set. *)
Definition tolf_is_set (pfm : FMinSearch) : Prop :=
  tolf pfm = 1e-5%float \/ tolf pfm = 1e-6%float.

(** A mixture of two clusters, one rate each: the parameters are the two
    rates and the weight of the first cluster. *)
Definition ref_mixture_param : CafeParam :=
  mk_CafeParam [] [] ref_tree (ref_family [ref_item "F1" (-1) [1; 1]%Z])
    [1%float; 1%float] [0.125%float; 0.25%float; 0.75%float] 3 None 1 0 2
    [0.75%float; 0.25%float] [[0.25%float; 0.75%float]] 0 0
    (mk_family_size_range 0 2 1 2) 0.

(** The mixture session with the convergence check requested. *)
Definition ref_mixture_checkconv_param : CafeParam :=
  mk_CafeParam [] [] ref_tree (ref_family [ref_item "F1" (-1) [1; 1]%Z])
    [1%float; 1%float] [0.125%float; 0.25%float; 0.75%float] 3 None 1 0 2
    [0.75%float; 0.25%float] [[0.25%float; 0.75%float]] 0 1
    (mk_family_size_range 0 2 1 2) 0.

(** A session with the convergence check requested and a family whose
    likelihood is 0 for every root size: the posterior score is the log(0)
    penalty for every rate vector. *)
Definition ref_penalty_param : CafeParam :=
  mk_CafeParam [] [] ref_tree (ref_family [ref_item "F1" (-1) [1; 2]%Z])
    [1%float; 1%float] [0.25%float] 1 None 1 0 0 [] [] 0 1
    (mk_family_size_range 0 2 1 2) 1.

(** ** The lambda command: options, rate setting, search dispatch, report *)

(** The values of [lambda_type] this code names; the enumeration is
    declared in lambda.h, which is not among the embedded files. *)
Inductive LAMBDA_TYPE := UNDEFINED_LAMBDA | SINGLE_LAMBDA | MULTIPLE_LAMBDAS.

(** [Argument]: an option and the words that follow it. *)
Record Argument := mk_Argument { opt : string; argc : Z; argv : list string }.

(** [parg->argv[i]]; the empty string where the C program reads past the
    words. *)
Definition arg (parg : Argument) (i : nat) : string := nth i (argv parg) EmptyString.

(** [!strcmp(parg->opt.c_str(), name)] *)
Definition is_opt (name : string) (parg : Argument) : bool := String.eqb (opt parg) name.

(** [is_out] *)
Definition is_out (parg : Argument) : bool := is_opt "-o" parg.

(** The elements a [std::vector] holds after [resize(n)]. *)
Definition resize {A : Type} (n : nat) (d : A) (v : list A) : list A :=
  firstn n v ++ repeat d (n - List.length v).

(** [v.resize(n)] for an [int n]: a negative [n] converts to a size beyond
    [max_size()], for which [resize] throws [std::length_error]. *)
Definition vector_resize {A : Type} (n : Z) (d : A) (v : list A) : outcome (list A) :=
  if (n <? 0)%Z then Throw "vector::_M_default_append"
  else Ok (resize (Z.to_nat n) d v).

(** The members of [lambda_arg_base] and [lambda_args]; a null
    [lambda_tree] is [None]. *)
Module lambda_args.

Record t := mk
  { search : bool;
    checkconv : bool;
    score : bool;
    bdone : Z;
    lambda_tree : option Z;
    lambdas : list float;
    num_params : Z;
    lambda_type : LAMBDA_TYPE;
    k_weights : list float;
    fixcluster0 : Z;
    vlambda : float;
    range : list lambda_range;
    write_files : bool;
    each : bool;
    outfile : string;
    name : string }.

Definition set_search (a : t) (v : bool) : t :=
  mk v (checkconv a) (score a) (bdone a) (lambda_tree a) (lambdas a) (num_params a)
    (lambda_type a) (k_weights a) (fixcluster0 a) (vlambda a) (range a)
    (write_files a) (each a) (outfile a) (name a).

Definition set_checkconv (a : t) (v : bool) : t :=
  mk (search a) v (score a) (bdone a) (lambda_tree a) (lambdas a) (num_params a)
    (lambda_type a) (k_weights a) (fixcluster0 a) (vlambda a) (range a)
    (write_files a) (each a) (outfile a) (name a).

Definition set_score (a : t) (v : bool) : t :=
  mk (search a) (checkconv a) v (bdone a) (lambda_tree a) (lambdas a) (num_params a)
    (lambda_type a) (k_weights a) (fixcluster0 a) (vlambda a) (range a)
    (write_files a) (each a) (outfile a) (name a).

Definition set_bdone (a : t) (v : Z) : t :=
  mk (search a) (checkconv a) (score a) v (lambda_tree a) (lambdas a) (num_params a)
    (lambda_type a) (k_weights a) (fixcluster0 a) (vlambda a) (range a)
    (write_files a) (each a) (outfile a) (name a).

Definition set_lambda_tree (a : t) (v : option Z) : t :=
  mk (search a) (checkconv a) (score a) (bdone a) v (lambdas a) (num_params a)
    (lambda_type a) (k_weights a) (fixcluster0 a) (vlambda a) (range a)
    (write_files a) (each a) (outfile a) (name a).

Definition set_lambdas (a : t) (v : list float) : t :=
  mk (search a) (checkconv a) (score a) (bdone a) (lambda_tree a) v (num_params a)
    (lambda_type a) (k_weights a) (fixcluster0 a) (vlambda a) (range a)
    (write_files a) (each a) (outfile a) (name a).

Definition set_num_params (a : t) (v : Z) : t :=
  mk (search a) (checkconv a) (score a) (bdone a) (lambda_tree a) (lambdas a) v
    (lambda_type a) (k_weights a) (fixcluster0 a) (vlambda a) (range a)
    (write_files a) (each a) (outfile a) (name a).

Definition set_lambda_type (a : t) (v : LAMBDA_TYPE) : t :=
  mk (search a) (checkconv a) (score a) (bdone a) (lambda_tree a) (lambdas a) (num_params a)
    v (k_weights a) (fixcluster0 a) (vlambda a) (range a)
    (write_files a) (each a) (outfile a) (name a).

Definition set_k_weights (a : t) (v : list float) : t :=
  mk (search a) (checkconv a) (score a) (bdone a) (lambda_tree a) (lambdas a) (num_params a)
    (lambda_type a) v (fixcluster0 a) (vlambda a) (range a)
    (write_files a) (each a) (outfile a) (name a).

Definition set_fixcluster0 (a : t) (v : Z) : t :=
  mk (search a) (checkconv a) (score a) (bdone a) (lambda_tree a) (lambdas a) (num_params a)
    (lambda_type a) (k_weights a) v (vlambda a) (range a)
    (write_files a) (each a) (outfile a) (name a).

Definition set_vlambda (a : t) (v : float) : t :=
  mk (search a) (checkconv a) (score a) (bdone a) (lambda_tree a) (lambdas a) (num_params a)
    (lambda_type a) (k_weights a) (fixcluster0 a) v (range a)
    (write_files a) (each a) (outfile a) (name a).

Definition set_range (a : t) (v : list lambda_range) : t :=
  mk (search a) (checkconv a) (score a) (bdone a) (lambda_tree a) (lambdas a) (num_params a)
    (lambda_type a) (k_weights a) (fixcluster0 a) (vlambda a) v
    (write_files a) (each a) (outfile a) (name a).

Definition set_write_files (a : t) (v : bool) : t :=
  mk (search a) (checkconv a) (score a) (bdone a) (lambda_tree a) (lambdas a) (num_params a)
    (lambda_type a) (k_weights a) (fixcluster0 a) (vlambda a) (range a)
    v (each a) (outfile a) (name a).

Definition set_each (a : t) (v : bool) : t :=
  mk (search a) (checkconv a) (score a) (bdone a) (lambda_tree a) (lambdas a) (num_params a)
    (lambda_type a) (k_weights a) (fixcluster0 a) (vlambda a) (range a)
    (write_files a) v (outfile a) (name a).

Definition set_outfile (a : t) (v : string) : t :=
  mk (search a) (checkconv a) (score a) (bdone a) (lambda_tree a) (lambdas a) (num_params a)
    (lambda_type a) (k_weights a) (fixcluster0 a) (vlambda a) (range a)
    (write_files a) (each a) v (name a).

End lambda_args.

(** What the command calls and the embedded files do not define.
    - [__cafe_cmd_lambda_tree] reads a rate structure into the session: its
      return value, the session after it, and the session's [lambda_tree]
      (a field the record [CafeParam] above leaves out);
    - [get_doubles_array], from the vector as it is and the words of the
      option, gives the vector as it becomes;
    - the three [sscanf] conversions give the new value of their target
      from the word and the old value (a failed conversion stores
      nothing);
    - [input_values_construct], from the parameter vector as it is and the
      requested size, gives the new one; [input_values_set_lambdas] and
      [input_values_set_k_weights], from the parameter vector as it is,
      the source array and the counts they are called with, give the
      vector as it becomes;
    - [get_num_params] and [validate_parameter_count] are the two methods
      of the options that lambda.h declares; the second may throw. *)
Class CommandCollaborators := mk_CommandCollaborators
  { __cafe_cmd_lambda_tree : CafeParam -> string -> option string -> Z * CafeParam * option Z;
    phylogeny_string : option Z -> string;
    get_doubles_array : list float -> Argument -> list float;
    sscanf_d : string -> Z -> Z;
    sscanf_lf : string -> float -> float;
    sscanf_range : string -> lambda_range -> lambda_range;
    input_values_construct : list float -> Z -> list float;
    input_values_set_lambdas : list float -> list float -> Z -> list float;
    input_values_set_k_weights : list float -> list float -> Z -> Z -> list float;
    get_num_params : lambda_args.t -> Z;
    validate_parameter_count : lambda_args.t -> Z -> outcome unit }.

Section Command.

Context {ext : Collaborators} {cmd : CommandCollaborators}.

(** One iteration of the loop of [lambda_arg_base::load], on the session
    the global [cafe_param] points to. *)
Definition lambda_arg_base_option (parg : Argument) (cafe_param : CafeParam)
    (a : lambda_args.t) : CafeParam * outcome lambda_args.t :=
  if is_opt "-s" parg then (cafe_param, Ok (lambda_args.set_search a true))
  else if is_opt "-checkconv" parg then (cafe_param, Ok (lambda_args.set_checkconv a true))
  else if is_opt "-score" parg then (cafe_param, Ok (lambda_args.set_score a true))
  else if is_opt "-t" parg then
    let '(r, p1, tree) :=
      __cafe_cmd_lambda_tree cafe_param (arg parg 0)
        (if (1 <? argc parg)%Z then Some (arg parg 1) else None) in
    let a1 := lambda_args.set_bdone a r in
    if (r <? 0)%Z then (p1, Throw "std::exception")
    else
      let pstr := phylogeny_string tree in
      let p2 := cafe_log p1 "Lambda Tree: %s\n" [AStr pstr] in
      let a2 := lambda_args.set_lambda_tree a1 tree in
      match vector_resize (num_lambdas p2) 0%float (lambda_args.lambdas a2) with
      | Ok l => (p2, Ok (lambda_args.set_lambdas a2 l))
      | Throw what => (p2, Throw what)
      end
  else if is_opt "-l" parg then
    let a1 := lambda_args.set_lambdas a (get_doubles_array (lambda_args.lambdas a) parg) in
    let a2 := lambda_args.set_num_params a1
                (lambda_args.num_params a1 + Z.of_nat (List.length (lambda_args.lambdas a1))) in
    (cafe_param, Ok (lambda_args.set_lambda_type a2 MULTIPLE_LAMBDAS))
  else if is_opt "-p" parg then
    let a1 := lambda_args.set_k_weights a
                (get_doubles_array (lambda_args.k_weights a) parg) in
    (cafe_param,
     Ok (lambda_args.set_num_params a1
           (lambda_args.num_params a1 + Z.of_nat (List.length (lambda_args.k_weights a1)))))
  else if is_opt "-k" parg then
    let k := sscanf_d (arg parg 0) 0 in
    match vector_resize k 0%float (lambda_args.k_weights a) with
    | Ok l => (cafe_param, Ok (lambda_args.set_k_weights a l))
    | Throw what => (cafe_param, Throw what)
    end
  else if is_opt "-f" parg then (cafe_param, Ok (lambda_args.set_fixcluster0 a 1))
  else (cafe_param, Ok a).

(** [lambda_arg_base::load] *)
Fixpoint lambda_arg_base_load (pargs : list Argument) (cafe_param : CafeParam)
    (a : lambda_args.t) : CafeParam * outcome lambda_args.t :=
  match pargs with
  | [] => (cafe_param, Ok a)
  | parg :: rest =>
      match lambda_arg_base_option parg cafe_param a with
      | (p1, Ok a1) => lambda_arg_base_load rest p1 a1
      | (p1, Throw what) => (p1, Throw what)
      end
  end.

(** One iteration of the loop of [lambda_args::load]; a range that
    [resize] adds is all zeros. *)
Definition lambda_args_option (parg : Argument) (a : lambda_args.t)
  : outcome lambda_args.t :=
  if is_opt "-v" parg then
    let a1 := lambda_args.set_vlambda a (sscanf_lf (arg parg 0) (lambda_args.vlambda a)) in
    Ok (lambda_args.set_lambda_type a1 SINGLE_LAMBDA)
  else if is_opt "-r" parg then
    match vector_resize (argc parg) null_range (lambda_args.range a) with
    | Ok r =>
        Ok (lambda_args.set_range a
              (fold_left
                 (fun r j => set_nth j (sscanf_range (arg parg j) (nth j r null_range)) r)
                 (seq 0 (Z.to_nat (argc parg))) r))
    | Throw what => Throw what
    end
  else if is_opt "-e" parg then
    Ok (lambda_args.set_each (lambda_args.set_write_files a true) true)
  else if is_opt "-o" parg then Ok (lambda_args.set_outfile a (arg parg 0))
  else Ok a.

(** The loop of [lambda_args::load], after the call of the base class. *)
Fixpoint lambda_args_options (pargs : list Argument) (a : lambda_args.t)
  : outcome lambda_args.t :=
  match pargs with
  | [] => Ok a
  | parg :: rest =>
      match lambda_args_option parg a with
      | Ok a1 => lambda_args_options rest a1
      | Throw what => Throw what
      end
  end.

(** [lambda_args::load] *)
Definition lambda_args_load (pargs : list Argument) (cafe_param : CafeParam)
    (a : lambda_args.t) : CafeParam * outcome lambda_args.t :=
  match lambda_arg_base_load pargs cafe_param a with
  | (p1, Ok a1) => (p1, lambda_args_options pargs a1)
  | (p1, Throw what) => (p1, Throw what)
  end.

(** [set_all_lambdas] *)
Definition set_all_lambdas (param : CafeParam) (value : float) : CafeParam :=
  let p1 := set_param_lambda param None in
  let p2 := set_num_lambdas p1 (if (num_lambdas p1 <? 1)%Z then 1%Z else num_lambdas p1) in
  let n := Z.to_nat (num_lambdas p2) in
  set_param_lambda p2
    (Some (fold_left (fun l j => set_nth j value l) (seq 0 n) (repeat 0%float n))).

(** [initialize_params_and_k_weights]; the two bits of [what] ([INIT_PARAMS],
    [INIT_KWEIGHTS]) are the two booleans. *)
Definition initialize_params_and_k_weights (param : CafeParam)
    (init_params init_kweights : bool) : CafeParam :=
  let p1 :=
    if init_params
    then set_input_parameters param
           (input_values_construct (input_parameters param) (num_params param))
    else param in
  if init_kweights
  then set_k_weights p1 (repeat 0%float (Z.to_nat (parameterized_k_value p1)))
  else p1.

Definition set_num_params (p : CafeParam) (v : Z) : CafeParam :=
  mk_CafeParam (flog p) (ferr p) (pcafe p) (pfamily p) (prior_rfsize p)
    (input_parameters p) v (param_lambda p) (num_lambdas p)
    (num_mus p) (parameterized_k_value p) (k_weights p) (p_z_membership p)
    (fixcluster0 p) (checkconv p) (family_size p) (quiet p).

Definition set_parameterized_k_value (p : CafeParam) (v : Z) : CafeParam :=
  mk_CafeParam (flog p) (ferr p) (pcafe p) (pfamily p) (prior_rfsize p)
    (input_parameters p) (num_params p) (param_lambda p) (num_lambdas p)
    (num_mus p) v (k_weights p) (p_z_membership p)
    (fixcluster0 p) (checkconv p) (family_size p) (quiet p).

Definition set_fixcluster0 (p : CafeParam) (v : Z) : CafeParam :=
  mk_CafeParam (flog p) (ferr p) (pcafe p) (pfamily p) (prior_rfsize p)
    (input_parameters p) (num_params p) (param_lambda p) (num_lambdas p)
    (num_mus p) (parameterized_k_value p) (k_weights p) (p_z_membership p)
    v (checkconv p) (family_size p) (quiet p).

Definition set_checkconv (p : CafeParam) (v : Z) : CafeParam :=
  mk_CafeParam (flog p) (ferr p) (pcafe p) (pfamily p) (prior_rfsize p)
    (input_parameters p) (num_params p) (param_lambda p) (num_lambdas p)
    (num_mus p) (parameterized_k_value p) (k_weights p) (p_z_membership p)
    (fixcluster0 p) v (family_size p) (quiet p).

(** [set_parameters]; the session is returned also when the validation
    throws, as it is then. *)
Definition set_parameters (param : CafeParam) (params : lambda_args.t)
  : CafeParam * outcome unit :=
  let p1 := set_parameterized_k_value param
              (Z.of_nat (List.length (lambda_args.k_weights params))) in
  let p2 := set_fixcluster0 p1 (lambda_args.fixcluster0 params) in
  let p3 := set_num_params p2 (get_num_params params) in
  match validate_parameter_count params (num_params p3) with
  | Throw what => (p3, Throw what)
  | Ok _ =>
      let p4 := initialize_params_and_k_weights p3 true true in
      let p5 := set_input_parameters p4
                  (input_values_set_lambdas (input_parameters p4)
                     (lambda_args.lambdas params)
                     (Z.of_nat (List.length (lambda_args.lambdas params)))) in
      let num_k_weights := (Z.of_nat (List.length (lambda_args.k_weights params)) - 1)%Z in
      let first_k_weight :=
        (num_lambdas p5 * (parameterized_k_value p5 - lambda_args.fixcluster0 params))%Z in
      (set_input_parameters p5
         (input_values_set_k_weights (input_parameters p5) (lambda_args.k_weights params)
            first_k_weight num_k_weights),
       Ok tt)
  end.

(** The branch of [lambda_set] without weights; [n] is the number of
    rates it copies. *)
Definition set_rates_only (param : CafeParam) (params : lambda_args.t) (n : Z)
  : CafeParam * outcome unit :=
  let p1 := set_num_params param (num_lambdas param) in
  match validate_parameter_count params (num_params p1) with
  | Throw what => (p1, Throw what)
  | Ok _ =>
      let p2 := initialize_params_and_k_weights p1 true false in
      (set_input_parameters p2
         (input_values_set_lambdas (input_parameters p2) (lambda_args.lambdas params) n),
       Ok tt)
  end.

(** [lambda_set] *)
Definition lambda_set (param : CafeParam) (params : lambda_args.t)
  : CafeParam * outcome unit :=
  match lambda_args.lambda_tree params with
  | Some _ =>
      if (0 <? Z.of_nat (List.length (lambda_args.k_weights params)))%Z
      then set_parameters param params
      else set_rates_only param params
             (Z.of_nat (List.length (lambda_args.lambdas params)))
  | None =>
      let p1 := set_num_lambdas param 1 in
      if (0 <? Z.of_nat (List.length (lambda_args.k_weights params)))%Z
      then set_parameters p1 params
      else set_rates_only p1 params (num_lambdas p1)
  end.

(** [lambda_search] up to the call of the search: the session and the
    options as the search finds them. *)
Definition lambda_search_setup (param : CafeParam) (params : lambda_args.t)
  : CafeParam * lambda_args.t :=
  let '(p1, a1) :=
    match lambda_args.lambda_tree params with
    | None =>
        (set_num_lambdas param 1,
         lambda_args.set_lambdas params (resize 1 0%float (lambda_args.lambdas params)))
    | Some _ => (param, params)
    end in
  let nk := Z.of_nat (List.length (lambda_args.k_weights a1)) in
  let nl := Z.of_nat (List.length (lambda_args.lambdas a1)) in
  let p2 :=
    if (0 <? nk)%Z then
      let q1 := set_parameterized_k_value p1 nk in
      let q2 := set_fixcluster0 q1 (lambda_args.fixcluster0 a1) in
      set_num_params q2 (nl * (nk - lambda_args.fixcluster0 a1) + (nk - 1))
    else set_num_params p1 (num_lambdas p1) in
  let p3 := initialize_params_and_k_weights p2 true (0 <? nk)%Z in
  let p4 := if lambda_args.checkconv a1 then set_checkconv p3 1 else p3 in
  (p4, a1).

(** [lambda_search]; [None] is an EM loop of the mixture search still
    running after [emfuel] passes. *)
Definition lambda_search (emfuel : nat) (rnd : nat -> list float) (param : CafeParam)
    (params : lambda_args.t) : option (CafeParam * lambda_args.t) :=
  let '(p1, a1) := lambda_search_setup param params in
  if lambda_args.each a1 then
    Some (fst (cafe_each_best_lambda_by_fminsearch p1 (num_lambdas p1)), a1)
  else
    match cafe_best_lambda_by_fminsearch emfuel p1 (num_lambdas p1)
            (parameterized_k_value p1) rnd with
    | Some st => Some (ss_param st, a1)
    | None => None
    end.

Definition set_prior_rfsize (p : CafeParam) (v : list float) : CafeParam :=
  mk_CafeParam (flog p) (ferr p) (pcafe p) (pfamily p) v
    (input_parameters p) (num_params p) (param_lambda p) (num_lambdas p)
    (num_mus p) (parameterized_k_value p) (k_weights p) (p_z_membership p)
    (fixcluster0 p) (checkconv p) (family_size p) (quiet p).

(** The prior step of [cafe_cmd_lambda]: the empirical prior is estimated
    into a local vector and copied into a new array of the session, as
    long as the vector.  [u] is the value [unifrnd()] returns for the
    seed of the fit. *)
Definition cmd_lambda_prior (param : CafeParam) (u : float) : CafeParam :=
  let '(p1, prior) := cafe_set_prior_rfsize_empirical param u in
  let n := Z.of_nat (List.length prior) in
  set_prior_rfsize p1 (copy_prefix n prior (repeat 0%float (Z.to_nat n))).

(** The loop over [j] in the report of [cafe_cmd_lambda]: the mark is
    printed at the first rate near the boundary, and the loop is left. *)
Fixpoint boundary_mark (js : list nat) (l : list float) (tree : CafeTree)
    (fpout : list LogLine) : list LogLine :=
  match js with
  | [] => fpout
  | j :: rest =>
      let a := (nth j l 0 * max_branch_length tree)%float in
      if ((0.5 <=? a)%float || (abs (a - 0.5) <? 1e-3)%float)%bool
      then fpout ++ [("@@ "%string, [])]
      else boundary_mark rest l tree fpout
  end.

(** What the report of [cafe_cmd_lambda] does for the family [i]: the
    session, the lines of [fpout] and those of [fhttp] ([None] for a null
    file).  [descs] are the [desc] fields of the families, which the
    record [CafeFamilyItem] above leaves out. *)
Definition report_family (name : string) (descs : list (option string))
    (st : CafeParam * list LogLine * option (list LogLine)) (i : nat)
  : CafeParam * list LogLine * option (list LogLine) :=
  let '(param, fpout, fhttp) := st in
  let pitem := family_item (pfamily param) i in
  let p1 := set_pcafe param (cafe_family_set_size (pfamily param) pitem (pcafe param)) in
  let p2 := cafe_shell_set_lambdas p1 (deref (lambda pitem)) in
  let pstr := cafe_tree_string_with_familysize_lambda (pcafe p2) in
  let out1 := boundary_mark (seq 0 (Z.to_nat (num_lambdas p2))) (deref (lambda pitem))
                (pcafe p2) fpout in
  let out2 := out1 ++ [("%s\t%s\n"%string, [AStr (id pitem); AStr pstr])] in
  let http :=
    match fhttp with
    | Some h =>
        Some (h ++ [("<tr><td rowspan=2><a href=pdf/%s-%d.pdf>%s</a></td><td>%s</td></tr>\n"%string,
                     [AStr name; AInt (Z.of_nat i + 1); AStr (id pitem);
                      AStr (match nth i descs None with
                            | Some d => d
                            | None => "NONE"%string
                            end)]);
                    ("<tr><td>%s</td></tr>\n"%string, [AStr pstr])])
    | None => None
    end in
  (p2, out2, http).

(** The branch [if (params.each)] of the report of [cafe_cmd_lambda]. *)
Definition report_each (param : CafeParam) (name : string) (descs : list (option string))
    (fpout : list LogLine) (fhttp : option (list LogLine))
  : CafeParam * list LogLine * option (list LogLine) :=
  let fhttp1 :=
    match fhttp with
    | Some h => Some (h ++ [("<html>\n<body>\n<table border=1>\n"%string, [])])
    | None => None
    end in
  let '(p, out, http) :=
    fold_left (report_family name descs) (seq 0 (List.length (flist (pfamily param))))
      (param, fpout, fhttp1) in
  (p, out,
   match http with
   | Some h => Some (h ++ [("</table>\n</body>\n</html>\n"%string, [])])
   | None => None
   end).

(** The session before the report reaches the family [i]. *)
Definition report_state (param : CafeParam) (name : string) (descs : list (option string))
    (fpout : list LogLine) (fhttp : option (list LogLine)) (i : nat) : CafeParam :=
  fst (fst (fold_left (report_family name descs) (seq 0 i) (param, fpout, fhttp))).

(** The tree and the rates of the family [i] when the report prints it. *)
Definition report_tree (param : CafeParam) (i : nat) : CafeTree :=
  let pitem := family_item (pfamily param) i in
  pcafe (cafe_shell_set_lambdas
           (set_pcafe param (cafe_family_set_size (pfamily param) pitem (pcafe param)))
           (deref (lambda pitem))).

(** The fields of the session that the objectives and the per-family
    search only read. *)
Definition session_settings (p : CafeParam) :=
  (prior_rfsize p, input_parameters p, num_params p, num_mus p,
   parameterized_k_value p, k_weights p, p_z_membership p, fixcluster0 p,
   checkconv p, quiet p).

(** What identifies a family and its data: all but its rates. *)
Definition item_data (pitem : CafeFamilyItem) : string * Z * list Z * Z :=
  (id pitem, ref pitem, count pitem, maxlh pitem).

(** What an evaluation of the posterior objective may do to the family
    [j]: fill in the root size it has not cached yet, and this only for a
    family that does not refer to another one. *)
Definition caches_root_size (j : nat) (pitem pitem' : CafeFamilyItem) : Prop :=
  id pitem' = id pitem /\ ref pitem' = ref pitem /\ count pitem' = count pitem
  /\ lambda pitem' = lambda pitem /\ mu pitem' = mu pitem
  /\ (maxlh pitem' = maxlh pitem \/ ((maxlh pitem < 0)%Z /\ own_family pitem j = true)).

(** The two lines an evaluation of the posterior objective logs. *)
Definition score_lines (n : Z) (plambda : list float) (score : float) : list LogLine :=
  [("Lambda : %s & Score: %f\n"%string, [AJoin "," n plambda; ADouble score]);
   ("."%string, [])].

End Command.

(** A small instance of [CommandCollaborators]: the rate structure is
    accepted when it is not empty and has two rates; every word of a rate
    list reads as 0.25; the conversions read decimal numerals, the word
    [0.5] and the range [0:0.5:1]; the number of parameters is valid when
    it is the number of values the options gave. *)
#[local] Instance ref_command : CommandCollaborators :=
  {| __cafe_cmd_lambda_tree := fun param arg1 _ =>
       if String.eqb arg1 EmptyString then ((-1)%Z, param, None)
       else (0%Z, set_num_lambdas param 2, Some 1%Z);
     phylogeny_string := fun _ => "(1,2)"%string;
     get_doubles_array := fun _ parg => repeat 0.25%float (List.length (argv parg));
     sscanf_d := fun s k =>
       match NilZero.uint_of_string s with
       | Some u => Z.of_N (N.of_uint u)
       | None => k
       end;
     sscanf_lf := fun s v => if String.eqb s "0.5" then 0.5%float else v;
     sscanf_range := fun s r =>
       if String.eqb s "0:0.5:1" then mk_lambda_range 0 0.5 1 else r;
     input_values_construct := fun _ n => repeat 0%float (Z.to_nat n);
     input_values_set_lambdas := fun v l n => copy_prefix n l v;
     input_values_set_k_weights := fun v _ _ _ => v;
     get_num_params := lambda_args.num_params;
     validate_parameter_count := fun a n =>
       if (n =? lambda_args.num_params a)%Z then Ok tt
       else Throw "The number of parameters was not correct" |}.

(** The options as the command starts with them. *)
Definition ref_args : lambda_args.t :=
  lambda_args.mk false false false 0 None [] 0 UNDEFINED_LAMBDA [] 0 0%float [] false false
    EmptyString EmptyString.

(** ** What the theorems assume, and the words of the specification *)

(** The largest [int]. *)
Definition INT_MAX : Z := 2147483647.

(** The sizes of a grid and the number of its points are [int] variables
    of the program ([size[i]], [pgm->num_elements] and the loop counters
    of [cafe_lambda_distribution] and [write_lambda_distribution]); the
    conversion of a [double] that does not fit is undefined in C.
    [grid_size] and the products of the model are the program's values
    where they fit: every size at least 1, the number of points at most
    [INT_MAX]. *)
Definition scan_fits_int (range : list lambda_range) : bool :=
  (forallb (fun r => (1 <=? grid_size r)%Z) range
   && (fold_right Z.mul 1%Z (map grid_size range) <=? INT_MAX)%Z)%bool.

(** libm's [round], the rounding the specification names: the nearest
    integral value, halves away from zero. *)
Definition round (x : float) : float :=
  match Prim2SF x with
  | S754_finite s m e =>
      if (0 <=? e)%Z then x
      else
        let d := (2 ^ (- e))%Z in
        let q := (Zpos m / d)%Z in
        let r := (Zpos m mod d)%Z in
        let n := if (2 * r <? d)%Z then q else (q + 1)%Z in
        if s then (- int_to_double n)%float else int_to_double n
  | _ => x
  end.

(** The number of grid points of a dimension in the words of the
    specification: [1 + round((end - start) / step)]. *)
Definition rounded_grid_size (r : lambda_range) : Z :=
  double_to_int (1 + round ((range_end r - range_start r) / range_step r))%float.

(** [n] is the integer nearest to [m * 2 ^ e], the even one of the two
    when two integers are equally near. *)
Definition nearest_integer_ties_even (m : positive) (e : Z) (n : Z) : Prop :=
  if (0 <=? e)%Z then n = (Zpos m * 2 ^ e)%Z
  else
    (2 * Z.abs (Zpos m - n * 2 ^ (- e)) <= 2 ^ (- e))%Z
    /\ ((2 * Z.abs (Zpos m - n * 2 ^ (- e)) = 2 ^ (- e))%Z -> Z.even n = true).

(** The counts of a family over all its species, on the tree or not. *)
Definition species_counts (pf : CafeFamily) (pitem : CafeFamilyItem) : list Z :=
  map (fun i => nth i (count pitem) 0%Z) (seq 0 (Z.to_nat (num_species pf))).

(** The data of the Poisson fit read over all families and all species:
    every positive count, shifted by -1. *)
Definition shifted_positive_species_counts (pf : CafeFamily) : list Z :=
  flat_map
    (fun pitem => map (fun c => (c - 1)%Z) (filter (fun c => (0 <? c)%Z) (species_counts pf pitem)))
    (flist pf).

Section Assumptions.

Context {ext : Collaborators}.

(** The handle [find_poisson_lambda] creates. *)
Definition poisson_fit_handle : FMinSearch :=
  set_tol (fminsearch_new_with_eq 1) 1e-6%float 1e-6%float.

(** The evaluations the optimizer makes for the Poisson fit from the seed
    [u]: the rates it probed, each with the value the objective took. *)
Definition poisson_fit_evals (leaf_sizes : list Z) (u : float) : list (list float * float) :=
  snd (fmin_evals (fun x (_ : unit) => (tt, __lnLPoisson x leaf_sizes))
         poisson_fit_handle [u] fmin_maxeval [] tt).

(** The objective of the whole-data search: the mixture objective for
    [k > 0], else the posterior objective. *)
Definition search_objective (k : Z) : list float -> CafeParam -> CafeParam * float :=
  if (0 <? k)%Z then __cafe_cluster_lambda_search else __cafe_best_lambda_search.

(** The optimizer reports as its best value one the objective took at a
    point it has evaluated. *)
Definition reports_seen_value : Prop :=
  forall pfm X0 seen,
    seen <> [] -> In (snd (fst (fmin_report pfm X0 seen))) (map snd seen).

(** The optimizer evaluates the objective at least once. *)
Definition evaluates_once : Prop :=
  0 < fmin_maxeval /\ forall pfm X0, fmin_next pfm X0 [] <> None.

(** The per-family search when its loop reaches the family [i]. *)
Definition each_state_at (param : CafeParam) (lambda_len : Z) (i : nat) : each_state :=
  let start := (0.5 / max_branch_length (pcafe param))%float in
  let p1 := set_num_lambdas
              (set_param_lambda param (Some (repeat start (Z.to_nat lambda_len))))
              lambda_len in
  let pfm := set_tol (fminsearch_new_with_eq lambda_len) 1e-6%float 1e-6%float in
  let fsize := Z.of_nat (List.length (flist (pfamily p1))) in
  fold_left (each_step lambda_len fsize) (seq 0 i) (mk_each_state p1 pfm []).

(** The session on which [each_fit] runs the optimizer for the family [i]:
    the family's sizes and range set, its name logged. *)
Definition each_fit_session (st : each_state) (i : nat) : CafeParam :=
  let param := es_param st in
  let p1 := set_pcafe param
              (cafe_family_set_size_with_family_forced (pfamily param) (Z.of_nat i)
                 (pcafe param)) in
  let r := range (pcafe p1) in
  let p2 := set_family_size p1
              (mk_family_size_range (min r) (max r) (root_min r) (root_max r)) in
  cafe_log p2 "%s:\n" [AStr (id (family_item (pfamily param) i))].

(** The call [fminsearch_min(pfm, param->lambda)] of [each_fit] for the
    family [i]. *)
Definition each_fit_call (st : each_state) (i : nat) : CafeParam * FMinSearch :=
  let p3 := each_fit_session st i in
  fminsearch_min __cafe_each_best_lambda_search (es_pfm st) (deref (param_lambda p3)) p3.

End Assumptions.

(** * Properties *)

(** ** Facts on floats, lists and strings *)

Lemma SFopp_involutive (x : spec_float) : SFopp (SFopp x) = x.
Proof.
  destruct x as [s|s| |s m e]; simpl; try rewrite negb_involutive; reflexivity.
Qed.

Lemma float_opp_involutive (x : float) : (- - x)%float = x.
Proof.
  apply Prim2SF_inj. rewrite !FloatAxioms.opp_spec. apply SFopp_involutive.
Qed.

Lemma SFmul_comm (p e : Z) (x y : spec_float) : SFmul p e x y = SFmul p e y x.
Proof.
  destruct x as [sx|sx| |sx mx ex], y as [sy|sy| |sy my ey]; simpl;
    try rewrite (xorb_comm sx sy); try reflexivity.
  rewrite (Pos.mul_comm mx my), (Z.add_comm ex ey). reflexivity.
Qed.

Lemma float_mul_comm (x y : float) : (x * y)%float = (y * x)%float.
Proof.
  apply Prim2SF_inj. rewrite !FloatAxioms.mul_spec. apply SFmul_comm.
Qed.

Lemma is_finite_SF (c : float) :
  is_finite c = true ->
  (exists s, Prim2SF c = S754_zero s) \/ (exists s m e, Prim2SF c = S754_finite s m e).
Proof.
  unfold is_finite, is_nan, is_infinity.
  rewrite !FloatAxioms.eqb_spec, FloatAxioms.abs_spec.
  destruct (Prim2SF c) as [s|s| |s m e]; simpl; intros H.
  - left; eauto.
  - destruct s; discriminate.
  - discriminate.
  - right; eauto.
Qed.

Lemma sub_diag_finite (c : float) :
  is_finite c = true -> exists s, Prim2SF (c - c)%float = S754_zero s.
Proof.
  intros H. rewrite FloatAxioms.sub_spec.
  destruct (is_finite_SF c H) as [[s E]|[s [m [e E]]]]; rewrite E.
  - destruct s; simpl; eauto.
  - unfold SF64sub, SFsub. cbv zeta. rewrite Z.sub_diag. simpl. eauto.
Qed.

Lemma abs_sub_diag_lt (c tol : float) :
  is_finite c = true -> (0 <? tol)%float = true -> (abs (c - c) <? tol)%float = true.
Proof.
  intros H Ht. destruct (sub_diag_finite c H) as [s E].
  rewrite FloatAxioms.ltb_spec in *. rewrite FloatAxioms.abs_spec, E. simpl.
  change (Prim2SF 0) with (S754_zero false) in Ht. exact Ht.
Qed.

Lemma nan_to_zero_not_nan (ll : float) : is_nan (nan_to_zero ll) = false.
Proof.
  unfold nan_to_zero. destruct (is_nan ll) eqn:E; [reflexivity | exact E].
Qed.

Lemma length_set_nth {A : Type} (i : nat) (x : A) (l : list A) :
  List.length (set_nth i x l) = List.length l.
Proof.
  revert i; induction l as [|a l IH]; intros [|i]; simpl; auto.
Qed.

Lemma nth_set_nth_eq {A : Type} (i : nat) (x d : A) (l : list A) :
  i < List.length l -> nth i (set_nth i x l) d = x.
Proof.
  revert i; induction l as [|a l IH]; intros [|i] H; simpl in *; try lia; auto.
  apply IH; lia.
Qed.

Lemma nth_set_nth_neq {A : Type} (i j : nat) (x d : A) (l : list A) :
  i <> j -> nth j (set_nth i x l) d = nth j l d.
Proof.
  revert i j; induction l as [|a l IH]; intros [|i] [|j] H; simpl; auto; try lia.
Qed.



Lemma string_append_assoc (a b c : string) : ((a ++ b) ++ c = a ++ b ++ c)%string.
Proof.
  induction a as [|x a IH]; cbn; [reflexivity|]. now rewrite IH.
Qed.

(** Every point of the cartesian product has an index. *)
Lemma dim_index_onto (size idx : list Z) :
  Forall2 (fun i s => (0 <= i < s)%Z) idx size ->
  exists j, (0 <= j < fold_right Z.mul 1 size)%Z /\ dim_index size j = idx.
Proof.
  induction 1 as [|i s idx size Hi _ IH].
  - exists 0%Z. cbn. split; [lia|reflexivity].
  - destruct IH as [j [Hj E]]. set (m := fold_right Z.mul 1%Z size) in *.
    exists (i * m + j)%Z. cbn [fold_right dim_index]. fold m. split; [nia|].
    assert (Hd : ((i * m + j) / m = i)%Z).
    { rewrite Z.div_add_l by lia. rewrite Z.div_small by lia. lia. }
    assert (Hm : ((i * m + j) mod m = j)%Z).
    { rewrite Z.add_comm, Z.mod_add by lia. apply Z.mod_small. lia. }
    now rewrite Hd, Hm, E.
Qed.

Lemma nth_map_seq {A : Type} (f : nat -> A) (n k : nat) (d : A) :
  k < n -> nth k (map f (seq 0 n)) d = f k.
Proof.
  intros Hk. rewrite nth_indep with (d' := f 0) by (rewrite length_map, length_seq; exact Hk).
  rewrite map_nth, seq_nth by exact Hk. reflexivity.
Qed.

(** ** Facts on the order and the sum of floats *)

Lemma Prim2SF_zero : Prim2SF 0%float = S754_zero false.
Proof. reflexivity. Qed.

Lemma Prim2SF_neg_infinity : Prim2SF neg_infinity = S754_infinity true.
Proof. reflexivity. Qed.

(** [x <= 0] says that [x] is a zero, a negative number or minus
    infinity. *)
Lemma leb_zero_SF (x : float) :
  (x <=? 0)%float = true ->
  (exists s, Prim2SF x = S754_zero s) \/ (exists m e, Prim2SF x = S754_finite true m e)
  \/ Prim2SF x = S754_infinity true.
Proof.
  rewrite FloatAxioms.leb_spec, Prim2SF_zero.
  destruct (Prim2SF x) as [s|s| |s m e]; cbn; try discriminate.
  - intros _. left. eauto.
  - destruct s; [intros _; right; right; reflexivity|discriminate].
  - destruct s; [intros _; right; left; eauto|discriminate].
Qed.

Lemma SF_leb_zero (x : float) :
  (exists s, Prim2SF x = S754_zero s) \/ (exists m e, Prim2SF x = S754_finite true m e)
  \/ Prim2SF x = S754_infinity true ->
  (x <=? 0)%float = true.
Proof.
  rewrite FloatAxioms.leb_spec, Prim2SF_zero.
  intros [[s E]|[[m [e E]]|E]]; rewrite E; reflexivity.
Qed.

Lemma shr_1_nonneg (mrs : shr_record) :
  (0 <= shr_m mrs)%Z -> (0 <= shr_m (shr_1 mrs))%Z.
Proof.
  destruct mrs as [m r s]. cbn [shr_m]. intros H.
  destruct m as [|p|p]; [cbn; lia| |lia].
  destruct p; cbn; lia.
Qed.

Lemma iter_pos_shr_1_nonneg (p : positive) :
  forall mrs, (0 <= shr_m mrs)%Z -> (0 <= shr_m (iter_pos shr_1 p mrs))%Z.
Proof.
  induction p as [p IH|p IH|]; intros mrs H; cbn [iter_pos].
  - apply IH, IH, shr_1_nonneg, H.
  - apply IH, IH, H.
  - apply shr_1_nonneg, H.
Qed.

Lemma shr_fexp_nonneg (prec emax m e : Z) (l : location) :
  (0 <= m)%Z -> (0 <= shr_m (fst (shr_fexp prec emax m e l)))%Z.
Proof.
  intros H. unfold shr_fexp, shr.
  assert (H0 : (0 <= shr_m (shr_record_of_loc m l))%Z).
  { destruct l as [|[]]; exact H. }
  destruct (fexp prec emax (Zdigits2 m + e) - e)%Z; cbn [fst]; try exact H0.
  apply iter_pos_shr_1_nonneg, H0.
Qed.

Lemma round_nearest_even_nonneg (m : Z) (l : location) :
  (0 <= m)%Z -> (0 <= round_nearest_even m l)%Z.
Proof.
  intros H. destruct l as [|[]]; cbn; try lia. destruct (Z.even m); lia.
Qed.

Lemma binary_round_aux_sign (prec emax : Z) (sx : bool) (mx ex : Z) (lx : location) :
  (0 <= mx)%Z ->
  let r := binary_round_aux prec emax sx mx ex lx in
  r = S754_zero sx \/ (exists m e, r = S754_finite sx m e) \/ r = S754_infinity sx.
Proof.
  intros H. cbv zeta. unfold binary_round_aux.
  pose proof (shr_fexp_nonneg prec emax mx ex lx H) as H1.
  destruct (shr_fexp prec emax mx ex lx) as [mrs' e']. cbn [fst] in H1.
  pose proof (shr_fexp_nonneg prec emax
                (round_nearest_even (shr_m mrs') (loc_of_shr_record mrs')) e' loc_Exact
                (round_nearest_even_nonneg _ _ H1)) as H2.
  destruct (shr_fexp prec emax _ e' loc_Exact) as [mrs'' e'']. cbn [fst] in H2.
  destruct (shr_m mrs'') as [|m|m]; [now left| |lia].
  destruct (e'' <=? emax - prec)%Z; [right; left; eauto|right; right; reflexivity].
Qed.

(** The sum of two numbers that are not positive is not positive: it is
    neither NaN nor plus infinity. *)
Lemma add_nonpos (x y : float) :
  (x <=? 0)%float = true -> (y <=? 0)%float = true -> (x + y <=? 0)%float = true.
Proof.
  intros Hx Hy. apply SF_leb_zero. rewrite FloatAxioms.add_spec. unfold SF64add.
  destruct (leb_zero_SF x Hx) as [[sx Ex]|[[mx [ex Ex]]|Ex]];
    destruct (leb_zero_SF y Hy) as [[sy Ey]|[[my [ey Ey]]|Ey]];
    rewrite Ex, Ey; cbn [SFadd]; eauto.
  - left. destruct sx, sy; eauto.
  - cbn [cond_Zopp]. cbn [Z.opp Z.add]. cbn [binary_normalize]. unfold binary_round.
    destruct (shl_align _ _ _) as [mz ez].
    destruct (binary_round_aux_sign prec emax true (Zpos mz) ez loc_Exact ltac:(lia))
      as [E|[[m [e E]]|E]]; rewrite E; eauto.
Qed.

Lemma add_neg_infinity_l (y : float) :
  (y <=? 0)%float = true -> (neg_infinity + y)%float = neg_infinity.
Proof.
  intros Hy. apply Prim2SF_inj. rewrite FloatAxioms.add_spec, Prim2SF_neg_infinity.
  unfold SF64add.
  destruct (leb_zero_SF y Hy) as [[sy Ey]|[[my [ey Ey]]|Ey]]; rewrite Ey; reflexivity.
Qed.

Lemma add_neg_infinity_r (x : float) :
  (x <=? 0)%float = true -> (x + neg_infinity)%float = neg_infinity.
Proof.
  intros Hx. apply Prim2SF_inj. rewrite FloatAxioms.add_spec, Prim2SF_neg_infinity.
  unfold SF64add.
  destruct (leb_zero_SF x Hx) as [[sx Ex]|[[mx [ex Ex]]|Ex]]; rewrite Ex; reflexivity.
Qed.

(** A sum of terms none of which is positive, one of them minus infinity,
    is minus infinity. *)
Lemma sum_with_neg_infinity (ts : list float) :
  forall s : float,
    (s <=? 0)%float = true ->
    forallb (fun t => (t <=? 0)%float) ts = true ->
    In neg_infinity ts ->
    fold_left (fun s t => (s + t)%float) ts s = neg_infinity.
Proof.
  assert (Hstay : forall ts,
             forallb (fun t => (t <=? 0)%float) ts = true ->
             fold_left (fun s t => (s + t)%float) ts neg_infinity = neg_infinity).
  { induction ts0 as [|t ts0 IH]; cbn [fold_left forallb]; [reflexivity|].
    intros H. apply andb_prop in H. destruct H as [Ht Hts].
    rewrite add_neg_infinity_l by exact Ht. apply IH, Hts. }
  induction ts as [|t ts IH]; intros s Hs Hall Hin; [contradiction|].
  cbn [fold_left forallb] in *. apply andb_prop in Hall. destruct Hall as [Ht Hts].
  destruct Hin as [->|Hin].
  - rewrite add_neg_infinity_r by exact Hs. apply Hstay, Hts.
  - apply IH; [apply add_nonpos; assumption|exact Hts|exact Hin].
Qed.

Lemma eqb_zero_SF (x : float) :
  (x =? 0)%float = true -> exists s, Prim2SF x = S754_zero s.
Proof.
  rewrite FloatAxioms.eqb_spec, Prim2SF_zero.
  destruct (Prim2SF x) as [s|[]| |[] m e]; cbn; try discriminate; eauto.
Qed.

(** Among numbers that are not negative, nothing is above a zero but what
    is not a zero. *)
Lemma ltb_from_nonneg_to_zero (b x : float) :
  (0 <=? b)%float = true -> (x =? 0)%float = true -> (b <? x)%float = false.
Proof.
  intros Hb Hx. destruct (eqb_zero_SF x Hx) as [s Ex].
  rewrite FloatAxioms.leb_spec, Prim2SF_zero in Hb.
  rewrite FloatAxioms.ltb_spec, Ex.
  destruct (Prim2SF b) as [sb|sb| |sb mb eb]; cbn in *; try reflexivity; try discriminate.
  - destruct sb; [discriminate|reflexivity].
  - destruct sb; [discriminate|reflexivity].
Qed.

Lemma nonneg_not_above_zero (b x : float) :
  (b =? 0)%float = true -> (0 <=? x)%float = true -> (b <? x)%float = false ->
  (x =? 0)%float = true.
Proof.
  intros Hb Hx Hlt. destruct (eqb_zero_SF b Hb) as [s Eb].
  rewrite FloatAxioms.leb_spec, Prim2SF_zero in Hx.
  rewrite FloatAxioms.ltb_spec, Eb in Hlt.
  rewrite FloatAxioms.eqb_spec, Prim2SF_zero.
  destruct (Prim2SF x) as [sx|sx| |sx mx ex]; cbn in *; try reflexivity; try discriminate.
  - destruct sx; discriminate.
  - destruct sx; discriminate.
Qed.

Lemma max_element_from_zero (l : list float) :
  forall best : float,
    (0 <=? best)%float = true ->
    forallb (fun x => (0 <=? x)%float) l = true ->
    (max_element_from best l =? 0)%float = true ->
    (best =? 0)%float = true /\ forallb (fun x => (x =? 0)%float) l = true.
Proof.
  induction l as [|x l IH]; intros best Hb Hl Hmax; cbn [max_element_from forallb] in *.
  - split; [exact Hmax|reflexivity].
  - apply andb_prop in Hl. destruct Hl as [Hx Hl].
    destruct (best <? x)%float eqn:Elt.
    + destruct (IH x Hx Hl Hmax) as [Hx0 Hl0].
      rewrite (ltb_from_nonneg_to_zero best x Hb Hx0) in Elt. discriminate.
    + destruct (IH best Hb Hl Hmax) as [Hb0 Hl0].
      split; [exact Hb0|]. rewrite Hl0, andb_true_r.
      exact (nonneg_not_above_zero best x Hb0 Hx Elt).
Qed.

(** When no value is negative and the largest is a zero, every value is a
    zero. *)
Lemma max_element_zero (l : list float) :
  forallb (fun x => (0 <=? x)%float) l = true ->
  (max_element l =? 0)%float = true ->
  forallb (fun x => (x =? 0)%float) l = true.
Proof.
  destruct l as [|x l]; [reflexivity|]. cbn [max_element forallb].
  intros H Hmax. apply andb_prop in H. destruct H as [Hx Hl].
  destruct (max_element_from_zero l x Hx Hl Hmax) as [H1 H2]. now rewrite H1, H2.
Qed.

Lemma max_element_zeros (n : nat) : max_element (repeat 0%float n) = 0%float.
Proof.
  destruct n as [|n]; [reflexivity|]. cbn [repeat max_element].
  induction n as [|n IH]; [reflexivity|]. cbn [repeat max_element_from].
  change (0 <? 0)%float with false. exact IH.
Qed.

Lemma forallb_firstn {A : Type} (f : A -> bool) (n : nat) (l : list A) :
  forallb f l = true -> forallb f (firstn n l) = true.
Proof.
  revert n. induction l as [|x l IH]; intros [|n]; cbn; auto.
  intros H. apply andb_prop in H. destruct H as [Hx Hl]. now rewrite Hx, IH.
Qed.

(** ** Facts on the conversion of integers to floats *)

Lemma digits2_pos_bounds (p : positive) :
  (2 ^ (Zpos (digits2_pos p) - 1) <= Zpos p < 2 ^ Zpos (digits2_pos p))%Z.
Proof.
  induction p as [p IH|p IH|]; cbn [digits2_pos]; [| |cbn; lia];
    rewrite Pos2Z.inj_succ;
    replace (Z.succ (Zpos (digits2_pos p)) - 1)%Z with (Zpos (digits2_pos p)) by lia;
    rewrite Z.pow_succ_r by lia;
    assert (E : (2 ^ Zpos (digits2_pos p) = 2 * 2 ^ (Zpos (digits2_pos p) - 1))%Z)
      by (rewrite <- Z.pow_succ_r by lia; f_equal; lia);
    [rewrite (Pos2Z.inj_xI p)|rewrite (Pos2Z.inj_xO p)]; lia.
Qed.

Lemma digits2_pos_unique (p : positive) (d : Z) :
  (2 ^ (d - 1) <= Zpos p < 2 ^ d)%Z -> (0 < d)%Z -> Zpos (digits2_pos p) = d.
Proof.
  intros [Hlo Hhi] Hd. pose proof (digits2_pos_bounds p) as [Blo Bhi].
  destruct (Z.lt_trichotomy (Zpos (digits2_pos p)) d) as [H|[H|H]]; [|exact H|].
  - assert (2 ^ Zpos (digits2_pos p) <= 2 ^ (d - 1))%Z by (apply Z.pow_le_mono_r; lia).
    lia.
  - assert (2 ^ d <= 2 ^ (Zpos (digits2_pos p) - 1))%Z by (apply Z.pow_le_mono_r; lia).
    lia.
Qed.

(** The number of digits of [z * 2 ^ k]. *)
Lemma digits2_pos_shift (M z : positive) (k : Z) :
  (0 <= k)%Z -> Zpos M = (Zpos z * 2 ^ k)%Z ->
  Zpos (digits2_pos M) = (Zpos (digits2_pos z) + k)%Z.
Proof.
  intros Hk HM. pose proof (digits2_pos_bounds z) as [Blo Bhi].
  assert (Hp : (0 < 2 ^ k)%Z) by (apply Z.pow_pos_nonneg; lia).
  apply digits2_pos_unique; [|lia]. rewrite HM.
  replace (Zpos (digits2_pos z) + k - 1)%Z with (Zpos (digits2_pos z) - 1 + k)%Z by lia.
  rewrite !Z.pow_add_r by lia. split; nia.
Qed.

Lemma pos_iter_xO (m d : positive) :
  Zpos (Pos.iter xO m d) = (Zpos m * 2 ^ Zpos d)%Z.
Proof.
  induction d as [|d IH] using Pos.peano_ind.
  - cbn [Pos.iter]. rewrite (Pos2Z.inj_xO m). change (2 ^ 1)%Z with 2%Z. lia.
  - rewrite Pos.iter_succ, (Pos2Z.inj_xO (Pos.iter xO m d)), IH, Pos2Z.inj_succ,
      Z.pow_succ_r by lia. lia.
Qed.

Lemma shr_1_even (m : Z) :
  (0 <= m)%Z ->
  shr_1 {| shr_m := 2 * m; shr_r := false; shr_s := false |}
  = {| shr_m := m; shr_r := false; shr_s := false |}.
Proof. destruct m; [reflexivity|reflexivity|lia]. Qed.

(** Shifting out zeros is exact. *)
Lemma iter_pos_shr_1_exact (p : positive) :
  forall m : Z,
    (0 <= m)%Z ->
    iter_pos shr_1 p {| shr_m := m * 2 ^ Zpos p; shr_r := false; shr_s := false |}
    = {| shr_m := m; shr_r := false; shr_s := false |}.
Proof.
  induction p as [p IH|p IH|]; intros m Hm; cbn [iter_pos].
  - assert (Hp : (0 < 2 ^ Zpos p)%Z) by (apply Z.pow_pos_nonneg; lia).
    replace (m * 2 ^ Zpos p~1)%Z with (2 * ((m * 2 ^ Zpos p) * 2 ^ Zpos p))%Z.
    + rewrite shr_1_even by nia. rewrite IH by nia. apply IH, Hm.
    + replace (Zpos p~1) with (1 + Zpos p + Zpos p)%Z by lia.
      rewrite !Z.pow_add_r by lia. change (2 ^ 1)%Z with 2%Z. ring.
  - assert (Hp : (0 < 2 ^ Zpos p)%Z) by (apply Z.pow_pos_nonneg; lia).
    replace (m * 2 ^ Zpos p~0)%Z with ((m * 2 ^ Zpos p) * 2 ^ Zpos p)%Z.
    + rewrite IH by nia. apply IH, Hm.
    + replace (Zpos p~0) with (Zpos p + Zpos p)%Z by lia.
      rewrite Z.pow_add_r by lia. ring.
  - change (2 ^ 1)%Z with 2%Z. rewrite Z.mul_comm. apply shr_1_even, Hm.
Qed.

(** A mantissa of 53 digits is kept as it is. *)
Lemma shr_fexp_canonical (M : positive) (e : Z) :
  Zpos (digits2_pos M) = 53%Z -> (-1074 <= e)%Z ->
  shr_fexp prec emax (Zpos M) e loc_Exact
  = ({| shr_m := Zpos M; shr_r := false; shr_s := false |}, e).
Proof.
  intros Hd He. unfold shr_fexp, Zdigits2. rewrite Hd.
  replace (fexp prec emax (53 + e) - e)%Z with 0%Z; [reflexivity|].
  unfold fexp, SpecFloat.emin, prec, emax. lia.
Qed.

Lemma binary_round_aux_canonical (sx : bool) (M : positive) (e : Z) :
  Zpos (digits2_pos M) = 53%Z -> (-1074 <= e <= 971)%Z ->
  binary_round_aux prec emax sx (Zpos M) e loc_Exact = S754_finite sx M e.
Proof.
  intros Hd He. unfold binary_round_aux.
  rewrite shr_fexp_canonical by (assumption || lia).
  cbn [shr_m loc_of_shr_record round_nearest_even].
  rewrite shr_fexp_canonical by (assumption || lia). cbn [shr_m].
  replace (e <=? emax - prec)%Z with true; [reflexivity|].
  symmetry. apply Z.leb_le. unfold prec, emax. lia.
Qed.

(** The float of the integer [z], given as [z * 2 ^ k] at the exponent
    [- k]: its mantissa has 53 digits, and nothing is rounded. *)
Lemma binary_round_exact (sx : bool) (M z : positive) (k : Z) :
  (0 <= k)%Z -> Zpos M = (Zpos z * 2 ^ k)%Z -> (Zpos z < 2 ^ 53)%Z ->
  let d := Zpos (digits2_pos z) in
  binary_round prec emax sx M (- k)
  = S754_finite sx (Z.to_pos (Zpos z * 2 ^ (53 - d))) (d - 53).
Proof.
  intros Hk HM Hz d.
  pose proof (digits2_pos_bounds z) as [Blo Bhi]. fold d in Blo, Bhi.
  assert (Hd1 : (1 <= d)%Z) by (subst d; lia).
  assert (Hd53 : (d <= 53)%Z).
  { destruct (Z.le_gt_cases d 53) as [H|H]; [exact H|].
    assert (2 ^ 53 <= 2 ^ (d - 1))%Z by (apply Z.pow_le_mono_r; lia). lia. }
  assert (HdM : Zpos (digits2_pos M) = (d + k)%Z) by (apply digits2_pos_shift; assumption).
  assert (Hpos : (0 < Zpos z * 2 ^ (53 - d))%Z).
  { assert (0 < 2 ^ (53 - d))%Z by (apply Z.pow_pos_nonneg; lia). nia. }
  set (M' := Z.to_pos (Zpos z * 2 ^ (53 - d))).
  assert (HM' : Zpos M' = (Zpos z * 2 ^ (53 - d))%Z) by (subst M'; rewrite Z2Pos.id; lia).
  assert (HdM' : Zpos (digits2_pos M') = 53%Z).
  { rewrite (digits2_pos_shift M' z (53 - d)) by (lia || assumption). fold d. lia. }
  assert (Hfexp : fexp prec emax (Zpos (digits2_pos M) + - k) = (d - 53)%Z).
  { rewrite HdM. unfold fexp, SpecFloat.emin, prec, emax. lia. }
  unfold binary_round. rewrite Hfexp. unfold shl_align.
  destruct (d - 53 - - k)%Z as [|j|j] eqn:J.
  - (* the mantissa has 53 digits already *)
    assert (M = M').
    { apply Pos2Z.inj. rewrite HM, HM'. f_equal. f_equal. lia. }
    subst M. replace (- k)%Z with (d - 53)%Z by lia.
    apply binary_round_aux_canonical; [exact HdM'|lia].
  - (* more than 53 digits: zeros are shifted out *)
    unfold binary_round_aux.
    assert (Hs : shr_fexp prec emax (Zpos M) (- k) loc_Exact
                 = ({| shr_m := Zpos M'; shr_r := false; shr_s := false |}, (d - 53)%Z)).
    { unfold shr_fexp, Zdigits2. rewrite Hfexp, J. cbn [shr_record_of_loc shr].
      f_equal; [|lia].
      replace (Zpos M) with (Zpos M' * 2 ^ Zpos j)%Z.
      - apply iter_pos_shr_1_exact. lia.
      - rewrite HM, HM', <- Z.mul_assoc, <- Z.pow_add_r by lia. f_equal. f_equal. lia. }
    rewrite Hs. cbn [shr_m loc_of_shr_record round_nearest_even].
    rewrite shr_fexp_canonical by (assumption || lia). cbn [shr_m].
    replace (d - 53 <=? emax - prec)%Z with true; [reflexivity|].
    symmetry. apply Z.leb_le. unfold prec, emax. lia.
  - (* fewer than 53 digits: the mantissa is shifted left *)
    assert (Pos.iter xO M j = M').
    { apply Pos2Z.inj. rewrite pos_iter_xO, HM, HM', <- Z.mul_assoc, <- Z.pow_add_r by lia.
      f_equal. f_equal. lia. }
    rewrite H. apply binary_round_aux_canonical; [exact HdM'|lia].
Qed.

(** The conversion of an integer below [2 ^ 53] to a float is exact. *)
Lemma int_to_double_SF (n : Z) :
  (0 < n < 2 ^ 53)%Z ->
  let d := Zpos (digits2_pos (Z.to_pos n)) in
  Prim2SF (int_to_double n) = S754_finite false (Z.to_pos (n * 2 ^ (53 - d))) (d - 53).
Proof.
  intros Hn d. unfold int_to_double.
  destruct (n <? 0)%Z eqn:E; [apply Z.ltb_lt in E; lia|].
  rewrite FloatAxioms.of_uint63_spec, Uint63.of_Z_spec.
  rewrite Z.mod_small by (change wB with (2 ^ 63)%Z; split; [lia|];
                          assert (2 ^ 53 < 2 ^ 63)%Z by reflexivity; lia).
  destruct n as [|p|p]; try lia. cbn [binary_normalize].
  change (binary_round prec emax false p 0)
    with (binary_round prec emax false p (- 0)).
  apply (binary_round_exact false p p 0); [lia|change (2 ^ 0)%Z with 1%Z; lia|apply Hn].
Qed.

Lemma Prim2SF_one : Prim2SF 1%float = S754_finite false 4503599627370496 (-52).
Proof. reflexivity. Qed.

(** Adding 1 to the float of an integer below [2 ^ 53 - 1] is exact, and so
    is the conversion back. *)
Lemma double_to_int_succ (n : Z) :
  (0 <= n < 2 ^ 53 - 1)%Z ->
  double_to_int (1 + int_to_double n)%float = (1 + n)%Z.
Proof.
  intros Hn. destruct (Z.eq_dec n 0) as [->|Hn0]; [reflexivity|].
  assert (Hn' : (0 < n < 2 ^ 53)%Z) by lia.
  pose proof (int_to_double_SF n Hn') as E. cbv zeta in E.
  set (d := Zpos (digits2_pos (Z.to_pos n))) in *.
  pose proof (digits2_pos_bounds (Z.to_pos n)) as [Blo Bhi]. fold d in Blo, Bhi.
  rewrite Z2Pos.id in Blo, Bhi by lia.
  assert (Hd1 : (1 <= d)%Z) by (subst d; lia).
  assert (Hd53 : (d <= 53)%Z).
  { destruct (Z.le_gt_cases d 53) as [H|H]; [exact H|].
    assert (2 ^ 53 <= 2 ^ (d - 1))%Z by (apply Z.pow_le_mono_r; lia). lia. }
  assert (Hpos : (0 < n * 2 ^ (53 - d))%Z).
  { assert (0 < 2 ^ (53 - d))%Z by (apply Z.pow_pos_nonneg; lia). nia. }
  set (m := Z.to_pos (n * 2 ^ (53 - d))) in *.
  assert (Hm : Zpos m = (n * 2 ^ (53 - d))%Z) by (subst m; rewrite Z2Pos.id; lia).
  (* the sum, as a mantissa at the exponent -52 *)
  assert (Hsum : exists M : positive,
             Zpos M = (Zpos (Z.to_pos (1 + n)) * 2 ^ 52)%Z
             /\ Prim2SF (1 + int_to_double n)%float = binary_round prec emax false M (- 52)).
  { exists (Z.to_pos ((1 + n) * 2 ^ 52)).
    split; [rewrite !Z2Pos.id by lia; reflexivity|].
    rewrite FloatAxioms.add_spec, Prim2SF_one, E. unfold SF64add, SFadd.
    replace (Z.min (-52) (d - 53)) with (-52)%Z by lia.
    assert (Hy : Zpos (fst (shl_align m (d - 53) (-52))) = (n * 2 ^ 52)%Z).
    { unfold shl_align. destruct (-52 - (d - 53))%Z as [|j|j] eqn:J; cbn [fst].
      - rewrite Hm. f_equal. f_equal. lia.
      - lia.
      - rewrite pos_iter_xO, Hm, <- Z.mul_assoc, <- Z.pow_add_r by lia.
        f_equal. f_equal. lia. }
    change (fst (shl_align 4503599627370496 (-52) (-52))) with 4503599627370496%positive.
    cbn [cond_Zopp]. rewrite Hy.
    replace (4503599627370496 + n * 2 ^ 52)%Z with (Zpos (Z.to_pos ((1 + n) * 2 ^ 52))).
    - reflexivity.
    - rewrite Z2Pos.id by lia. change (2 ^ 52)%Z with 4503599627370496%Z. lia. }
  destruct Hsum as [M [HM Hsum]].
  assert (Hz : (Zpos (Z.to_pos (1 + n)) < 2 ^ 53)%Z) by (rewrite Z2Pos.id; lia).
  pose proof (binary_round_exact false M (Z.to_pos (1 + n)) 52 ltac:(lia) HM Hz) as R.
  cbv zeta in R. change (Z.opp 52) with (-52)%Z in R.
  set (d' := Zpos (digits2_pos (Z.to_pos (1 + n)))) in *.
  pose proof (digits2_pos_bounds (Z.to_pos (1 + n))) as [Clo Chi]. fold d' in Clo, Chi.
  rewrite Z2Pos.id in Clo, Chi, R by lia.
  assert (Hd'1 : (1 <= d')%Z) by (subst d'; lia).
  assert (Hd'53 : (d' <= 53)%Z).
  { destruct (Z.le_gt_cases d' 53) as [H|H]; [exact H|].
    assert (2 ^ 53 <= 2 ^ (d' - 1))%Z by (apply Z.pow_le_mono_r; lia). lia. }
  assert (Hp' : (0 < 2 ^ (53 - d'))%Z) by (apply Z.pow_pos_nonneg; lia).
  unfold double_to_int. rewrite Hsum, R. rewrite Z2Pos.id by nia.
  destruct (0 <=? d' - 53)%Z eqn:L.
  - apply Z.leb_le in L. replace (d' - 53)%Z with 0%Z by lia.
    replace (53 - d')%Z with 0%Z by lia. change (2 ^ 0)%Z with 1%Z. lia.
  - replace (- (d' - 53))%Z with (53 - d')%Z by lia.
    rewrite Z.div_mul by lia. reflexivity.
Qed.

(** Subtracting the float of an integer below [2 ^ 53] from 1 is exact,
    and so is the conversion back. *)
Lemma double_to_int_pred (n : Z) :
  (0 <= n < 2 ^ 53)%Z ->
  double_to_int (1 + - int_to_double n)%float = (1 - n)%Z.
Proof.
  intros Hn. destruct (Z.eq_dec n 0) as [->|Hn0]; [reflexivity|].
  destruct (Z.eq_dec n 1) as [->|Hn1]; [reflexivity|].
  assert (Hn' : (0 < n < 2 ^ 53)%Z) by lia.
  pose proof (int_to_double_SF n Hn') as E. cbv zeta in E.
  set (d := Zpos (digits2_pos (Z.to_pos n))) in *.
  pose proof (digits2_pos_bounds (Z.to_pos n)) as [Blo Bhi]. fold d in Blo, Bhi.
  rewrite Z2Pos.id in Blo, Bhi by lia.
  assert (Hd1 : (1 <= d)%Z) by (subst d; lia).
  assert (Hd53 : (d <= 53)%Z).
  { destruct (Z.le_gt_cases d 53) as [H|H]; [exact H|].
    assert (2 ^ 53 <= 2 ^ (d - 1))%Z by (apply Z.pow_le_mono_r; lia). lia. }
  assert (Hpos : (0 < n * 2 ^ (53 - d))%Z).
  { assert (0 < 2 ^ (53 - d))%Z by (apply Z.pow_pos_nonneg; lia). nia. }
  set (m := Z.to_pos (n * 2 ^ (53 - d))) in *.
  assert (Hm : Zpos m = (n * 2 ^ (53 - d))%Z) by (subst m; rewrite Z2Pos.id; lia).
  (* the difference, as a mantissa at the exponent -52 *)
  assert (Hsum : exists M : positive,
             Zpos M = (Zpos (Z.to_pos (n - 1)) * 2 ^ 52)%Z
             /\ Prim2SF (1 + - int_to_double n)%float
                = binary_round prec emax true M (- 52)).
  { exists (Z.to_pos ((n - 1) * 2 ^ 52)).
    split; [rewrite !Z2Pos.id by lia; reflexivity|].
    rewrite FloatAxioms.add_spec, FloatAxioms.opp_spec, Prim2SF_one, E.
    unfold SFopp, SF64add, SFadd. cbn [negb].
    replace (Z.min (-52) (d - 53)) with (-52)%Z by lia.
    assert (Hy : Zpos (fst (shl_align m (d - 53) (-52))) = (n * 2 ^ 52)%Z).
    { unfold shl_align. destruct (-52 - (d - 53))%Z as [|j|j] eqn:J; cbn [fst].
      - rewrite Hm. f_equal. f_equal. lia.
      - lia.
      - rewrite pos_iter_xO, Hm, <- Z.mul_assoc, <- Z.pow_add_r by lia.
        f_equal. f_equal. lia. }
    change (fst (shl_align 4503599627370496 (-52) (-52))) with 4503599627370496%positive.
    cbn [cond_Zopp]. rewrite Hy.
    replace (4503599627370496 + - (n * 2 ^ 52))%Z
      with (Zneg (Z.to_pos ((n - 1) * 2 ^ 52))).
    - reflexivity.
    - rewrite <- Pos2Z.opp_pos, Z2Pos.id by lia.
      change (2 ^ 52)%Z with 4503599627370496%Z. lia. }
  destruct Hsum as [M [HM Hsum]].
  assert (Hz : (Zpos (Z.to_pos (n - 1)) < 2 ^ 53)%Z) by (rewrite Z2Pos.id; lia).
  pose proof (binary_round_exact true M (Z.to_pos (n - 1)) 52 ltac:(lia) HM Hz) as R.
  cbv zeta in R. change (Z.opp 52) with (-52)%Z in R.
  set (d' := Zpos (digits2_pos (Z.to_pos (n - 1)))) in *.
  pose proof (digits2_pos_bounds (Z.to_pos (n - 1))) as [Clo Chi]. fold d' in Clo, Chi.
  rewrite Z2Pos.id in Clo, Chi, R by lia.
  assert (Hd'1 : (1 <= d')%Z) by (subst d'; lia).
  assert (Hd'53 : (d' <= 53)%Z).
  { destruct (Z.le_gt_cases d' 53) as [H|H]; [exact H|].
    assert (2 ^ 53 <= 2 ^ (d' - 1))%Z by (apply Z.pow_le_mono_r; lia). lia. }
  assert (Hp' : (0 < 2 ^ (53 - d'))%Z) by (apply Z.pow_pos_nonneg; lia).
  unfold double_to_int. rewrite Hsum, R. rewrite Z2Pos.id by nia.
  destruct (0 <=? d' - 53)%Z eqn:L.
  - apply Z.leb_le in L. replace (d' - 53)%Z with 0%Z by lia.
    replace (53 - d')%Z with 0%Z by lia. change (2 ^ 0)%Z with 1%Z. lia.
  - replace (- (d' - 53))%Z with (53 - d')%Z by lia.
    rewrite Z.div_mul by lia. lia.
Qed.

(** The nearest integer, ties to even, is unique. *)
Lemma nearest_integer_ties_even_unique (m : positive) (e n1 n2 : Z) :
  nearest_integer_ties_even m e n1 -> nearest_integer_ties_even m e n2 -> n1 = n2.
Proof.
  unfold nearest_integer_ties_even. destruct (0 <=? e)%Z eqn:E; [congruence|].
  apply Z.leb_gt in E.
  assert (Hd : (0 < 2 ^ (- e))%Z) by (apply Z.pow_pos_nonneg; lia).
  set (d := (2 ^ (- e))%Z) in *. intros [H1 T1] [H2 T2].
  assert (Hclose : (n1 = n2 \/ n1 = n2 + 1 \/ n2 = n1 + 1)%Z) by nia.
  destruct Hclose as [H|[H|H]]; [exact H| |].
  - assert (A1 : (2 * Z.abs (Zpos m - n1 * d) = d)%Z) by nia.
    assert (A2 : (2 * Z.abs (Zpos m - n2 * d) = d)%Z) by nia.
    specialize (T1 A1). specialize (T2 A2). subst n1.
    rewrite Z.add_1_r, Z.even_succ, <- Z.negb_even, T2 in T1. discriminate.
  - assert (A1 : (2 * Z.abs (Zpos m - n1 * d) = d)%Z) by nia.
    assert (A2 : (2 * Z.abs (Zpos m - n2 * d) = d)%Z) by nia.
    specialize (T1 A1). specialize (T2 A2). subst n2.
    rewrite Z.add_1_r, Z.even_succ, <- Z.negb_even, T1 in T2. discriminate.
Qed.

(** A finite float with a nonnegative exponent is at least [2 ^ 52]. *)
Lemma finite_exponent_nonneg (x : float) (s : bool) (m : positive) (e : Z) :
  Prim2SF x = S754_finite s m e -> (0 <= e)%Z -> (2 ^ 52 <= Zpos m * 2 ^ e)%Z.
Proof.
  intros Hx He. pose proof (Prim2SF_valid x) as V. rewrite Hx in V.
  unfold valid_binary, bounded, canonical_mantissa in V.
  apply andb_true_iff in V. destruct V as [V _]. apply Z.eqb_eq in V.
  unfold fexp, SpecFloat.emin, prec, emax in V.
  assert (Hd : Zpos (digits2_pos m) = 53%Z) by lia.
  pose proof (digits2_pos_bounds m) as [Blo _]. rewrite Hd in Blo.
  change (2 ^ (53 - 1))%Z with (2 ^ 52)%Z in Blo.
  assert (1 <= 2 ^ e)%Z by (apply Z.lt_pred_le, Z.pow_pos_nonneg; lia).
  nia.
Qed.

(** [rint] gives the nearest integer, ties to even. *)
Lemma rint_nearest (x : float) (s : bool) (m : positive) (e : Z) :
  Prim2SF x = S754_finite s m e -> (e < 0)%Z ->
  exists n : Z,
    nearest_integer_ties_even m e n /\ (0 <= n <= Zpos m)%Z
    /\ rint x = if s then (- int_to_double n)%float else int_to_double n.
Proof.
  intros Hx He. unfold rint, nearest_integer_ties_even. rewrite Hx.
  destruct (0 <=? e)%Z eqn:E; [apply Z.leb_le in E; lia|].
  assert (Hd : (0 < 2 ^ (- e))%Z) by (apply Z.pow_pos_nonneg; lia).
  assert (Hd2 : (2 <= 2 ^ (- e))%Z).
  { change 2%Z with (2 ^ 1)%Z at 1. apply Z.pow_le_mono_r; lia. }
  set (d := (2 ^ (- e))%Z) in *.
  pose proof (Z.div_mod (Zpos m) d ltac:(lia)) as Hdm.
  pose proof (Z.mod_pos_bound (Zpos m) d Hd) as Hr.
  assert (Hq : (0 <= Zpos m / d)%Z) by (apply Z.div_pos; lia).
  set (q := (Zpos m / d)%Z) in *. set (r := (Zpos m mod d)%Z) in *.
  destruct (2 * r <? d)%Z eqn:L1; [apply Z.ltb_lt in L1|apply Z.ltb_ge in L1].
  - exists q. split; [|split; [nia|reflexivity]]. split; [nia|nia].
  - destruct (d <? 2 * r)%Z eqn:L2; [apply Z.ltb_lt in L2|apply Z.ltb_ge in L2].
    + exists (q + 1)%Z. split; [|split; [nia|reflexivity]]. split; [nia|nia].
    + destruct (Z.even q) eqn:Ev.
      * exists q. split; [|split; [nia|reflexivity]]. split; [nia|]. intros _. exact Ev.
      * exists (q + 1)%Z. split; [|split; [nia|reflexivity]]. split; [nia|].
        intros _. now rewrite Z.add_1_r, Z.even_succ, <- Z.negb_even, Ev.
Qed.

(** The number of grid points of a dimension: 1 more than the integer
    nearest to the quotient, as long as that fits an [int]. *)
Lemma grid_size_nearest (r : lambda_range) (s : bool) (m : positive) (e n : Z) :
  Prim2SF ((range_end r - range_start r) / range_step r)%float = S754_finite s m e ->
  nearest_integer_ties_even m e n -> (n < INT_MAX)%Z ->
  grid_size r = (1 + (if s then - n else n))%Z.
Proof.
  intros Hq Hn Hmax. unfold INT_MAX in Hmax.
  assert (He : (e < 0)%Z).
  { destruct (Z.lt_ge_cases e 0) as [H|H]; [exact H|].
    pose proof (finite_exponent_nonneg _ s m e Hq H) as B.
    unfold nearest_integer_ties_even in Hn.
    destruct (0 <=? e)%Z eqn:E; [|apply Z.leb_gt in E; lia].
    subst n. assert (2147483647 < 2 ^ 52)%Z by reflexivity. lia. }
  destruct (rint_nearest _ s m e Hq He) as [n0 [Hn0 [Hb Hr]]].
  assert (n0 = n) by (eapply nearest_integer_ties_even_unique; eassumption).
  subst n0. unfold grid_size. rewrite Hr.
  assert (2147483647 < 2 ^ 53 - 1)%Z by reflexivity.
  destruct s; [apply double_to_int_pred|apply double_to_int_succ]; lia.
Qed.

Lemma grid_size_zero (r : lambda_range) (s : bool) :
  Prim2SF ((range_end r - range_start r) / range_step r)%float = S754_zero s ->
  grid_size r = 1%Z.
Proof.
  intros Hq. unfold grid_size.
  assert (Hr : rint ((range_end r - range_start r) / range_step r)
               = ((range_end r - range_start r) / range_step r)%float).
  { unfold rint. now rewrite Hq. }
  rewrite Hr. unfold double_to_int.
  rewrite FloatAxioms.add_spec, Prim2SF_one, Hq. reflexivity.
Qed.

Section Properties.

Context {ext : Collaborators}.

(** ** PriorEstimator *)

Lemma collect_item_sizes_spec (pf : CafeFamily) (pitem : CafeFamilyItem) (acc : list Z) :
  collect_item_sizes pf pitem acc
  = acc ++ map (fun c => (c - 1)%Z) (filter (fun c => (0 <? c)%Z) (leaf_counts pf pitem)).
Proof.
  unfold collect_item_sizes, leaf_counts.
  generalize (seq 0 (Z.to_nat (num_species pf))) as l.
  intros l; revert acc; induction l as [|i l IH]; intros acc; simpl.
  - now rewrite app_nil_r.
  - destruct (nth i (index pf) 0 <? 0)%Z; simpl.
    + apply IH.
    + destruct (0 <? nth i (count pitem) 0)%Z; simpl.
      * rewrite IH, <- app_assoc. reflexivity.
      * apply IH.
Qed.

Lemma collect_leaf_sizes_spec (pf : CafeFamily) :
  collect_leaf_sizes pf = shifted_positive_counts pf.
Proof.
  unfold collect_leaf_sizes, shifted_positive_counts.
  rewrite <- (app_nil_l (flat_map _ _)).
  generalize (@nil Z) as acc. generalize (flist pf) as l.
  induction l as [|it l IH]; intros acc; simpl.
  - now rewrite app_nil_r.
  - rewrite IH, collect_item_sizes_spec, <- app_assoc. reflexivity.
Qed.

(** The values an optimizer run has seen are the objective's. *)
Lemma fmin_evals_values {S : Type} (eq : list float -> S -> S * float)
    (f : list float -> float) (pfm : FMinSearch) (X0 : list float) (fuel : nat) :
  (forall x s, snd (eq x s) = f x) ->
  forall seen s,
    Forall (fun xv => snd xv = f (fst xv)) seen ->
    Forall (fun xv => snd xv = f (fst xv)) (snd (fmin_evals eq pfm X0 fuel seen s)).
Proof.
  intros Heq. induction fuel as [|fuel IH]; intros seen s Hseen; cbn [fmin_evals].
  - exact Hseen.
  - destruct (fmin_next pfm X0 seen) as [x|]; [|exact Hseen].
    destruct (eq x s) as [s1 v] eqn:E. apply IH.
    apply Forall_app. split; [exact Hseen|].
    constructor; [|constructor]. cbn [fst snd]. rewrite <- (Heq x s), E. reflexivity.
Qed.

(** Every point of an optimizer run is the one the optimizer asked for
    after the evaluations before it. *)
Lemma fmin_evals_asked {S : Type} (eq : list float -> S -> S * float)
    (pfm : FMinSearch) (X0 : list float) (fuel : nat) :
  forall seen s,
    (forall n x v, nth_error seen n = Some (x, v) ->
                   fmin_next pfm X0 (firstn n seen) = Some x) ->
    forall n x v,
      nth_error (snd (fmin_evals eq pfm X0 fuel seen s)) n = Some (x, v) ->
      fmin_next pfm X0 (firstn n (snd (fmin_evals eq pfm X0 fuel seen s))) = Some x.
Proof.
  induction fuel as [|fuel IH]; intros seen s Hseen; cbn [fmin_evals].
  - exact Hseen.
  - destruct (fmin_next pfm X0 seen) as [x|] eqn:N; [|exact Hseen].
    destruct (eq x s) as [s1 v]. apply IH.
    intros n x' v' Hn.
    destruct (Nat.lt_ge_cases n (List.length seen)) as [Hlt|Hge].
    + rewrite nth_error_app1 in Hn by exact Hlt.
      rewrite firstn_app.
      replace (n - List.length seen) with 0 by lia.
      cbn [firstn]. rewrite app_nil_r. now apply (Hseen n x' v').
    + rewrite nth_error_app2 in Hn by exact Hge.
      destruct (n - List.length seen) as [|k] eqn:K.
      * cbn [nth_error] in Hn. injection Hn as <- _.
        assert (n = List.length seen) by lia. subst n.
        rewrite firstn_app, Nat.sub_diag, firstn_all. cbn [firstn].
        rewrite app_nil_r. exact N.
      * cbn [nth_error] in Hn. now destruct k.
Qed.

(** An optimizer run ends when the optimizer asks for no further point,
    or at the cap on the evaluations. *)
Lemma fmin_evals_stops {S : Type} (eq : list float -> S -> S * float)
    (pfm : FMinSearch) (X0 : list float) (fuel : nat) :
  forall seen s,
    let final := snd (fmin_evals eq pfm X0 fuel seen s) in
    List.length final = List.length seen + fuel \/ fmin_next pfm X0 final = None.
Proof.
  induction fuel as [|fuel IH]; intros seen s; cbn [fmin_evals].
  - left. cbn [snd]. lia.
  - destruct (fmin_next pfm X0 seen) as [x|] eqn:N; [|right; exact N].
    destruct (eq x s) as [s1 v].
    destruct (IH (seen ++ [(x, v)]) s1) as [H|H]; [left|right; exact H].
    cbv zeta in H. rewrite H, length_app. cbn [List.length]. lia.
Qed.

(** The objective of the Poisson fit reads the first coordinate only. *)
Lemma lnLPoisson_first (x : list float) (leaf_sizes : list Z) :
  __lnLPoisson [nth 0 x 0%float] leaf_sizes = __lnLPoisson x leaf_sizes.
Proof. reflexivity. Qed.

(** The collection over the species on the tree is the collection over all
    species when every species is on the tree. *)
Lemma leaf_counts_all_species (pf : CafeFamily) (pitem : CafeFamilyItem) :
  forallb (fun i => (0 <=? nth i (index pf) 0)%Z) (seq 0 (Z.to_nat (num_species pf))) = true ->
  leaf_counts pf pitem = species_counts pf pitem.
Proof.
  intros H. unfold leaf_counts, species_counts. f_equal.
  rewrite forallb_forall in H.
  induction (seq 0 (Z.to_nat (num_species pf))) as [|i l IH]; [reflexivity|].
  cbn [filter].
  assert (Hi : (0 <=? nth i (index pf) 0)%Z = true) by (apply H; now left).
  apply Z.leb_le in Hi.
  destruct (nth i (index pf) 0 <? 0)%Z eqn:E; [apply Z.ltb_lt in E; lia|].
  cbn [negb]. f_equal. apply IH. intros j Hj. apply H. now right.
Qed.

(** The result of the Poisson fit, from what the optimizer reports. *)
Lemma poisson_fit_result (leaf_sizes : list Z) (u : float) :
  let report := fmin_report poisson_fit_handle [u] (poisson_fit_evals leaf_sizes u) in
  poisson_fit leaf_sizes u
  = mk_poisson_lambda [nth 0 (snd report) 0%float] 1 (fst (fst report)) (snd (fst report)).
Proof.
  unfold poisson_fit, poisson_fit_evals, fminsearch_min, poisson_fit_handle. cbv zeta.
  destruct (fmin_evals _ _ _ _ _ _) as [s1 seen]. cbn [snd].
  destruct (fmin_report _ _ seen) as [[it v] x]. reflexivity.
Qed.

(** Claim C5 (amended).  Prior estimation collects, over all families,
    exactly the positive counts of the species that are on the tree (the
    leaf counts: a species of the family table that the tree does not have,
    [index < 0], is skipped), each shifted by -1; a zero count is never
    collected, every collected value is at least 0, and when every species
    is on the tree the collection is over all species.  It fits one
    Poisson rate to that collection: the optimizer runs in one variable
    with both tolerances 1e-6 from the seed; every point it evaluates is
    the one it asked for after the evaluations before it, and the value it
    sees there is the negated Poisson log-likelihood of the collection at
    that rate; the run ends when the optimizer asks for no further point or
    at its cap; the fitted rate is the first coordinate of the point the
    optimizer reports, the score and the number of iterations are the
    reported ones, and when the optimizer reports a point it has evaluated
    the score is the negated log-likelihood of the collection at the
    fitted rate.  The prior is
    [prior[i] = poisspdf(root_min - 1 + i, fitted rate)] for every
    [i < FAMILYSIZEMAX]; the leaf counts [0, 0, 1, 2] give the data
    [0, 1]. *)
Theorem prior_estimation_uses_shifted_positive_leaf_counts :
  (forall pf : CafeFamily,
      collect_leaf_sizes pf = shifted_positive_counts pf
      /\ Forall (fun x => (0 <= x)%Z) (collect_leaf_sizes pf)
      /\ (forallb (fun i => (0 <=? nth i (index pf) 0)%Z)
            (seq 0 (Z.to_nat (num_species pf))) = true ->
          collect_leaf_sizes pf = shifted_positive_species_counts pf))
  /\ (forall (pf : CafeFamily) (u : float),
        let data := shifted_positive_counts pf in
        let seen := poisson_fit_evals data u in
        let report := fmin_report poisson_fit_handle [u] seen in
        let result := find_poisson_lambda pf u in
        (variable_count poisson_fit_handle = 1%Z
         /\ tolx poisson_fit_handle = 1e-6%float
         /\ tolf poisson_fit_handle = 1e-6%float)
        /\ (forall n x v,
              nth_error seen n = Some (x, v) ->
              fmin_next poisson_fit_handle [u] (firstn n seen) = Some x
              /\ v = __lnLPoisson x data)
        /\ (List.length seen = fmin_maxeval
            \/ fmin_next poisson_fit_handle [u] seen = None)
        /\ result = mk_poisson_lambda [nth 0 (snd report) 0%float] 1
                      (fst (fst report)) (snd (fst report))
        /\ (In (snd report, snd (fst report)) seen ->
            score result = __lnLPoisson (parameters result) data))
  /\ (forall (param : CafeParam) (u : float),
        snd (cafe_set_prior_rfsize_empirical param u)
        = map (fun i =>
                 poisspdf (int_to_double (root_min (range (pcafe param)) - 1 + Z.of_nat i))
                   (nth 0 (parameters (find_poisson_lambda (pfamily param) u)) 0%float))
            (seq 0 FAMILYSIZEMAX))
  /\ collect_leaf_sizes
       (mk_CafeFamily 4 [0; 1; 2; 3]%Z [ref_item "F1" (-1) [0; 0; 1; 2]%Z])
     = [0; 1]%Z.
Proof.
  split; [|split; [|split]].
  - intros pf. split; [apply collect_leaf_sizes_spec|split].
    + rewrite collect_leaf_sizes_spec. unfold shifted_positive_counts.
      apply Forall_forall. intros x Hx. apply in_flat_map in Hx.
      destruct Hx as [pitem [_ Hx]]. apply in_map_iff in Hx.
      destruct Hx as [c [<- Hc]]. apply filter_In in Hc. destruct Hc as [_ Hc].
      apply Z.ltb_lt in Hc. lia.
    + intros Hall. rewrite collect_leaf_sizes_spec.
      unfold shifted_positive_counts, shifted_positive_species_counts.
      apply flat_map_ext. intros pitem.
      now rewrite (leaf_counts_all_species pf pitem Hall).
  - intros pf u data seen report result.
    assert (Hres : result = mk_poisson_lambda [nth 0 (snd report) 0%float] 1
                              (fst (fst report)) (snd (fst report))).
    { subst result report seen data. unfold find_poisson_lambda.
      rewrite collect_leaf_sizes_spec. apply poisson_fit_result. }
    assert (Hval : Forall (fun xv => snd xv = __lnLPoisson (fst xv) data) seen).
    { subst seen. unfold poisson_fit_evals.
      apply (fmin_evals_values _ (fun x => __lnLPoisson x data)).
      - intros x s. reflexivity.
      - constructor. }
    split; [repeat split|split; [|split; [|split]]].
    + intros n x v Hn. split.
      * subst seen. unfold poisson_fit_evals in *.
        apply (fmin_evals_asked _ _ _ _ [] tt) with (v := v); [|exact Hn].
        intros k x' v' Hk. now destruct k.
      * rewrite Forall_forall in Hval.
        apply (Hval (x, v)). eapply nth_error_In. exact Hn.
    + subst seen. unfold poisson_fit_evals.
      exact (fmin_evals_stops _ poisson_fit_handle [u] fmin_maxeval [] tt).
    + exact Hres.
    + intros Hin. rewrite Hres. cbn [score parameters].
      rewrite lnLPoisson_first. rewrite Forall_forall in Hval.
      exact (Hval _ Hin).
  - intros param u. reflexivity.
  - reflexivity.
Qed.

Lemma lnLPoisson_terms (lambda : float) (leaf_sizes : list Z) (s : float) :
  fold_left
    (fun score x =>
       let ll := poisspdf (int_to_double x) lambda in
       let ll := if is_nan ll then 0%float else ll in
       (score + log ll)%float) leaf_sizes s
  = fold_left (fun score ll => (score + log ll)%float)
      (map (fun x => nan_to_zero (poisspdf (int_to_double x) lambda)) leaf_sizes) s.
Proof.
  revert s; induction leaf_sizes as [|x l IH]; intros s; cbn [fold_left map];
    [reflexivity|].
  rewrite IH. reflexivity.
Qed.

(** Claim C10 (amended).  A NaN Poisson pmf value is coerced to 0 where
    the Poisson rate is fitted: each term of the fitting objective is the
    log of the coerced value, which is never NaN.  The prior array stores
    the pmf values as [poisspdf] returns them. *)
Theorem nan_pmf_is_coerced_in_the_fit_objective :
  (forall (plambda : list float) (leaf_sizes : list Z),
      __lnLPoisson plambda leaf_sizes
      = (- fold_left (fun score ll => (score + log ll)%float)
             (map (fun x => nan_to_zero (poisspdf (int_to_double x) (nth 0 plambda 0)))
                leaf_sizes) 0)%float)
  /\ (forall ll : float,
        is_nan (nan_to_zero ll) = false
        /\ nan_to_zero ll = if is_nan ll then 0%float else ll)
  /\ (forall (shift : Z) (lambda : list float) (i : nat),
        i < FAMILYSIZEMAX ->
        nth i (cafe_set_prior_rfsize_poisson_lambda shift lambda) 0%float
        = poisspdf (int_to_double (shift - 1 + Z.of_nat i)) (nth 0 lambda 0%float)).
Proof.
  split; [|split].
  - intros plambda leaf_sizes. unfold __lnLPoisson. cbv zeta.
    now rewrite lnLPoisson_terms.
  - intros ll. split; [apply nan_to_zero_not_nan|reflexivity].
  - intros shift lambda i Hi. unfold cafe_set_prior_rfsize_poisson_lambda.
    now rewrite nth_map_seq.
Qed.

(** ** The optimizer and PerFamilySearch *)

(** The optimizer changes the state through the objective only. *)
Lemma fmin_evals_invariant {S : Type} (P : S -> Prop)
    (eq : list float -> S -> S * float) :
  (forall x s, P s -> P (fst (eq x s))) ->
  forall pfm X0 fuel seen s, P s -> P (fst (fmin_evals eq pfm X0 fuel seen s)).
Proof.
  intros Heq pfm X0 fuel; induction fuel as [|fuel IH]; intros seen s Hs; simpl; auto.
  destruct (fmin_next pfm X0 seen) as [x|]; simpl; auto.
  specialize (Heq x s Hs). destruct (eq x s) as [s1 v]. apply IH. exact Heq.
Qed.

Lemma fminsearch_min_invariant {S : Type} (P : S -> Prop)
    (eq : list float -> S -> S * float) :
  (forall x s, P s -> P (fst (eq x s))) ->
  forall pfm X0 s, P s -> P (fst (fminsearch_min eq pfm X0 s)).
Proof.
  intros Heq pfm X0 s Hs. unfold fminsearch_min.
  pose proof (fmin_evals_invariant P eq Heq pfm X0 fmin_maxeval [] s Hs) as H.
  destruct (fmin_evals eq pfm X0 fmin_maxeval [] s) as [s1 seen].
  destruct (fmin_report pfm X0 seen) as [[it v] x]. exact H.
Qed.

Lemma fminsearch_min_tol {S : Type} (eq : list float -> S -> S * float) pfm X0 s :
  tolx (snd (fminsearch_min eq pfm X0 s)) = tolx pfm
  /\ tolf (snd (fminsearch_min eq pfm X0 s)) = tolf pfm.
Proof.
  unfold fminsearch_min.
  destruct (fmin_evals eq pfm X0 fmin_maxeval [] s) as [s1 seen].
  destruct (fmin_report pfm X0 seen) as [[it v] x]. split; reflexivity.
Qed.

(** The footprint of the per-family objective: tree, current rates, log. *)
Lemma each_objective_frame (plambda : list float) (param : CafeParam) :
  let p := fst (__cafe_each_best_lambda_search plambda param) in
  pfamily p = pfamily param /\ family_size p = family_size param.
Proof.
  unfold __cafe_each_best_lambda_search.
  destruct (has_negative (num_lambdas param) plambda); cbn; auto.
Qed.

Lemma each_fit_overrides_family_size (lambda_len fsize : Z) (st : each_state) (i : nat) :
  family_size (es_param (each_fit lambda_len fsize st i))
  = range (cafe_family_set_size_with_family_forced (pfamily (es_param st)) (Z.of_nat i)
             (pcafe (es_param st))).
Proof.
  unfold each_fit.
  match goal with
  | |- context [fminsearch_min ?eq ?pfm ?x ?p] =>
      pose proof (fminsearch_min_invariant
                    (fun q => family_size q = family_size p) eq
                    (fun y s Hs => eq_trans (proj2 (each_objective_frame y s)) Hs)
                    pfm x p eq_refl) as H;
      destruct (fminsearch_min eq pfm x p) as [p4 pfm1]
  end.
  cbn [fst] in H.
  destruct (near_boundary lambda_len (fminsearch_get_minX pfm1) (pcafe p4)); cbn;
    rewrite H; cbn;
    destruct (range (cafe_family_set_size_with_family_forced _ _ _)); reflexivity.
Qed.

(** Claim C9.  When the per-family search returns, the family-size range
    of the session, which every fitted family overrides with its own
    range, has the value it had on entry, in the parameter block and on
    the tree alike; a tree that agreed with the session on entry is back
    to its own range. *)
Theorem each_search_restores_family_size_range (param : CafeParam) (lambda_len : Z) :
  let p := fst (cafe_each_best_lambda_by_fminsearch param lambda_len) in
  family_size p = family_size param
  /\ range (pcafe p) = family_size param
  /\ (range (pcafe param) = family_size param -> range (pcafe p) = range (pcafe param))
  /\ forall (fsize : Z) (st : each_state) (i : nat),
       family_size (es_param (each_fit lambda_len fsize st i))
       = range (cafe_family_set_size_with_family_forced (pfamily (es_param st))
                  (Z.of_nat i) (pcafe (es_param st))).
Proof.
  cbv zeta. split; [|split; [|split]].
  - reflexivity.
  - reflexivity.
  - intros H. rewrite H. reflexivity.
  - intros. apply each_fit_overrides_family_size.
Qed.

Lemma each_fit_items (lambda_len fsize : Z) (st : each_state) (i : nat) :
  exists l m,
    es_items (each_fit lambda_len fsize st i)
    = set_nth i (set_lambda_mu (nth i (es_items st) null_item) l m) (es_items st)
    /\ fmin_calls (each_fit lambda_len fsize st i) = fmin_calls st ++ [i].
Proof.
  unfold each_fit, es_items.
  match goal with
  | |- context [fminsearch_min ?eq ?pfm ?x ?p] =>
      pose proof (fminsearch_min_invariant
                    (fun q => pfamily q = pfamily p) eq
                    (fun y s Hs => eq_trans (proj1 (each_objective_frame y s)) Hs)
                    pfm x p eq_refl) as H;
      destruct (fminsearch_min eq pfm x p) as [p4 pfm1]
  end.
  cbn [fst] in H. do 2 eexists.
  destruct (near_boundary lambda_len (fminsearch_get_minX pfm1) (pcafe p4)); cbn;
    unfold family_item; rewrite H; cbn; split; reflexivity.
Qed.

Lemma each_copy_ref_items (fsize : Z) (st : each_state) (i : nat) :
  let pitem := nth i (es_items st) null_item in
  let pref := nth (Z.to_nat (ref pitem)) (es_items st) null_item in
  es_items (each_copy_ref fsize st i)
  = set_nth i (set_lambda_mu pitem (lambda pref) (mu pref)) (es_items st)
  /\ fmin_calls (each_copy_ref fsize st i) = fmin_calls st.
Proof.
  unfold each_copy_ref, es_items. cbn. split; reflexivity.
Qed.

Lemma map_set_nth_same {A B : Type} (f : A -> B) (i : nat) (x d : A) (l : list A) :
  f x = f (nth i l d) -> map f (set_nth i x l) = map f l.
Proof.
  revert i; induction l as [|a l IH]; intros [|i] H; simpl in *; auto.
  - now rewrite H.
  - now rewrite IH.
Qed.

(** A step keeps the number of families and their [ref] fields. *)
Lemma each_step_refs (lambda_len fsize : Z) (st : each_state) (i : nat) :
  map ref (es_items (each_step lambda_len fsize st i)) = map ref (es_items st).
Proof.
  unfold each_step.
  destruct (refers_to_other (family_item (pfamily (es_param st)) i) i).
  - rewrite (proj1 (each_copy_ref_items fsize st i)).
    apply map_set_nth_same with (d := null_item). reflexivity.
  - destruct (each_fit_items lambda_len fsize st i) as [l [m [E _]]]. rewrite E.
    apply map_set_nth_same with (d := null_item). reflexivity.
Qed.

(** A step writes the results of its own family only. *)
Lemma each_step_other (lambda_len fsize : Z) (st : each_state) (i j : nat) :
  i <> j ->
  nth j (es_items (each_step lambda_len fsize st i)) null_item
  = nth j (es_items st) null_item.
Proof.
  intros Hij. unfold each_step.
  destruct (refers_to_other (family_item (pfamily (es_param st)) i) i).
  - rewrite (proj1 (each_copy_ref_items fsize st i)). now apply nth_set_nth_neq.
  - destruct (each_fit_items lambda_len fsize st i) as [l [m [E _]]]. rewrite E.
    now apply nth_set_nth_neq.
Qed.

Lemma each_steps_refs (lambda_len fsize : Z) (l : list nat) (st : each_state) :
  map ref (es_items (fold_left (each_step lambda_len fsize) l st)) = map ref (es_items st).
Proof.
  revert st; induction l as [|i l IH]; intros st; simpl; auto.
  rewrite IH. apply each_step_refs.
Qed.

Lemma each_steps_other (lambda_len fsize : Z) (l : list nat) (st : each_state) (j : nat) :
  ~ In j l ->
  nth j (es_items (fold_left (each_step lambda_len fsize) l st)) null_item
  = nth j (es_items st) null_item.
Proof.
  revert st; induction l as [|i l IH]; intros st Hj; simpl; auto.
  rewrite IH by (intro; apply Hj; now right).
  apply each_step_other. intro; apply Hj; now left.
Qed.

Lemma nth_map_ref (l : list CafeFamilyItem) (j : nat) :
  ref (nth j l null_item) = nth j (map ref l) (-1)%Z.
Proof.
  change (-1)%Z with (ref null_item). now rewrite map_nth.
Qed.

(** The optimizer calls of a run of steps: the families that do not refer
    to another one. *)
Lemma each_steps_calls (lambda_len fsize : Z) (l : list nat) (st : each_state) :
  fmin_calls (fold_left (each_step lambda_len fsize) l st)
  = fmin_calls st
    ++ filter (fun i => negb (refers_to_other (nth i (es_items st) null_item) i)) l.
Proof.
  revert st; induction l as [|i l IH]; intros st; cbn [fold_left filter].
  - now rewrite app_nil_r.
  - rewrite IH.
    assert (Hf : forall j, refers_to_other
                   (nth j (es_items (each_step lambda_len fsize st i)) null_item) j
                 = refers_to_other (nth j (es_items st) null_item) j).
    { intros j. unfold refers_to_other. rewrite !nth_map_ref, each_step_refs. reflexivity. }
    rewrite (filter_ext _ _ (fun j => f_equal negb (Hf j))).
    unfold each_step at 1. unfold family_item. fold (es_items st).
    destruct (refers_to_other (nth i (es_items st) null_item) i) eqn:E; cbn [negb].
    + now rewrite (proj2 (each_copy_ref_items fsize st i)).
    + destruct (each_fit_items lambda_len fsize st i) as [l' [m [_ Ec]]].
      rewrite Ec, <- app_assoc. reflexivity.
Qed.

Lemma each_steps_length (lambda_len fsize : Z) (l : list nat) (st : each_state) :
  List.length (es_items (fold_left (each_step lambda_len fsize) l st))
  = List.length (es_items st).
Proof.
  rewrite <- (length_map ref), each_steps_refs, length_map. reflexivity.
Qed.

(** Claim C6.  In the per-family search, a family whose [ref] points to
    an earlier, different family gets the fitted lambda and mu of that
    family, and the optimizer is not called for it: the optimizer is
    called for exactly the families that do not refer to another one. *)
Theorem each_search_copies_reference (param : CafeParam) (lambda_len : Z) (i : nat) :
  let items := flist (pfamily param) in
  let r := ref (nth i items null_item) in
  i < List.length items ->
  (0 <= r < Z.of_nat i)%Z ->
  let res := cafe_each_best_lambda_by_fminsearch param lambda_len in
  let items' := flist (pfamily (fst res)) in
  lambda (nth i items' null_item) = lambda (nth (Z.to_nat r) items' null_item)
  /\ mu (nth i items' null_item) = mu (nth (Z.to_nat r) items' null_item)
  /\ ~ In i (snd res)
  /\ snd res = filter (fun j => negb (refers_to_other (nth j items null_item) j))
                 (seq 0 (List.length items)).
Proof.
  intros items r Hi Hr res items'.
  assert (Hsplit : seq 0 (List.length items)
                   = seq 0 i ++ i :: seq (S i) (List.length items - S i)).
  { replace (List.length items) with (i + S (List.length items - S i)) at 1 by lia.
    rewrite seq_app. reflexivity. }
  subst res items'. unfold cafe_each_best_lambda_by_fminsearch. cbn [fst snd].
  cbn [pfamily set_param_lambda set_family_size set_pcafe set_num_lambdas].
  fold items.
  set (fsize := Z.of_nat (List.length items)).
  set (st0 := mk_each_state _ _ []).
  assert (E0 : es_items st0 = items) by reflexivity.
  change (flist (pfamily (es_param ?s))) with (es_items s).
  rewrite each_steps_calls, E0. cbn [fmin_calls st0 app].
  assert (Hdup : refers_to_other (nth i items null_item) i = true).
  { unfold refers_to_other. fold r.
    apply andb_true_intro; split.
    - apply Z.leb_le; lia.
    - apply negb_true_iff, Z.eqb_neq; lia. }
  assert (Hcalls : ~ In i (filter (fun j => negb (refers_to_other (nth j items null_item) j))
                             (seq 0 (List.length items)))).
  { rewrite filter_In. intros [_ H]. rewrite Hdup in H. discriminate. }
  set (final := fold_left (each_step lambda_len fsize) (seq 0 (List.length items)) st0).
  assert (Hfinal : final
                   = fold_left (each_step lambda_len fsize)
                       (seq (S i) (List.length items - S i))
                       (each_step lambda_len fsize
                          (fold_left (each_step lambda_len fsize) (seq 0 i) st0) i)).
  { unfold final. rewrite Hsplit, fold_left_app. reflexivity. }
  rewrite Hfinal. clear Hfinal final.
  set (st1 := fold_left (each_step lambda_len fsize) (seq 0 i) st0).
  assert (Hrefs1 : map ref (es_items st1) = map ref items).
  { unfold st1. rewrite each_steps_refs. now rewrite E0. }
  assert (Hlen1 : List.length (es_items st1) = List.length items).
  { rewrite <- (length_map ref), Hrefs1, length_map. reflexivity. }
  assert (Hr1 : ref (nth i (es_items st1) null_item) = r).
  { rewrite nth_map_ref, Hrefs1, <- nth_map_ref. reflexivity. }
  set (st2 := each_step lambda_len fsize st1 i).
  assert (Hi2 : nth i (es_items st2) null_item
                = set_lambda_mu (nth i (es_items st1) null_item)
                    (lambda (nth (Z.to_nat r) (es_items st1) null_item))
                    (mu (nth (Z.to_nat r) (es_items st1) null_item))).
  { unfold st2, each_step, family_item. fold (es_items st1).
    replace (refers_to_other (nth i (es_items st1) null_item) i) with true.
    - rewrite (proj1 (each_copy_ref_items fsize st1 i)). rewrite Hr1.
      apply nth_set_nth_eq. lia.
    - unfold refers_to_other. rewrite Hr1. symmetry.
      apply andb_true_intro; split.
      + apply Z.leb_le; lia.
      + apply negb_true_iff, Z.eqb_neq; lia. }
  assert (Hr2 : nth (Z.to_nat r) (es_items st2) null_item
                = nth (Z.to_nat r) (es_items st1) null_item).
  { unfold st2. apply each_step_other. lia. }
  assert (Hlater : forall j, j <= i ->
             nth j (es_items (fold_left (each_step lambda_len fsize)
                                (seq (S i) (List.length items - S i)) st2)) null_item
             = nth j (es_items st2) null_item).
  { intros j Hj. apply each_steps_other. rewrite in_seq. lia. }
  rewrite (Hlater i) by lia. rewrite (Hlater (Z.to_nat r)) by lia.
  rewrite Hi2, Hr2. cbn [lambda mu set_lambda_mu].
  repeat split; auto.
Qed.

(** ** PosteriorScorer *)

Lemma compute_posterior_key (pitem : CafeFamilyItem) (tree : CafeTree) (prior : list float) :
  item_key (fst (fst (compute_posterior pitem tree prior))) = item_key pitem.
Proof.
  unfold compute_posterior. cbn [fst]. destruct (maxlh pitem <? 0)%Z; reflexivity.
Qed.

Lemma nth_item_key (l : list CafeFamilyItem) (j : nat) :
  item_key (nth j l null_item) = nth j (map item_key l) (EmptyString, (-1)%Z).
Proof.
  change (EmptyString, (-1)%Z) with (item_key null_item). now rewrite map_nth.
Qed.

Lemma firstn_set_nth_ge {A : Type} (i n : nat) (x : A) (l : list A) :
  n <= i -> firstn n (set_nth i x l) = firstn n l.
Proof.
  revert i n; induction l as [|a l IH]; intros [|i] [|n] H; simpl; auto; try lia.
  f_equal. apply IH. lia.
Qed.

Lemma firstn_succ_nth {A : Type} (n : nat) (d : A) (l : list A) :
  n < List.length l -> firstn (S n) l = firstn n l ++ [nth n l d].
Proof.
  revert n; induction l as [|a l IH]; intros [|n] H; simpl in *; try lia; auto.
  f_equal. apply IH. lia.
Qed.

Lemma nth_firstn_lt {A : Type} (n j : nat) (d : A) (l : list A) :
  j < n -> nth j (firstn n l) d = nth j l d.
Proof.
  revert n j; induction l as [|a l IH]; intros [|n] [|j] H; simpl; auto; try lia.
  apply IH. lia.
Qed.

(** The posteriors computed so far stay at the head of the list. *)
Lemma family_posteriors_prefix prior (idxs : list nat) pf tree (acc : list posterior) :
  exists rest, family_posteriors prior idxs pf tree acc = acc ++ rest.
Proof.
  revert pf tree acc; induction idxs as [|i idxs IH]; intros pf tree acc;
    cbn [family_posteriors].
  - exists []. now rewrite app_nil_r.
  - destruct (own_family (family_item pf i) i).
    + destruct (compute_posterior (family_item pf i) _ prior) as [[pitem1 tree1] p].
      destruct (IH (set_flist pf (set_nth i pitem1 (flist pf))) tree1 (acc ++ [p]))
        as [rest E].
      exists (p :: rest). rewrite E, <- app_assoc. reflexivity.
    + destruct (IH pf tree (acc ++ [nth (Z.to_nat (ref (family_item pf i))) acc null_posterior]))
        as [rest E].
      eexists. rewrite E, <- app_assoc. reflexivity.
Qed.

Lemma sim_read (n i : nat) (st : gp_state) (acc : list posterior) (r : nat) :
  gp_sim n i st acc ->
  nth r (family_max_likelihood st) 0%float = max_likelihood (nth r acc null_posterior)
  /\ nth r (family_max_posterior st) 0%float = max_posterior (nth r acc null_posterior).
Proof.
  intros H. destruct (Nat.lt_ge_cases r i) as [Hlt|Hge].
  - rewrite <- (nth_firstn_lt i r 0%float (family_max_likelihood st)) by exact Hlt.
    rewrite <- (nth_firstn_lt i r 0%float (family_max_posterior st)) by exact Hlt.
    rewrite (sim_ml _ _ _ _ H), (sim_mp _ _ _ _ H).
    change 0%float with (max_likelihood null_posterior) at 1.
    change 0%float with (max_posterior null_posterior) at 1.
    rewrite !map_nth. split; reflexivity.
  - rewrite (sim_ml_unwritten _ _ _ _ H) by exact Hge.
    rewrite (sim_mp_unwritten _ _ _ _ H) by exact Hge.
    rewrite nth_overflow by (rewrite (sim_acc_length _ _ _ _ H); exact Hge).
    split; reflexivity.
Qed.

(** Writing the entry [i] of both vectors extends the agreement. *)
Lemma sim_write (n i : nat) (st : gp_state) (acc : list posterior)
    (pf : CafeFamily) (tree : CafeTree) (p : posterior) :
  i < n -> gp_sim n i st acc ->
  let st1 := mk_gp_state pf tree
               (set_nth i (max_likelihood p) (family_max_likelihood st))
               (set_nth i (max_posterior p) (family_max_posterior st)) (gp_score st) in
  nth i (family_max_likelihood st1) 0%float = max_likelihood p
  /\ (zero_likelihood p = false -> gp_sim n (S i) (gp_add_score st1 i) (acc ++ [p])).
Proof.
  intros Hi H st1. subst st1. cbn [family_max_likelihood].
  pose proof (sim_ml_length _ _ _ _ H) as Lml.
  pose proof (sim_mp_length _ _ _ _ H) as Lmp.
  split; [apply nth_set_nth_eq; lia|].
  intros Hz. constructor; unfold gp_add_score;
    cbn [gp_family gp_tree family_max_likelihood family_max_posterior gp_score].
  - now rewrite length_set_nth.
  - now rewrite length_set_nth.
  - rewrite length_app, (sim_acc_length _ _ _ _ H). cbn. lia.
  - rewrite (firstn_succ_nth i 0%float) by (rewrite length_set_nth; lia).
    rewrite firstn_set_nth_ge by lia. rewrite nth_set_nth_eq by lia.
    rewrite (sim_ml _ _ _ _ H), map_app. reflexivity.
  - rewrite (firstn_succ_nth i 0%float) by (rewrite length_set_nth; lia).
    rewrite firstn_set_nth_ge by lia. rewrite nth_set_nth_eq by lia.
    rewrite (sim_mp _ _ _ _ H), map_app. reflexivity.
  - intros j Hj. rewrite nth_set_nth_neq by lia. apply (sim_ml_unwritten _ _ _ _ H). lia.
  - intros j Hj. rewrite nth_set_nth_neq by lia. apply (sim_mp_unwritten _ _ _ _ H). lia.
  - rewrite nth_set_nth_eq by lia. rewrite (sim_score _ _ _ _ H).
    unfold sum_log_posteriors, sum_log. rewrite map_app, fold_left_app. reflexivity.
  - rewrite existsb_app, (sim_nonzero _ _ _ _ H). cbn [existsb orb].
    rewrite Hz. reflexivity.
Qed.

Lemma get_posterior_fill_keys (prior : list float) (i : nat) (st : gp_state) :
  map item_key (flist (gp_family (get_posterior_fill prior i st)))
  = map item_key (flist (gp_family st)).
Proof.
  unfold get_posterior_fill.
  destruct (own_family (family_item (gp_family st) i) i); [|reflexivity].
  pose proof (compute_posterior_key (family_item (gp_family st) i)
                (cafe_family_set_size (gp_family st) (family_item (gp_family st) i)
                   (gp_tree st)) prior) as Hk.
  destruct (compute_posterior (family_item (gp_family st) i) _ prior)
    as [[pitem1 tree2] p]. cbn [fst] in Hk. cbn.
  apply map_set_nth_same with (d := null_item). exact Hk.
Qed.

(** The loop against the specification's list: either no family has a
    best likelihood of 0 and the score is the sum of the logs of the best
    posteriors, or the exception names the first family that has. *)
Lemma get_posterior_loop_spec prior keys (n i : nat) (st : gp_state) (acc : list posterior) :
  i + n = List.length keys ->
  map item_key (flist (gp_family st)) = keys ->
  gp_sim (List.length keys) i st acc ->
  let posts := family_posteriors prior (seq i n) (gp_family st) (gp_tree st) acc in
  match snd (get_posterior_loop prior (seq i n) st) with
  | Ok s => existsb zero_likelihood posts = false /\ s = sum_log_posteriors posts
  | Throw what =>
      exists j, j < List.length keys
        /\ what = ("WARNING: Calculated posterior probability for family "
                   ++ fst (nth j keys (EmptyString, (-1)%Z)) ++ " = 0" ++ endl)%string
        /\ zero_likelihood (nth j posts null_posterior) = true
        /\ existsb zero_likelihood (firstn j posts) = false
  end.
Proof.
  revert i st acc; induction n as [|n IH]; intros i st acc Hn Hk Hsim posts; subst posts.
  - cbn. split; [exact (sim_nonzero _ _ _ _ Hsim) | exact (sim_score _ _ _ _ Hsim)].
  - cbn [seq get_posterior_loop family_posteriors].
    pose proof (get_posterior_fill_keys prior i st) as Hk1.
    unfold get_posterior_fill in *.
    set (pitem := family_item (gp_family st) i) in *.
    assert (Hstep : forall pf tree p,
               let st1 := mk_gp_state pf tree
                            (set_nth i (max_likelihood p) (family_max_likelihood st))
                            (set_nth i (max_posterior p) (family_max_posterior st))
                            (gp_score st) in
               map item_key (flist pf) = keys ->
               match snd (if (nth i (family_max_likelihood st1) 0 =? 0)%float
                          then (st1, Throw (zero_posterior_what (family_item pf i)))
                          else get_posterior_loop prior (seq (S i) n) (gp_add_score st1 i))
               with
               | Ok s =>
                   existsb zero_likelihood
                     (family_posteriors prior (seq (S i) n) pf tree (acc ++ [p])) = false
                   /\ s = sum_log_posteriors
                            (family_posteriors prior (seq (S i) n) pf tree (acc ++ [p]))
               | Throw what =>
                   exists j, j < List.length keys
                     /\ what = ("WARNING: Calculated posterior probability for family "
                                ++ fst (nth j keys (EmptyString, (-1)%Z))
                                ++ " = 0" ++ endl)%string
                     /\ zero_likelihood
                          (nth j (family_posteriors prior (seq (S i) n) pf tree (acc ++ [p]))
                             null_posterior) = true
                     /\ existsb zero_likelihood
                          (firstn j (family_posteriors prior (seq (S i) n) pf tree
                                       (acc ++ [p]))) = false
               end).
    { intros pf tree p st1 Hkeys.
      assert (Hi : i < List.length keys) by lia.
      destruct (sim_write _ i st acc pf tree p Hi Hsim) as [Hread Hnext].
      fold st1 in Hread, Hnext. rewrite Hread.
      destruct (family_posteriors_prefix prior (seq (S i) n) pf tree (acc ++ [p]))
        as [rest Erest].
      pose proof (sim_acc_length _ _ _ _ Hsim) as Lacc.
      destruct (max_likelihood p =? 0)%float eqn:Ez.
      - cbn [snd]. exists i. split; [lia|]. split; [|split].
        + unfold zero_posterior_what, family_item. f_equal. f_equal.
          rewrite <- Hkeys, <- nth_item_key. reflexivity.
        + rewrite Erest, <- app_assoc. rewrite app_nth2 by lia.
          rewrite Lacc, Nat.sub_diag. exact Ez.
        + rewrite Erest, <- app_assoc. rewrite firstn_app.
          rewrite Lacc, Nat.sub_diag, firstn_O, app_nil_r.
          rewrite firstn_all2 by lia. exact (sim_nonzero _ _ _ _ Hsim).
      - apply (IH (S i) (gp_add_score st1 i) (acc ++ [p])); [lia|exact Hkeys|].
        apply Hnext. exact Ez. }
    destruct (own_family pitem i).
    + destruct (compute_posterior pitem _ prior) as [[pitem1 tree2] p].
      apply Hstep. etransitivity; [exact Hk1|exact Hk].
    + destruct (sim_read _ _ _ _ (Z.to_nat (ref pitem)) Hsim) as [R1 R2].
      rewrite R1, R2.
      apply (Hstep (gp_family st) (gp_tree st)
               (nth (Z.to_nat (ref pitem)) acc null_posterior)). exact Hk.
Qed.

Lemma gp_init_sim (pf : CafeFamily) (tree : CafeTree) :
  gp_sim (List.length (map item_key (flist pf))) 0 (gp_init pf tree) [].
Proof.
  rewrite length_map. constructor; cbn; try reflexivity.
  - apply repeat_length.
  - apply repeat_length.
  - intros j _. apply nth_repeat.
  - intros j _. apply nth_repeat.
Qed.

(** [get_posterior] against the specification's list. *)
Lemma get_posterior_spec (pf : CafeFamily) (tree : CafeTree) (prior : list float) :
  let n := List.length (flist pf) in
  let posts := family_posteriors prior (seq 0 n) pf tree [] in
  match snd (get_posterior pf tree prior) with
  | Ok s => existsb zero_likelihood posts = false /\ s = sum_log_posteriors posts
  | Throw what =>
      exists j, j < n
        /\ what = zero_posterior_what (family_item pf j)
        /\ zero_likelihood (nth j posts null_posterior) = true
        /\ existsb zero_likelihood (firstn j posts) = false
  end.
Proof.
  intros n posts. unfold get_posterior. fold n.
  pose proof (get_posterior_loop_spec prior (map item_key (flist pf)) n 0
                (gp_init pf tree) []) as H.
  rewrite length_map in H. specialize (H eq_refl eq_refl).
  pose proof (gp_init_sim pf tree) as Hs. rewrite length_map in Hs.
  specialize (H Hs). cbv zeta in H. cbn [gp_init gp_family gp_tree] in H. fold posts in H.
  destruct (get_posterior_loop prior (seq 0 n) (gp_init pf tree)) as [st r].
  cbn [snd] in *. destruct r as [s|what]; [exact H|].
  destruct H as [j [Hj [Hw R]]]. exists j. split; [exact Hj|]. split; [|exact R].
  rewrite Hw. unfold zero_posterior_what, family_item. f_equal. f_equal.
  rewrite <- nth_item_key. reflexivity.
Qed.

Lemma existsb_firstn_false {A : Type} (f : A -> bool) (j : nat) (d : A) (l : list A) :
  f (nth j l d) = true -> existsb f (firstn j l) = false -> j < List.length l ->
  existsb f l = true.
Proof.
  intros H _ Hj. apply existsb_exists. exists (nth j l d). split; [|exact H].
  apply nth_In. exact Hj.
Qed.

Lemma family_posteriors_length prior (idxs : list nat) pf tree (acc : list posterior) :
  List.length (family_posteriors prior idxs pf tree acc)
  = List.length acc + List.length idxs.
Proof.
  revert pf tree acc; induction idxs as [|i idxs IH]; intros pf tree acc;
    cbn [family_posteriors List.length].
  - lia.
  - destruct (own_family (family_item pf i) i).
    + destruct (compute_posterior (family_item pf i) _ prior) as [[pitem1 tree1] p].
      rewrite IH, length_app. cbn. lia.
    + rewrite IH, length_app. cbn. lia.
Qed.

(** The value of the objective, by cases. *)
Lemma posterior_score_value (plambda : list float) (param : CafeParam) :
  let posts := session_posteriors plambda param in
  snd (posterior_score plambda param)
  = if has_negative (num_lambdas param) plambda then log 0%float
    else if existsb zero_likelihood posts then log 0%float
    else sum_log_posteriors posts.
Proof.
  intros posts. unfold posterior_score.
  destruct (has_negative (num_lambdas param) plambda); [reflexivity|].
  set (p2 := set_pcafe (cafe_shell_set_lambdas param plambda) _).
  change p2 with (scoring_session plambda param) in *.
  set (pr := map _ (seq 0 FAMILYSIZEMAX)).
  change pr with (scoring_prior param) in *.
  pose proof (get_posterior_spec (pfamily (scoring_session plambda param))
                (pcafe (scoring_session plambda param)) (scoring_prior param)) as H.
  cbv zeta in H. fold (session_posteriors plambda param) in H. fold posts in H.
  destruct (get_posterior _ _ (scoring_prior param)) as [[pf tree] r].
  cbn [snd] in H. destruct r as [s|what].
  - destruct H as [Hz Hs]. rewrite Hz. cbn [snd]. exact Hs.
  - destruct H as [j [Hj [_ [Hzj Hfirst]]]].
    rewrite (existsb_firstn_false _ j null_posterior posts Hzj Hfirst).
    + destruct (quiet _ =? 0)%Z; reflexivity.
    + unfold posts, session_posteriors. rewrite family_posteriors_length, length_seq.
      cbn. exact Hj.
Qed.

Lemma best_lambda_search_value (plambda : list float) (param : CafeParam) :
  snd (__cafe_best_lambda_search plambda param)
  = (- snd (posterior_score plambda param))%float.
Proof.
  unfold __cafe_best_lambda_search.
  destruct (posterior_score plambda param) as [p1 score]. reflexivity.
Qed.

(** A family that refers to an earlier one has the posteriors of that
    family. *)
Lemma family_posteriors_reuse prior keys (n : nat) :
  forall (i : nat) pf tree (acc : list posterior) (j : nat),
    List.length acc = i ->
    map item_key (flist pf) = keys ->
    i <= j < i + n ->
    (0 <= snd (nth j keys (EmptyString, (-1)%Z)) < Z.of_nat j)%Z ->
    let posts := family_posteriors prior (seq i n) pf tree acc in
    nth j posts null_posterior
    = nth (Z.to_nat (snd (nth j keys (EmptyString, (-1)%Z)))) posts null_posterior.
Proof.
  induction n as [|n IH]; intros i pf tree acc j Hacc Hk Hj Hr posts; [lia|].
  subst posts. cbn [seq family_posteriors].
  assert (Hown : j = i -> own_family (family_item pf i) i = false).
  { intros ->. unfold own_family, family_item.
    change (ref (nth i (flist pf) null_item))
      with (snd (item_key (nth i (flist pf) null_item))).
    rewrite nth_item_key, Hk. apply orb_false_iff. split.
    - apply Z.ltb_ge; lia.
    - apply Z.eqb_neq; lia. }
  destruct (Nat.eq_dec j i) as [E|E].
  - rewrite (Hown E). subst j.
    set (r := snd (nth i keys (EmptyString, (-1)%Z))) in *.
    assert (Er : ref (family_item pf i) = r).
    { unfold family_item, r.
      change (ref (nth i (flist pf) null_item))
        with (snd (item_key (nth i (flist pf) null_item))).
      now rewrite nth_item_key, Hk. }
    rewrite Er.
    destruct (family_posteriors_prefix prior (seq (S i) n) pf tree
                (acc ++ [nth (Z.to_nat r) acc null_posterior])) as [rest Erest].
    rewrite Erest, <- app_assoc.
    rewrite (app_nth2 acc) by lia. rewrite Hacc, Nat.sub_diag.
    rewrite (app_nth1 acc) by lia. reflexivity.
  - destruct (own_family (family_item pf i) i).
    + pose proof (compute_posterior_key (family_item pf i)
                    (cafe_family_set_size pf (family_item pf i) tree) prior) as Hkey.
      destruct (compute_posterior (family_item pf i) _ prior) as [[pitem1 tree1] p].
      cbn [fst] in Hkey.
      apply (IH (S i)); try lia.
      * rewrite length_app. cbn. lia.
      * cbn [flist set_flist]. rewrite <- Hk.
        apply map_set_nth_same with (d := null_item). exact Hkey.
    + apply (IH (S i)); try lia; [|exact Hk].
      rewrite length_app. cbn. lia.
Qed.

(** The posterior score by cases: the penalty for a negative rate, the
    penalty when a family has a best likelihood of exactly 0, else the sum
    of the logs of the best posteriors; with what the evaluation leaves
    alone, and the reuse of the posterior of a referenced family. *)
Lemma posterior_score_cases (plambda : list float) (param : CafeParam) :
  let posts := session_posteriors plambda param in
  let res := __cafe_best_lambda_search plambda param in
  snd res
  = (- (if has_negative (num_lambdas param) plambda then log 0
        else if existsb zero_likelihood posts then log 0
        else sum_log_posteriors posts))%float
  /\ (if has_negative (num_lambdas param) plambda
      then ferr (fst res) = ferr param /\ pfamily (fst res) = pfamily param
           /\ pcafe (fst res) = pcafe param
      else True)
  /\ List.length posts = List.length (flist (pfamily param))
  /\ (forall j : nat,
        let r := ref (family_item (pfamily param) j) in
        j < List.length (flist (pfamily param)) ->
        (0 <= r < Z.of_nat j)%Z ->
        nth j posts null_posterior = nth (Z.to_nat r) posts null_posterior)
  /\ (forall (pitem : CafeFamilyItem) (tree : CafeTree) (prior : list float),
        let tree1 := compute_tree_likelihoods tree in
        max_posterior (snd (compute_posterior pitem tree prior))
        = max_element
            (map (fun s => exp (log (nth s (get_likelihoods tree1) 0)
                                + log (nth s prior 0))%float)
               (seq 0 (Z.to_nat (rfsize tree1))))).
Proof.
  intros posts res. split; [|split; [|split; [|split]]].
  - subst res. rewrite best_lambda_search_value, posterior_score_value. reflexivity.
  - subst res. unfold __cafe_best_lambda_search, posterior_score.
    destruct (has_negative (num_lambdas param) plambda); [|exact I].
    cbn. repeat split.
  - subst posts. unfold session_posteriors.
    rewrite family_posteriors_length, length_seq. reflexivity.
  - intros j r Hj Hr. subst posts. unfold session_posteriors.
    assert (Er : r = snd (nth j (map item_key (flist (pfamily param)))
                            (EmptyString, (-1)%Z))).
    { rewrite <- nth_item_key. reflexivity. }
    rewrite Er in *.
    apply (family_posteriors_reuse (scoring_prior param)
             (map item_key (flist (pfamily param)))); auto.
    cbn in *. lia.
  - intros. reflexivity.
Qed.

Lemma map_seq_const {A : Type} (f : nat -> A) (c : A) (n : nat) :
  forall a, (forall j, a <= j < a + n -> f j = c) -> map f (seq a n) = repeat c n.
Proof.
  induction n as [|n IH]; intros a H; cbn [seq map repeat]; [reflexivity|].
  rewrite (H a) by lia. f_equal. apply IH. intros j Hj. apply H. lia.
Qed.

Lemma fold_left_add_map {A : Type} (f : A -> float) (l : list A) :
  forall s, fold_left (fun s x => (s + f x)%float) l s
            = fold_left (fun s t => (s + t)%float) (map f l) s.
Proof.
  induction l as [|x l IH]; intros s; cbn [fold_left map]; [reflexivity|apply IH].
Qed.

(** A family whose likelihood is 0 at every candidate root size has the
    posterior 0 at every one of them, when the log of no prior entry is
    positive. *)
Lemma posterior_vector_zero (likelihood prior : list float) (n : nat) :
  (forall x, (x =? 0)%float = true -> log x = neg_infinity) ->
  exp neg_infinity = 0%float ->
  (forall j, (log (nth j prior 0) <=? 0)%float = true) ->
  (forall j, j < n -> (nth j likelihood 0 =? 0)%float = true) ->
  posterior_vector likelihood prior n = repeat 0%float n.
Proof.
  intros Hlog Hexp Hprior Hzero. unfold posterior_vector.
  apply map_seq_const. intros j Hj.
  rewrite (Hlog _ (Hzero j ltac:(lia))), add_neg_infinity_l by apply Hprior.
  exact Hexp.
Qed.

Lemma compute_posterior_zero (pitem : CafeFamilyItem) (tree : CafeTree)
    (prior : list float) :
  (forall x, (x =? 0)%float = true -> log x = neg_infinity) ->
  exp neg_infinity = 0%float ->
  (forall t, forallb (fun l => (0 <=? l)%float) (get_likelihoods t) = true) ->
  (forall j, (log (nth j prior 0) <=? 0)%float = true) ->
  zero_likelihood (snd (compute_posterior pitem tree prior)) = true ->
  max_posterior (snd (compute_posterior pitem tree prior)) = 0%float.
Proof.
  intros Hlog Hexp Hlik Hprior. unfold compute_posterior, zero_likelihood, __max.
  cbn [snd max_likelihood max_posterior].
  set (L := get_likelihoods (compute_tree_likelihoods tree)).
  set (n := Z.to_nat (rfsize (compute_tree_likelihoods tree))).
  intros Hmax.
  assert (Hz : forallb (fun x => (x =? 0)%float) (firstn n L) = true).
  { apply max_element_zero; [|exact Hmax]. apply forallb_firstn, Hlik. }
  rewrite posterior_vector_zero; auto using max_element_zeros.
  intros j Hj. destruct (Nat.lt_ge_cases j (List.length L)) as [Hlt|Hge].
  - rewrite <- (nth_firstn_lt n j 0%float L Hj).
    rewrite forallb_forall in Hz. apply Hz, nth_In.
    rewrite length_firstn. lia.
  - rewrite nth_overflow by exact Hge. reflexivity.
Qed.

Lemma family_posteriors_zero (prior : list float) (idxs : list nat) :
  (forall x, (x =? 0)%float = true -> log x = neg_infinity) ->
  exp neg_infinity = 0%float ->
  (forall t, forallb (fun l => (0 <=? l)%float) (get_likelihoods t) = true) ->
  (forall j, (log (nth j prior 0) <=? 0)%float = true) ->
  forall pf tree (acc : list posterior),
    (forall p, In p acc -> zero_likelihood p = true -> max_posterior p = 0%float) ->
    forall p, In p (family_posteriors prior idxs pf tree acc) ->
              zero_likelihood p = true -> max_posterior p = 0%float.
Proof.
  intros Hlog Hexp Hlik Hprior.
  induction idxs as [|i idxs IH]; intros pf tree acc Hacc; cbn [family_posteriors].
  - exact Hacc.
  - destruct (own_family (family_item pf i) i).
    + pose proof (compute_posterior_zero (family_item pf i)
                    (cafe_family_set_size pf (family_item pf i) tree) prior
                    Hlog Hexp Hlik Hprior) as Hc.
      destruct (compute_posterior _ _ prior) as [[pitem1 tree1] p1]. cbn [snd] in Hc.
      apply IH. intros p Hin. apply in_app_or in Hin.
      destruct Hin as [Hin|[<-|[]]]; [now apply Hacc|exact Hc].
    + apply IH. intros p Hin. apply in_app_or in Hin.
      destruct Hin as [Hin|[<-|[]]]; [now apply Hacc|].
      destruct (Nat.lt_ge_cases (Z.to_nat (ref (family_item pf i))) (List.length acc))
        as [Hlt|Hge].
      * apply Hacc, nth_In, Hlt.
      * rewrite nth_overflow by exact Hge. reflexivity.
Qed.

Lemma scoring_prior_logs (param : CafeParam) :
  (forall x, (x =? 0)%float = true -> log x = neg_infinity) ->
  forallb (fun p => (log p <=? 0)%float) (scoring_prior param) = true ->
  forall j, (log (nth j (scoring_prior param) 0) <=? 0)%float = true.
Proof.
  intros Hlog Hall j.
  destruct (Nat.lt_ge_cases j (List.length (scoring_prior param))) as [Hlt|Hge].
  - rewrite forallb_forall in Hall. apply Hall, nth_In, Hlt.
  - rewrite nth_overflow by exact Hge. rewrite Hlog by reflexivity. reflexivity.
Qed.

(** With probabilities for likelihoods, prior and posteriors, the sum of
    the logs of the best posteriors is log(0) as soon as one family has a
    best likelihood of 0: the value the code returns when it catches the
    error for that family. *)
Lemma sum_log_posteriors_zero_family (plambda : list float) (param : CafeParam) :
  let posts := session_posteriors plambda param in
  (forall x, (x =? 0)%float = true -> log x = neg_infinity) ->
  exp neg_infinity = 0%float ->
  (forall t, forallb (fun l => (0 <=? l)%float) (get_likelihoods t) = true) ->
  forallb (fun p => (log p <=? 0)%float) (scoring_prior param) = true ->
  forallb (fun p => (log (max_posterior p) <=? 0)%float) posts = true ->
  existsb zero_likelihood posts = true ->
  sum_log_posteriors posts = log 0.
Proof.
  intros posts Hlog Hexp Hlik Hprior Hposts Hzero.
  rewrite (Hlog 0%float) by reflexivity.
  unfold sum_log_posteriors, sum_log. rewrite fold_left_add_map.
  apply sum_with_neg_infinity.
  - reflexivity.
  - rewrite map_map, forallb_forall. intros t Ht. apply in_map_iff in Ht.
    destruct Ht as [p [<- Hp]]. rewrite forallb_forall in Hposts. exact (Hposts p Hp).
  - apply existsb_exists in Hzero. destruct Hzero as [p [Hp Hz]].
    rewrite map_map. apply in_map_iff. exists p. split; [|exact Hp].
    assert (E : max_posterior p = 0%float).
    { apply (family_posteriors_zero (scoring_prior param)
               (seq 0 (List.length (flist (pfamily (scoring_session plambda param)))))
               Hlog Hexp Hlik (scoring_prior_logs param Hlog Hprior)
               (pfamily (scoring_session plambda param))
               (pcafe (scoring_session plambda param)) []); auto.
      intros q []. }
    rewrite E. apply Hlog. reflexivity.
Qed.

(** Claim C1.  The posterior score is defined for every rate vector and
    the optimizer sees its negation.  With a negative rate component the
    score is log(0), nothing is evaluated and no error is reported.  With
    no negative component it is the sum over all families of
    log(max over the candidate root sizes s of
    exp(log(likelihood[s]) + log(prior[s]))), where a family whose [ref]
    points to an earlier family has the posterior of that family.  This is
    on the inputs of the data model: likelihoods that are not negative, a
    prior and best posteriors that are probabilities (their logs are not
    positive), and a libm with log(0) = -inf and exp(-inf) = 0. *)
Theorem posterior_score_is_sum_of_log_posteriors
    (plambda : list float) (param : CafeParam) :
  let posts := session_posteriors plambda param in
  let res := __cafe_best_lambda_search plambda param in
  (forall x, (x =? 0)%float = true -> log x = neg_infinity) ->
  exp neg_infinity = 0%float ->
  (forall t, forallb (fun l => (0 <=? l)%float) (get_likelihoods t) = true) ->
  forallb (fun p => (log p <=? 0)%float) (scoring_prior param) = true ->
  forallb (fun p => (log (max_posterior p) <=? 0)%float) posts = true ->
  snd res
  = (- (if has_negative (num_lambdas param) plambda then log 0
        else sum_log_posteriors posts))%float
  /\ (if has_negative (num_lambdas param) plambda
      then ferr (fst res) = ferr param /\ pfamily (fst res) = pfamily param
           /\ pcafe (fst res) = pcafe param
      else True)
  /\ List.length posts = List.length (flist (pfamily param))
  /\ (forall j : nat,
        let r := ref (family_item (pfamily param) j) in
        j < List.length (flist (pfamily param)) ->
        (0 <= r < Z.of_nat j)%Z ->
        nth j posts null_posterior = nth (Z.to_nat r) posts null_posterior)
  /\ (forall (pitem : CafeFamilyItem) (tree : CafeTree) (prior : list float),
        let tree1 := compute_tree_likelihoods tree in
        max_posterior (snd (compute_posterior pitem tree prior))
        = max_element
            (map (fun s => exp (log (nth s (get_likelihoods tree1) 0)
                                + log (nth s prior 0))%float)
               (seq 0 (Z.to_nat (rfsize tree1))))).
Proof.
  intros posts res Hlog Hexp Hlik Hprior Hposts.
  destruct (posterior_score_cases plambda param) as [Hs [Hn [Hlen [Hreuse Hmax]]]].
  fold posts in Hs, Hlen, Hreuse. fold res in Hs, Hn.
  split; [|repeat split; assumption].
  rewrite Hs. destruct (has_negative (num_lambdas param) plambda); [reflexivity|].
  destruct (existsb zero_likelihood posts) eqn:Hz; [|reflexivity].
  subst posts.
  now rewrite (sum_log_posteriors_zero_family plambda param Hlog Hexp Hlik Hprior Hposts Hz).
Qed.

(** Claim C2 (amended).  When no rate is negative and some family has a
    best likelihood of exactly 0, [get_posterior] throws an error that
    names the first such family; the objective catches it, writes the
    message to the error stream unless the session is quiet, and returns
    the negated log(0) penalty: the search goes on. *)
Theorem zero_likelihood_is_caught_and_penalized
    (plambda : list float) (param : CafeParam) :
  let posts := session_posteriors plambda param in
  let p := scoring_session plambda param in
  let res := __cafe_best_lambda_search plambda param in
  has_negative (num_lambdas param) plambda = false ->
  existsb zero_likelihood posts = true ->
  exists j : nat,
    j < List.length (flist (pfamily param))
    /\ zero_likelihood (nth j posts null_posterior) = true
    /\ existsb zero_likelihood (firstn j posts) = false
    /\ snd (get_posterior (pfamily p) (pcafe p) (scoring_prior param))
       = Throw (zero_posterior_what (family_item (pfamily param) j))
    /\ snd res = (- log 0)%float
    /\ ferr (fst res)
       = ferr param
         ++ (if (quiet param =? 0)%Z
             then [zero_posterior_what (family_item (pfamily param) j)] else []).
Proof.
  intros posts p res Hneg Hzero.
  pose proof (get_posterior_spec (pfamily p) (pcafe p) (scoring_prior param)) as H.
  cbv zeta in H. change (family_posteriors _ _ _ _ []) with posts in H.
  subst res. unfold __cafe_best_lambda_search, posterior_score. rewrite Hneg.
  set (p2 := set_pcafe (cafe_shell_set_lambdas param plambda) _).
  change p2 with p in *.
  set (pr := map _ (seq 0 FAMILYSIZEMAX)).
  change pr with (scoring_prior param) in *.
  destruct (get_posterior (pfamily p) (pcafe p) (scoring_prior param)) as [[pf tree] r].
  cbn [snd] in H. destruct r as [s|what].
  - destruct H as [Hz _]. rewrite Hz in Hzero. discriminate.
  - destruct H as [j [Hj [Hw [Hzj Hfirst]]]]. exists j.
    change (pfamily p) with (pfamily param) in *.
    split; [exact Hj|]. split; [exact Hzj|]. split; [exact Hfirst|].
    split; [cbn [snd]; now rewrite Hw|].
    change (quiet (set_pcafe (set_pfamily p pf) tree)) with (quiet param).
    destruct (quiet param =? 0)%Z; cbn; try rewrite Hw; split; try reflexivity.
    now rewrite app_nil_r.
Qed.

(** ** GridScanner *)

Lemma best_lambda_search_score (plambda : list float) (param : CafeParam) :
  pfamily (fst (__cafe_best_lambda_search plambda param))
  = pfamily (fst (posterior_score plambda param))
  /\ (- snd (__cafe_best_lambda_search plambda param))%float
     = snd (posterior_score plambda param).
Proof.
  unfold __cafe_best_lambda_search.
  destruct (posterior_score plambda param) as [p1 score]. cbn.
  split; [reflexivity | apply float_opp_involutive].
Qed.


Lemma distribution_step_matrix range (st : CafeParam * GMatrix) (i : nat) :
  let st1 := distribution_step range st i in
  dimsize (snd st1) = dimsize (snd st)
  /\ num_elements (snd st1) = num_elements (snd st)
  /\ gm_data (snd st1)
     = set_nth i (snd (posterior_score
                         (grid_point range (dim_index (dimsize (snd st)) (Z.of_nat i)))
                         (fst st)))
         (gm_data (snd st)).
Proof.
  destruct st as [param pgm]. unfold distribution_step, gmatrix_dim_index.
  cbn [fst snd].
  pose proof (best_lambda_search_score
                (grid_point range (dim_index (dimsize pgm) (Z.of_nat i))) param) as [_ Hs].
  destruct (__cafe_best_lambda_search _ param) as [p1 r]. cbn [snd] in Hs.
  cbn. rewrite Nat2Z.id, Hs. auto.
Qed.

Lemma distribution_steps_matrix range (l : list nat) (st : CafeParam * GMatrix) :
  let st1 := fold_left (distribution_step range) l st in
  dimsize (snd st1) = dimsize (snd st)
  /\ List.length (gm_data (snd st1)) = List.length (gm_data (snd st))
  /\ forall j, ~ In j l -> nth j (gm_data (snd st1)) 0%float = nth j (gm_data (snd st)) 0%float.
Proof.
  revert st; induction l as [|i l IH]; intros st; cbn [fold_left]; [auto|].
  destruct (IH (distribution_step range st i)) as [H1 [H2 H3]].
  destruct (distribution_step_matrix range st i) as [D1 [_ D3]].
  cbv zeta. rewrite H1, H2, D1, D3, length_set_nth. split; [reflexivity|].
  split; [reflexivity|]. intros j Hj. rewrite H3 by (intro; apply Hj; now right).
  rewrite D3. apply nth_set_nth_neq. intro; apply Hj; now left.
Qed.

(** After the scan the matrix holds, at [j], the score of the grid point
    [j], evaluated on the session the points before it left. *)
Lemma scan_data (param : CafeParam) (range : list lambda_range) (n j : nat) :
  let size := map grid_size range in
  j < n -> n = Z.to_nat (fold_right Z.mul 1%Z size) ->
  nth j (gm_data (snd (scan_state param range n))) 0%float
  = snd (posterior_score (grid_point range (dim_index size (Z.of_nat j)))
           (fst (scan_state param range j))).
Proof.
  intros size Hj Hn. unfold scan_state.
  replace n with (j + S (n - S j)) at 1 by lia.
  rewrite seq_app, fold_left_app. cbn [seq fold_left Nat.add].
  set (stj := fold_left (distribution_step range) (seq 0 j) _).
  destruct (distribution_steps_matrix range (seq 0 j)
              (param, gmatrix_double_new (map grid_size range))) as [D [L _]].
  fold stj in D, L. cbn [snd gmatrix_double_new dimsize gm_data] in D, L.
  rewrite repeat_length in L. fold size in D, L.
  destruct (distribution_steps_matrix range (seq (S j) (n - S j))
              (distribution_step range stj j)) as [_ [_ K]].
  rewrite K by (rewrite in_seq; lia).
  destruct (distribution_step_matrix range stj j) as [_ [_ E]].
  rewrite E, D. apply nth_set_nth_eq. rewrite L. lia.
Qed.

Lemma tsv_tail_app (l : list float) (v : float) :
  tsv_tail (l ++ [v]) = fold_right (fun x s => (tab ++ printf_lf x ++ s)%string)
                          (tab ++ printf_lf v ++ endl)%string l.
Proof.
  induction l as [|x l IH]; cbn; [reflexivity|]. now rewrite IH.
Qed.

Lemma fold_left_tabs (f : nat -> float) (l : list nat) (s rest : string) :
  (fold_left (fun s k => s ++ tab ++ printf_lf (f k)) l s ++ rest
   = s ++ fold_right (fun x r => tab ++ printf_lf x ++ r) rest (map f l))%string.
Proof.
  revert s; induction l as [|k l IH]; intros s; cbn [fold_left map fold_right];
    [reflexivity|].
  rewrite IH, !string_append_assoc. reflexivity.
Qed.

(** The row of the grid point [j] is the row of its coordinates and of
    the value the matrix holds for it. *)
Lemma distribution_row_tsv (range : list lambda_range) (pgm : GMatrix) (j : nat) :
  range <> [] ->
  distribution_row range pgm j
  = tsv_row (grid_point range (gmatrix_dim_index pgm (Z.of_nat j))
             ++ [gmatrix_double_get_with_index pgm (Z.of_nat j)]).
Proof.
  intros Hr. unfold distribution_row, grid_point.
  destruct range as [|r0 range]; [contradiction|].
  cbn [List.length].
  replace (S (List.length range) - 1) with (List.length range) by lia.
  cbn [seq map app tsv_row].
  rewrite fold_left_tabs, tsv_tail_app.
  rewrite (float_mul_comm (range_step (nth 0 (r0 :: range) null_range))).
  f_equal. f_equal. apply map_ext. intros k. now rewrite float_mul_comm.
Qed.

(** The number of points of a scan that fits an [int]. *)
Lemma scan_fits_int_points (range : list lambda_range) :
  scan_fits_int range = true ->
  (1 <= fold_right Z.mul 1%Z (map grid_size range) <= INT_MAX)%Z.
Proof.
  unfold scan_fits_int. intros H. apply andb_true_iff in H. destruct H as [Hs Hp].
  apply Z.leb_le in Hp. split; [|exact Hp]. clear Hp.
  induction range as [|r range IH]; cbn [map fold_right]; [lia|].
  cbn [forallb] in Hs. apply andb_true_iff in Hs. destruct Hs as [Hr Hs].
  apply Z.leb_le in Hr. specialize (IH Hs). nia.
Qed.

(** Claim C7 (amended).  For a grid scan over the ranges (start, step,
    end) whose sizes fit an [int], the number of grid points of a
    dimension is 1 more than the integer nearest to
    [(end - start) / step], the even one when two integers are equally
    near (C's [rint], not [round]); it is 1 when the quotient is zero.
    The scan has at least one point; written to a file, it adds exactly
    one row per index of the cartesian product, and the row of an index
    holds the tab-separated coordinates [step * idx + start] of its point
    followed by the score evaluated at that point; every point of the
    cartesian product has an index. *)
Theorem grid_scan_writes_one_row_per_point
    (param : CafeParam) (range : list lambda_range) (rows0 : list string) :
  let size := map grid_size range in
  let n := Z.to_nat (fold_right Z.mul 1%Z size) in
  let p1 := set_num_lambdas param (Z.of_nat (List.length range)) in
  let point j := grid_point range (dim_index size (Z.of_nat j)) in
  let score j := snd (posterior_score (point j) (fst (scan_state p1 range j))) in
  range <> [] ->
  scan_fits_int range = true ->
  (forall (r : lambda_range) (s : bool) (m : positive) (e k : Z),
      Prim2SF ((range_end r - range_start r) / range_step r)%float = S754_finite s m e ->
      nearest_integer_ties_even m e k ->
      (k < INT_MAX)%Z ->
      grid_size r = (1 + (if s then - k else k))%Z)
  /\ (forall (r : lambda_range) (s : bool) (m : positive) (e : Z),
        Prim2SF ((range_end r - range_start r) / range_step r)%float = S754_finite s m e ->
        exists k : Z, nearest_integer_ties_even m e k)
  /\ (forall (r : lambda_range) (s : bool),
        Prim2SF ((range_end r - range_start r) / range_step r)%float = S754_zero s ->
        grid_size r = 1%Z)
  /\ (1 <= Z.of_nat n <= INT_MAX)%Z
  /\ Z.of_nat n = fold_right Z.mul 1%Z size
  /\ snd (write_lambda_distribution param range (Some rows0))
     = Some (rows0 ++ map (fun j => tsv_row (point j ++ [score j])) (seq 0 n))
  /\ List.length (map (fun j => tsv_row (point j ++ [score j])) (seq 0 n)) = n
  /\ (forall idx : list Z,
        Forall2 (fun i s => (0 <= i < s)%Z) idx size ->
        exists j, j < n /\ dim_index size (Z.of_nat j) = idx)
  /\ (forall (idx : list Z) (k : nat),
        k < List.length range ->
        nth k (grid_point range idx) 0%float
        = (range_step (nth k range null_range) * int_to_double (nth k idx 0%Z)
           + range_start (nth k range null_range))%float).
Proof.
  intros size n p1 point score Hr Hfits.
  pose proof (scan_fits_int_points range Hfits) as Hpoints. fold size in Hpoints.
  split; [exact grid_size_nearest|].
  split.
  { intros r s m e Hq. destruct (Z.lt_ge_cases e 0) as [He|He].
    - destruct (rint_nearest _ s m e Hq He) as [k [Hk _]]. exists k. exact Hk.
    - exists (Zpos m * 2 ^ e)%Z. unfold nearest_integer_ties_even.
      destruct (0 <=? e)%Z eqn:E; [reflexivity|apply Z.leb_gt in E; lia]. }
  split; [exact grid_size_zero|].
  split; [subst n; rewrite Z2Nat.id; lia|].
  split; [subst n; rewrite Z2Nat.id; lia|].
  split; [|split; [|split]].
  - unfold write_lambda_distribution. fold p1.
    assert (Efinal : cafe_lambda_distribution p1 range = scan_state p1 range n) by reflexivity.
    rewrite Efinal.
    destruct (distribution_steps_matrix range (seq 0 n)
                (p1, gmatrix_double_new (map grid_size range))) as [D _].
    fold (scan_state p1 range n) in D. cbn [snd gmatrix_double_new dimsize] in D.
    fold size in D.
    assert (En : num_elements (snd (scan_state p1 range n)) = fold_right Z.mul 1%Z size).
    { unfold scan_state. generalize (seq 0 n) as l.
      assert (G : forall l st, num_elements (snd (fold_left (distribution_step range) l st))
                               = num_elements (snd st)).
      { induction l as [|i l IH]; intros st; cbn [fold_left]; [reflexivity|].
        rewrite IH. apply (distribution_step_matrix range st i). }
      intros l. rewrite G. reflexivity. }
    pose proof (scan_data p1 range n) as Hdata. cbv zeta in Hdata. fold size in Hdata.
    destruct (scan_state p1 range n) as [p2 pgm] eqn:Es. cbn [snd] in *.
    rewrite En. fold n. f_equal. f_equal. apply map_ext_in. intros j Hj.
    apply in_seq in Hj. rewrite distribution_row_tsv by exact Hr.
    unfold gmatrix_dim_index, gmatrix_double_get_with_index. rewrite D, Nat2Z.id.
    rewrite Hdata by (auto; lia). reflexivity.
  - rewrite length_map, length_seq. reflexivity.
  - intros idx Hidx. destruct (dim_index_onto size idx Hidx) as [j [Hj E]].
    exists (Z.to_nat j). split; [subst n; lia|]. rewrite Z2Nat.id by lia. exact E.
  - intros idx k Hk. unfold grid_point. now rewrite nth_map_seq.
Qed.

(** ** The convergence check *)

(** The footprint of the posterior objective leaves [checkconv] alone. *)
Lemma best_lambda_search_checkconv (plambda : list float) (param : CafeParam) :
  checkconv (fst (__cafe_best_lambda_search plambda param)) = checkconv param.
Proof.
  unfold __cafe_best_lambda_search, posterior_score.
  destruct (has_negative (num_lambdas param) plambda); [reflexivity|].
  destruct (get_posterior _ _ _) as [[pf tree] [s|what]]; [reflexivity|].
  cbn. destruct (quiet param =? 0)%Z; reflexivity.
Qed.

(** A property [P] of the session that the objectives keep, and a property
    [Q] of the optimizer handle that every [fminsearch_min] on a handle
    with [Q0] establishes, hold after the EM loop. *)
Lemma em_loop_invariant (P : CafeParam -> Prop) (Q0 Q : FMinSearch -> Prop)
    (lambda_len k : Z) :
  (forall x p, P p -> P (fst (__cafe_cluster_lambda_search x p))) ->
  (forall p v, P p -> P (set_input_parameters p v)) ->
  (forall (eq : list float -> CafeParam -> CafeParam * float) pfm X0 s,
      Q0 pfm -> Q (snd (fminsearch_min eq pfm X0 s))) ->
  (forall pfm, Q pfm -> Q0 pfm) ->
  forall fuel pfm param current_p p1 pfm1,
    P param -> Q0 pfm ->
    em_loop fuel lambda_len k pfm param current_p = Some (p1, pfm1) ->
    P p1 /\ Q pfm1.
Proof.
  intros Hobj Hset Hq Hw fuel; induction fuel as [|fuel IH];
    intros pfm param current_p p1 pfm1 HP HQ E; [discriminate|].
  cbn [em_loop] in E. unfold em_pass in E.
  pose proof (fminsearch_min_invariant P __cafe_cluster_lambda_search Hobj pfm
                (input_parameters (em_reseed lambda_len k param))
                (em_reseed lambda_len k param) (Hset _ _ HP)) as HP2.
  pose proof (Hq __cafe_cluster_lambda_search pfm
                (input_parameters (em_reseed lambda_len k param))
                (em_reseed lambda_len k param) HQ) as HQ2.
  destruct (fminsearch_min __cafe_cluster_lambda_search pfm _ _) as [p2 pfm2].
  cbn [fst snd] in HP2, HQ2.
  destruct (em_continue pfm2 _ current_p).
  - eapply IH; [| |exact E]; auto.
  - inversion E; subst. auto.
Qed.

Lemma search_optimize_invariant (P : CafeParam -> Prop) (Q0 Q : FMinSearch -> Prop)
    (emfuel : nat) (lambda_len k : Z) (rnd : list float) :
  (forall x p, P p -> P (fst (__cafe_cluster_lambda_search x p))) ->
  (forall x p, P p -> P (fst (__cafe_best_lambda_search x p))) ->
  (forall p v, P p -> P (set_input_parameters p v)) ->
  (forall p v, P p -> P (set_k_weights p v)) ->
  (forall p v, P p -> P (set_pcafe p v)) ->
  (forall (eq : list float -> CafeParam -> CafeParam * float) pfm X0 s,
      Q0 pfm -> Q (snd (fminsearch_min eq pfm X0 s))) ->
  (forall pfm, Q pfm -> Q0 pfm) ->
  (forall N, Q0 (set_tol (fminsearch_new_with_eq N) 1e-5 1e-5)) ->
  (forall N, Q0 (set_tol (fminsearch_new_with_eq N) 1e-6 1e-6)) ->
  forall param p1 pfm1,
    P param ->
    search_optimize emfuel lambda_len k rnd param = Some (p1, pfm1) ->
    P p1 /\ Q pfm1.
Proof.
  intros Hc Hb Hsi Hsk Hsp Hq Hw Q5 Q6 param p1 pfm1 HP E.
  unfold search_optimize in E.
  set (pr := if (0 <? num_params param)%Z then _ else param) in E.
  assert (HPr : P pr).
  { unfold pr. destruct (0 <? num_params param)%Z; [|exact HP].
    destruct (input_values_randomize _ _ _ _) as [ps kw]. auto. }
  clearbody pr.
  set (p2 := set_pcafe pr _) in E.
  assert (HP2 : P p2) by (unfold p2; auto). clearbody p2.
  destruct (0 <? k)%Z.
  - pose proof (fminsearch_min_invariant P __cafe_cluster_lambda_search Hc
                  (set_tol (fminsearch_new_with_eq (num_params p2)) 1e-5 1e-5)
                  (copy_prefix (num_params p2) (input_parameters p2)
                     (repeat 0%float (Z.to_nat (num_params p2)))) p2 HP2) as H3.
    pose proof (Hq __cafe_cluster_lambda_search
                  (set_tol (fminsearch_new_with_eq (num_params p2)) 1e-5 1e-5)
                  (copy_prefix (num_params p2) (input_parameters p2)
                     (repeat 0%float (Z.to_nat (num_params p2)))) p2 (Q5 _)) as Q3.
    destruct (fminsearch_min __cafe_cluster_lambda_search _ _ p2) as [p3 pfm3].
    cbn [fst snd] in H3, Q3.
    eapply (em_loop_invariant P Q0 Q); [exact Hc|exact Hsi|exact Hq|exact Hw| | |exact E];
      auto.
  - pose proof (fminsearch_min_invariant P __cafe_best_lambda_search Hb
                  (set_tol (fminsearch_new_with_eq lambda_len) 1e-6 1e-6)
                  (copy_prefix (num_params p2) (input_parameters p2)
                     (repeat 0%float (Z.to_nat (num_params p2)))) p2 HP2) as H3.
    pose proof (Hq __cafe_best_lambda_search
                  (set_tol (fminsearch_new_with_eq lambda_len) 1e-6 1e-6)
                  (copy_prefix (num_params p2) (input_parameters p2)
                     (repeat 0%float (Z.to_nat (num_params p2)))) p2 (Q6 _)) as Q3.
    destruct (fminsearch_min __cafe_best_lambda_search _ _ p2) as [p3 pfm3].
    cbn [fst snd] in H3, Q3. inversion E; subst. auto.
Qed.

(** Without mixture the optimization of a run always returns. *)
Lemma search_optimize_total (emfuel : nat) (lambda_len k : Z) (rnd : list float)
    (param : CafeParam) :
  (k <= 0)%Z -> exists r, search_optimize emfuel lambda_len k rnd param = Some r.
Proof.
  intros Hk. unfold search_optimize.
  replace (0 <? k)%Z with false by (symmetry; apply Z.ltb_ge; lia).
  destruct (fminsearch_min __cafe_best_lambda_search _ _ _) as [p3 pfm3].
  eexists. reflexivity.
Qed.

(** The rule of one run: the score is recorded, the run is counted, and
    from the second run on the score is compared with the best so far. *)
Lemma search_run_rule (emfuel : nat) (lambda_len k : Z) (rnd : list float)
    (st st1 : search_state) :
  search_run emfuel lambda_len k rnd st = Some st1 ->
  exists p pfm,
    search_optimize emfuel lambda_len k rnd (ss_param st) = Some (p, pfm)
    /\ runs st1 = (runs st + 1)%Z
    /\ scores st1 = set_nth (Z.to_nat (runs st)) (fv pfm) (scores st)
    /\ converged st1
       = (if ((0 <? runs st)%Z && close_to_best (scores st) (runs st) pfm)%bool
          then 1%Z else converged st)
    /\ checkconv (ss_param st1) = checkconv p.
Proof.
  unfold search_run. intros E.
  destruct (search_optimize emfuel lambda_len k rnd (ss_param st)) as [[p pfm]|];
    [|discriminate].
  inversion E; subst; clear E. exists p, pfm. cbn.
  split; [reflexivity|]. split; [reflexivity|]. split; [reflexivity|]. split.
  - destruct (0 <? runs st)%Z; [|reflexivity].
    destruct (close_to_best (scores st) (runs st) pfm); reflexivity.
  - unfold log_search_result. destruct (0 <? k)%Z; [|reflexivity].
    cbn. destruct (fixcluster0 p =? 0)%Z; cbn;
      destruct (0 <? parameterized_k_value p)%Z; reflexivity.
Qed.

(** The runs are counted one by one and the loop makes at most [n]. *)
Lemma search_runs_count (n emfuel : nat) (lambda_len k : Z) (rnd : nat -> list float) :
  forall st st1,
    search_runs n emfuel lambda_len k rnd st = Some st1 ->
    (runs st <= runs st1 <= runs st + Z.of_nat n)%Z
    /\ (0 < n -> (runs st < runs st1)%Z).
Proof.
  induction n as [|n IH]; intros st st1 E; cbn [search_runs] in E.
  - inversion E; subst. lia.
  - destruct (search_run emfuel lambda_len k (rnd (Z.to_nat (runs st))) st) as [st2|] eqn:E2;
      [|discriminate].
    destruct (search_run_rule _ _ _ _ _ _ E2) as [p [pfm [_ [Hr _]]]].
    destruct (search_again st2).
    + destruct (IH _ _ E) as [H1 _]. lia.
    + inversion E; subst. lia.
Qed.

Lemma tolf_is_set_positive (pfm : FMinSearch) :
  tolf_is_set pfm -> (0 <? 10 * tolf pfm)%float = true.
Proof.
  intros [E|E]; rewrite E; vm_compute; reflexivity.
Qed.

(** A run of a search whose optimizer always reports the value [c]. *)
Lemma fmin_evals_seen {S : Type} (c : float) (eq : list float -> S -> S * float)
    (pfm : FMinSearch) (X0 : list float) :
  (forall x s, snd (eq x s) = c) ->
  forall fuel seen s,
    Forall (fun xv => snd xv = c) seen ->
    Forall (fun xv : list float * float => snd xv = c)
      (snd (fmin_evals eq pfm X0 fuel seen s)).
Proof.
  intros Hc. induction fuel as [|fuel IH]; intros seen s Hseen; cbn [fmin_evals].
  - exact Hseen.
  - destruct (fmin_next pfm X0 seen) as [x|]; [|exact Hseen].
    specialize (Hc x s). destruct (eq x s) as [s1 v]. cbn [snd] in Hc.
    apply IH. apply Forall_app. split; [exact Hseen|]. constructor; [exact Hc|constructor].
Qed.

Lemma fmin_evals_grows {S : Type} (eq : list float -> S -> S * float)
    (pfm : FMinSearch) (X0 : list float) :
  forall fuel seen s,
    exists more, snd (fmin_evals eq pfm X0 fuel seen s) = seen ++ more.
Proof.
  induction fuel as [|fuel IH]; intros seen s; cbn [fmin_evals].
  - exists []. now rewrite app_nil_r.
  - destruct (fmin_next pfm X0 seen) as [x|]; [|exists []; now rewrite app_nil_r].
    destruct (eq x s) as [s1 v]. destruct (IH (seen ++ [(x, v)]) s1) as [more E].
    exists ((x, v) :: more). rewrite E, <- app_assoc. reflexivity.
Qed.

(** On an objective that takes the value [c] everywhere, an optimizer
    that evaluates it at least once and reports a value it has seen
    reports [c]. *)
Lemma fminsearch_min_constant {S : Type} (c : float) (eq : list float -> S -> S * float)
    (pfm : FMinSearch) (X0 : list float) (s : S) :
  reports_seen_value -> evaluates_once ->
  (forall x s, snd (eq x s) = c) ->
  fv (snd (fminsearch_min eq pfm X0 s)) = c.
Proof.
  intros Hrep [Hfuel Hnext] Hc. unfold fminsearch_min.
  pose proof (fmin_evals_seen c eq pfm X0 Hc fmin_maxeval [] s (Forall_nil _)) as Hall.
  assert (Hne : snd (fmin_evals eq pfm X0 fmin_maxeval [] s) <> []).
  { destruct fmin_maxeval as [|fuel]; [lia|]. cbn [fmin_evals].
    specialize (Hnext pfm X0). destruct (fmin_next pfm X0 []) as [x|]; [|contradiction].
    destruct (eq x s) as [s1 v].
    destruct (fmin_evals_grows eq pfm X0 fuel ([] ++ [(x, v)]) s1) as [more E].
    rewrite E. discriminate. }
  destruct (fmin_evals eq pfm X0 fmin_maxeval [] s) as [s1 seen]. cbn [snd] in Hall, Hne.
  specialize (Hrep pfm X0 seen Hne).
  destruct (fmin_report pfm X0 seen) as [[it v] x]. cbn [fst snd fv] in *.
  apply in_map_iff in Hrep. destruct Hrep as [xv [<- Hin]].
  rewrite Forall_forall in Hall. exact (Hall xv Hin).
Qed.

Lemma em_loop_last (lambda_len k : Z) :
  forall fuel pfm param current_p p1 pfm1,
    em_loop fuel lambda_len k pfm param current_p = Some (p1, pfm1) ->
    exists pfm0 X0 s,
      pfm1 = snd (fminsearch_min __cafe_cluster_lambda_search pfm0 X0 s).
Proof.
  induction fuel as [|fuel IH]; intros pfm param cp p1 pfm1 E; [discriminate|].
  cbn [em_loop] in E. unfold em_pass in E.
  set (q := em_reseed lambda_len k param) in E.
  destruct (fminsearch_min __cafe_cluster_lambda_search pfm (input_parameters q) q)
    as [p2 pfm2] eqn:Em.
  destruct (em_continue pfm2 _ cp).
  - exact (IH _ _ _ _ _ E).
  - inversion E; subst. exists pfm, (input_parameters q), q. now rewrite Em.
Qed.

(** The optimizer handle a run ends with comes from a minimization of the
    objective of the search. *)
Lemma search_optimize_last (emfuel : nat) (lambda_len k : Z) (rnd : list float)
    (param p : CafeParam) (pfm : FMinSearch) :
  search_optimize emfuel lambda_len k rnd param = Some (p, pfm) ->
  exists pfm0 X0 s, pfm = snd (fminsearch_min (search_objective k) pfm0 X0 s).
Proof.
  unfold search_optimize, search_objective.
  set (p1 := if (0 <? num_params param)%Z then _ else param).
  set (p2 := set_pcafe p1 _).
  destruct (0 <? k)%Z.
  - set (pfm0 := set_tol _ 1e-5 1e-5). set (X0 := copy_prefix _ _ _).
    destruct (fminsearch_min __cafe_cluster_lambda_search pfm0 X0 p2) as [p3 pfm1].
    intros E. exact (em_loop_last _ _ _ _ _ _ _ _ E).
  - set (pfm0 := set_tol _ 1e-6 1e-6). set (X0 := copy_prefix _ _ _).
    destruct (fminsearch_min __cafe_best_lambda_search pfm0 X0 p2) as [p3 pfm1] eqn:Em.
    intros E. inversion E; subst. exists pfm0, X0, p2. now rewrite Em.
Qed.

Lemma constant_run (c : float) (emfuel : nat) (lambda_len k : Z) (rnd : list float)
    (st st1 : search_state) :
  reports_seen_value -> evaluates_once ->
  (forall x p, snd (search_objective k x p) = c) ->
  (forall x p, checkconv (fst (__cafe_cluster_lambda_search x p)) = checkconv p) ->
  search_run emfuel lambda_len k rnd st = Some st1 ->
  exists pfm,
    tolf_is_set pfm /\ fv pfm = c
    /\ runs st1 = (runs st + 1)%Z
    /\ scores st1 = set_nth (Z.to_nat (runs st)) c (scores st)
    /\ converged st1
       = (if ((0 <? runs st)%Z && close_to_best (scores st) (runs st) pfm)%bool
          then 1%Z else converged st)
    /\ checkconv (ss_param st1) = checkconv (ss_param st).
Proof.
  intros Hrep Hev Hconst Hcluster E.
  destruct (search_run_rule _ _ _ _ _ _ E) as [p [pfm [Eo [Hr [Hs [Hc Hcc]]]]]].
  destruct (search_optimize_invariant
              (fun q => checkconv q = checkconv (ss_param st))
              tolf_is_set tolf_is_set
              emfuel lambda_len k rnd) with (param := ss_param st) (p1 := p) (pfm1 := pfm)
    as [HP HQ]; auto.
  - intros x q Hq. now rewrite Hcluster.
  - intros x q Hq. now rewrite best_lambda_search_checkconv.
  - intros eq f X0 s Hf.
    unfold tolf_is_set. now rewrite (proj2 (fminsearch_min_tol eq f X0 s)).
  - intros N. left. reflexivity.
  - intros N. right. reflexivity.
  - assert (Hfv : fv pfm = c).
    { destruct (search_optimize_last _ _ _ _ _ _ _ Eo) as [pfm0 [X0 [s ->]]].
      apply fminsearch_min_constant; assumption. }
    exists pfm. rewrite Hfv in Hs. repeat split; auto. congruence.
Qed.

Lemma constant_score_converges_in_two_runs (c : float) (emfuel : nat)
    (param : CafeParam) (lambda_len k : Z) (rnd : nat -> list float) :
  is_finite c = true ->
  reports_seen_value -> evaluates_once ->
  (forall x p, snd (search_objective k x p) = c) ->
  (forall x p, checkconv (fst (__cafe_cluster_lambda_search x p)) = checkconv p) ->
  checkconv param <> 0%Z ->
  match cafe_best_lambda_by_fminsearch emfuel param lambda_len k rnd with
  | Some st =>
      runs st = 2%Z /\ converged st = 1%Z
      /\ last (flog (ss_param st)) (EmptyString, [])
         = ("score converged in %d runs.\n"%string, [AInt 2])
  | None => (0 < k)%Z
  end.
Proof.
  intros Hfin Hrep Hev Hconst Hcluster Hcc. unfold cafe_best_lambda_by_fminsearch.
  set (st0 := mk_search_state param _ 0 0).
  assert (Hnone : forall r st, search_run emfuel lambda_len k r st = None -> (0 < k)%Z).
  { intros r st E. destruct (Z.ltb_spec 0 k) as [H|H]; [exact H|].
    unfold search_run in E.
    destruct (search_optimize_total emfuel lambda_len k r (ss_param st) H) as [[p pfm] Eo].
    rewrite Eo in E. discriminate. }
  change (Z.to_nat max_runs) with 10. cbn [search_runs].
  destruct (search_run emfuel lambda_len k (rnd (Z.to_nat (runs st0))) st0) as [st1|] eqn:E1;
    [|exact (Hnone _ _ E1)].
  destruct (constant_run c _ _ _ _ _ _ Hrep Hev Hconst Hcluster E1)
    as [pfm1 [_ [_ [Hr1 [Hs1 [Hc1 Hk1]]]]]].
  subst st0. cbn [runs scores converged ss_param] in Hr1, Hs1, Hc1, Hk1.
  change (0 + 1)%Z with 1%Z in Hr1.
  change (set_nth (Z.to_nat 0) c (repeat 0%float (Z.to_nat max_runs)))
    with (c :: repeat 0%float 9) in Hs1.
  change (0 <? 0)%Z with false in Hc1. cbn [andb] in Hc1.
  assert (Ha1 : search_again st1 = true).
  { unfold search_again. rewrite Hk1, Hc1, Hr1.
    destruct (Z.eqb_spec (checkconv param) 0); [contradiction|reflexivity]. }
  rewrite Ha1.
  destruct (search_run emfuel lambda_len k (rnd (Z.to_nat (runs st1))) st1) as [st2|] eqn:E2;
    [|exact (Hnone _ _ E2)].
  destruct (constant_run c _ _ _ _ _ _ Hrep Hev Hconst Hcluster E2)
    as [pfm2 [Ht2 [Hf2 [Hr2 [_ [Hc2 Hk2]]]]]].
  rewrite Hr1 in Hr2, Hc2. rewrite Hs1 in Hc2. change (1 + 1)%Z with 2%Z in Hr2.
  assert (Hclose : close_to_best (c :: repeat 0%float 9) 1 pfm2 = true).
  { unfold close_to_best. cbn [__min Z.to_nat Pos.to_nat Pos.iter_op firstn fold_left].
    rewrite Hf2. apply abs_sub_diag_lt; [exact Hfin|].
    apply tolf_is_set_positive. exact Ht2. }
  rewrite Hclose in Hc2. change (0 <? 1)%Z with true in Hc2. cbn [andb] in Hc2.
  assert (Ha2 : search_again st2 = false).
  { unfold search_again. rewrite Hc2. cbn. now rewrite andb_false_r. }
  rewrite Ha2. cbn [runs converged ss_param].
  split; [exact Hr2|]. split; [exact Hc2|].
  unfold log_convergence. rewrite Hk2, Hk1, Hc2, Hr2.
  destruct (Z.eqb_spec (checkconv param) 0); [contradiction|].
  cbn. apply last_last.
Qed.

(** Claim C4 (amended).  A run records its score and, from the second run
    on, declares convergence exactly when the absolute difference between
    its score and the minimum of the earlier scores is below 10 x tolF.
    The search makes between 1 and 10 runs; with the convergence check on,
    the last line logged is the verdict, and no verdict is an error (a
    search without mixture always returns).  When the scoring function,
    the objective of the search, takes the same finite value at every
    point, and the optimizer evaluates it at least once and reports a
    value it has seen, convergence is declared after exactly 2 runs. *)
Theorem convergence_check_runs :
  (forall (emfuel : nat) (lambda_len k : Z) (rnd : list float) (st st1 : search_state),
      search_run emfuel lambda_len k rnd st = Some st1 ->
      exists p pfm,
        search_optimize emfuel lambda_len k rnd (ss_param st) = Some (p, pfm)
        /\ runs st1 = (runs st + 1)%Z
        /\ scores st1 = set_nth (Z.to_nat (runs st)) (fv pfm) (scores st)
        /\ converged st1
           = (if ((0 <? runs st)%Z
                  && (abs (__min (scores st) (Z.to_nat (runs st)) - fv pfm)
                      <? 10 * tolf pfm)%float)%bool
              then 1%Z else converged st))
  /\ (forall (emfuel : nat) (param : CafeParam) (lambda_len k : Z)
        (rnd : nat -> list float) (st : search_state),
        cafe_best_lambda_by_fminsearch emfuel param lambda_len k rnd = Some st ->
        (1 <= runs st <= 10)%Z
        /\ (checkconv (ss_param st) <> 0%Z ->
            last (flog (ss_param st)) (EmptyString, [])
            = if (converged st =? 0)%Z
              then ("score failed to converge in %d runs.\n"%string, [AInt 10])
              else ("score converged in %d runs.\n"%string, [AInt (runs st)])))
  /\ (forall (emfuel : nat) (param : CafeParam) (lambda_len k : Z)
        (rnd : nat -> list float),
        (k <= 0)%Z ->
        exists st, cafe_best_lambda_by_fminsearch emfuel param lambda_len k rnd = Some st)
  /\ (forall (c : float) (emfuel : nat) (param : CafeParam) (lambda_len k : Z)
        (rnd : nat -> list float),
        is_finite c = true ->
        reports_seen_value -> evaluates_once ->
        (forall x p, snd (search_objective k x p) = c) ->
        (forall x p, checkconv (fst (__cafe_cluster_lambda_search x p)) = checkconv p) ->
        checkconv param <> 0%Z ->
        match cafe_best_lambda_by_fminsearch emfuel param lambda_len k rnd with
        | Some st =>
            runs st = 2%Z /\ converged st = 1%Z
            /\ last (flog (ss_param st)) (EmptyString, [])
               = ("score converged in %d runs.\n"%string, [AInt 2])
        | None => (0 < k)%Z
        end).
Proof.
  split; [|split; [|split]].
  - intros emfuel lambda_len k rnd st st1 E.
    destruct (search_run_rule _ _ _ _ _ _ E) as [p [pfm [Eo [Hr [Hs [Hc _]]]]]].
    exists p, pfm. auto.
  - intros emfuel param lambda_len k rnd st E.
    unfold cafe_best_lambda_by_fminsearch in E.
    destruct (search_runs (Z.to_nat max_runs) emfuel lambda_len k rnd _) as [st'|] eqn:Er;
      [|discriminate].
    inversion E; subst; clear E. cbn [runs converged ss_param].
    apply search_runs_count in Er. cbn in Er. split; [lia|].
    unfold log_convergence. intros Hcc.
    destruct (checkconv (ss_param st') =? 0)%Z eqn:Ec.
    + apply Z.eqb_eq in Ec. contradiction.
    + destruct (converged st' =? 0)%Z; cbn; apply last_last.
  - intros emfuel param lambda_len k rnd Hk.
    unfold cafe_best_lambda_by_fminsearch.
    assert (H : forall n st, exists st1,
                 search_runs n emfuel lambda_len k rnd st = Some st1).
    { induction n as [|n IH]; intros st; cbn [search_runs]; [eauto|].
      unfold search_run at 1.
      destruct (search_optimize_total emfuel lambda_len k
                  (rnd (Z.to_nat (runs st))) (ss_param st) Hk) as [[p pfm] Eo].
      rewrite Eo. destruct (search_again _); eauto. }
    destruct (H (Z.to_nat max_runs) (mk_search_state param
                 (repeat 0%float (Z.to_nat max_runs)) 0 0)) as [st1 E1].
    rewrite E1. eauto.
  - intros c emfuel param lambda_len k rnd Hfin Hrep Hev Hconst Hcluster Hcc.
    exact (constant_score_converges_in_two_runs c emfuel param lambda_len k rnd
             Hfin Hrep Hev Hconst Hcluster Hcc).
Qed.

End Properties.

(** ** The definitions on concrete inputs *)

(** The assumption on the prior is needed.  One family whose likelihood
    is 0 for every root size, a prior that is NaN (no probability), the
    rate 0: the score is -inf (the log(0) penalty), and the sum of the logs
    of the best posteriors is NaN. *)
Lemma nan_prior_score_differs_from_sum :
  let param := ref_param [ref_item "F1" (-1) [1; 2]%Z] [nan; nan] in
  let plambda := [0%float] in
  has_negative (num_lambdas param) plambda = false
  /\ snd (posterior_score plambda param) = neg_infinity
  /\ is_nan (sum_log_posteriors (session_posteriors plambda param)) = true
  /\ snd (posterior_score plambda param)
     <> sum_log_posteriors (session_posteriors plambda param).
Proof.
  cbv zeta. split; [reflexivity|]. split; [vm_compute; reflexivity|].
  split; [vm_compute; reflexivity|].
  intros H. apply (f_equal is_nan) in H. vm_compute in H. discriminate.
Qed.

(** Claim C2, counterexample.  One family whose likelihood is 0 for every
    root size: its best posterior is exactly 0, the objective returns the
    penalty +inf, and a grid scan over two points evaluates both (two
    penalty scores, two messages on the error stream).  And one family
    whose best posterior is exactly 0 because the prior is 0, while its
    best likelihood is 1: [get_posterior] returns the score -inf and no
    error at all. *)
Lemma zero_posterior_does_not_abort_the_scan :
  let param := ref_param [ref_item "F1" (-1) [1; 2]%Z] [1%float; 1%float] in
  let range := [mk_lambda_range 0 0.5 0.5] in
  let param0 := ref_param [ref_item "F1" (-1) [1; 1]%Z] [0%float; 0%float] in
  ((max_posterior (nth 0 (session_posteriors [0%float] param) null_posterior) =? 0)%float
   = true
   /\ snd (__cafe_best_lambda_search [0%float] param) = infinity
   /\ gm_data (snd (cafe_lambda_distribution param range)) = [neg_infinity; neg_infinity]
   /\ List.length (ferr (fst (cafe_lambda_distribution param range))) = 2)
  /\ ((max_posterior (nth 0 (session_posteriors [0%float] param0) null_posterior) =? 0)%float
      = true
      /\ max_likelihood (nth 0 (session_posteriors [0%float] param0) null_posterior)
         = 1%float
      /\ snd (get_posterior (pfamily (scoring_session [0%float] param0))
                (pcafe (scoring_session [0%float] param0)) (scoring_prior param0))
         = Ok neg_infinity
      /\ ferr (fst (__cafe_best_lambda_search [0%float] param0)) = []).
Proof.
  cbv zeta. repeat split; vm_compute; reflexivity.
Qed.

(** Claim C2 (amended) on the family whose likelihood is 0 everywhere. *)
Lemma zero_likelihood_is_caught_and_penalized_witness :
  exists j : nat,
    j < 1
    /\ snd (__cafe_best_lambda_search [0%float]
              (ref_param [ref_item "F1" (-1) [1; 2]%Z] [1%float; 1%float]))
       = (- log 0)%float.
Proof.
  destruct (zero_likelihood_is_caught_and_penalized [0%float]
              (ref_param [ref_item "F1" (-1) [1; 2]%Z] [1%float; 1%float])
              ltac:(vm_compute; reflexivity) ltac:(vm_compute; reflexivity))
    as [j [Hj [_ [_ [_ [Hs _]]]]]].
  exists j. split; [exact Hj|exact Hs].
Defined.

(** Claim C7 (amended) on the range 0 : 0.5 : 1.  The quotient is 2, the
    nearest integer is 2, and the scan has 3 points and writes 3 rows. *)
Lemma grid_scan_writes_one_row_per_point_witness :
  scan_fits_int [mk_lambda_range 0 0.5 1] = true
  /\ grid_size (mk_lambda_range 0 0.5 1) = 3%Z
  /\ snd (write_lambda_distribution
            (ref_param [ref_item "F1" (-1) [1; 1]%Z] [1%float; 1%float])
            [mk_lambda_range 0 0.5 1] (Some []))
     = Some [tsv_row [0%float; 0%float]; tsv_row [0.5%float; 0%float];
             tsv_row [1%float; 0%float]].
Proof.
  destruct (grid_scan_writes_one_row_per_point
              (ref_param [ref_item "F1" (-1) [1; 1]%Z] [1%float; 1%float])
              [mk_lambda_range 0 0.5 1] [] ltac:(discriminate) ltac:(reflexivity))
    as [Hsize [_ [_ [_ [_ [E _]]]]]].
  split; [reflexivity|].
  split.
  - apply (Hsize (mk_lambda_range 0 0.5 1) false 4503599627370496%positive (-51)%Z 2%Z).
    + reflexivity.
    + split; [vm_compute; discriminate|intros _; reflexivity].
    + reflexivity.
  - rewrite E. vm_compute. reflexivity.
Defined.

(** Claim C7, counterexample.  On the range 0 : 1 : 2.5 the quotient is
    2.5, halfway between 2 and 3: rounded as [round] does (halves away from
    zero) it is 3, which gives 4 points; the scan has 3 points, for the
    coordinates 0, 1 and 2, and writes 3 rows. *)
Lemma scan_of_half_way_quotient_rounds_to_even :
  let r := mk_lambda_range 0 1 2.5 in
  ((range_end r - range_start r) / range_step r)%float = 2.5%float
  /\ round 2.5 = 3%float
  /\ rounded_grid_size r = 4%Z
  /\ grid_size r = 3%Z
  /\ scan_fits_int [r] = true
  /\ snd (write_lambda_distribution
            (ref_param [ref_item "F1" (-1) [1; 1]%Z] [1%float; 1%float]) [r] (Some []))
     = Some [tsv_row [0%float; 0%float]; tsv_row [1%float; 0%float];
             tsv_row [2%float; 0%float]].
Proof.
  cbv zeta. repeat split; vm_compute; reflexivity.
Qed.

(** Claim C10, counterexample.  For the rate -1 the pmf is NaN, and the
    first entry of the prior array is that NaN, not 0. *)
Lemma prior_array_keeps_nan_pmf :
  is_nan (poisspdf (int_to_double (1 - 1 + 0)) (-1)%float) = true
  /\ is_nan (nth 0 (cafe_set_prior_rfsize_poisson_lambda 1 [(-1)%float]) 0%float) = true
  /\ nth 0 (cafe_set_prior_rfsize_poisson_lambda 1 [(-1)%float]) 0%float <> 0%float.
Proof.
  split; [vm_compute; reflexivity|]. split; [vm_compute; reflexivity|].
  intros H. apply (f_equal is_nan) in H. vm_compute in H. discriminate.
Qed.

(** Claim C3, the code at the failing input.  The first weight is 0.75
    before the EM pass and 0.25 after it: it changed by 0.5, far more than
    tolX, and the loop exits after this one pass, because
    [current_p - prev_p] is negative. *)
Theorem em_loop_stops_when_first_weight_drops :
  let pfm := set_tol (fminsearch_new_with_eq 3) 1e-5 1e-5 in
  exists p pfm1,
    em_loop 1 1 2 pfm ref_mixture_param 0.75 = Some (p, pfm1)
    /\ nth (weight_index 1 2 p) (input_parameters p) 0%float = 0.25%float
    /\ em_continue pfm1 0.25 0.75 = false
    /\ (abs (0.25 - 0.75) <? tolx pfm1)%float = false.
Proof.
  cbv zeta. eexists. eexists. split; [vm_compute; reflexivity|].
  repeat split; vm_compute; reflexivity.
Qed.

(** Claim C6 on two families, the second referring to the first. *)
Lemma each_search_copies_reference_witness :
  let param := ref_param [ref_item "F1" (-1) [1; 1]%Z; ref_item "F2" 0 [1; 1]%Z] [] in
  let res := cafe_each_best_lambda_by_fminsearch param 1 in
  lambda (nth 1 (flist (pfamily (fst res))) null_item)
  = lambda (nth 0 (flist (pfamily (fst res))) null_item)
  /\ snd res = [0].
Proof.
  cbv zeta.
  destruct (each_search_copies_reference
              (ref_param [ref_item "F1" (-1) [1; 1]%Z; ref_item "F2" 0 [1; 1]%Z] [])
              1 1 ltac:(cbn; lia) ltac:(cbn; lia)) as [Hl [_ [_ Hc]]].
  split; [exact Hl|]. rewrite Hc. reflexivity.
Defined.

Lemma ref_log_zero (x : float) : (x =? 0)%float = true -> ref_log x = neg_infinity.
Proof.
  intros Hx. unfold ref_log. destruct (eqb_zero_SF x Hx) as [s E].
  assert (Hnan : is_nan x = false).
  { unfold is_nan. rewrite FloatAxioms.eqb_spec, E. reflexivity. }
  assert (Hlt : (x <? 0)%float = false).
  { rewrite FloatAxioms.ltb_spec, E. reflexivity. }
  now rewrite Hnan, Hlt, Hx.
Qed.

Lemma ref_likelihoods_nonneg (tree : CafeTree) :
  forallb (fun l => (0 <=? l)%float) (ref_get_likelihoods tree) = true.
Proof.
  unfold ref_get_likelihoods. apply forallb_forall. intros l Hl.
  apply in_map_iff in Hl. destruct Hl as [j [<- _]].
  destruct (forallb _ (node_familysize tree)); reflexivity.
Qed.

(** Claim C1 on three families: the second has the likelihood 0 at every
    root size, the third refers to the first.  The code returns the
    penalty, and the sum of the logs of the best posteriors is the same
    value, -inf. *)
Lemma posterior_score_is_sum_of_log_posteriors_witness :
  let param := ref_param [ref_item "F1" (-1) [1; 1]%Z; ref_item "F2" (-1) [1; 2]%Z;
                          ref_item "F3" 0 [1; 1]%Z] [1%float; 1%float] in
  snd (__cafe_best_lambda_search [0%float] param) = infinity
  /\ sum_log_posteriors (session_posteriors [0%float] param) = neg_infinity
  /\ existsb zero_likelihood (session_posteriors [0%float] param) = true
  /\ nth 2 (session_posteriors [0%float] param) null_posterior
     = nth 0 (session_posteriors [0%float] param) null_posterior.
Proof.
  cbv zeta.
  destruct (@posterior_score_is_sum_of_log_posteriors ref_collaborators [0%float]
              (ref_param [ref_item "F1" (-1) [1; 1]%Z; ref_item "F2" (-1) [1; 2]%Z;
                          ref_item "F3" 0 [1; 1]%Z] [1%float; 1%float])
              ref_log_zero ltac:(vm_compute; reflexivity) ref_likelihoods_nonneg
              ltac:(vm_compute; reflexivity) ltac:(vm_compute; reflexivity))
    as [Hs [_ [_ [Hr _]]]].
  split; [rewrite Hs; vm_compute; reflexivity|].
  split; [vm_compute; reflexivity|]. split; [vm_compute; reflexivity|].
  apply (Hr 2); cbn; lia.
Defined.

(** Claim C5 (amended) on four species, all on the tree, with the leaf
    counts 0, 0, 1, 2 and the seed 0.5: the data are [0, 1] over all
    species, the reference optimizer reports the seed, and the score is
    the negated log-likelihood of the data there. *)
Lemma prior_estimation_uses_shifted_positive_leaf_counts_witness :
  let pf := mk_CafeFamily 4 [0; 1; 2; 3]%Z [ref_item "F1" (-1) [0; 0; 1; 2]%Z] in
  collect_leaf_sizes pf = shifted_positive_species_counts pf
  /\ shifted_positive_species_counts pf = [0; 1]%Z
  /\ find_poisson_lambda pf 0.5%float = mk_poisson_lambda [0.5%float] 1 1 1.25%float
  /\ score (find_poisson_lambda pf 0.5%float)
     = __lnLPoisson (parameters (find_poisson_lambda pf 0.5%float)) [0; 1]%Z.
Proof.
  intros pf.
  destruct (@prior_estimation_uses_shifted_positive_leaf_counts ref_collaborators)
    as [Hcollect [Hfit _]].
  destruct (Hcollect pf) as [_ [_ Hall]].
  destruct (Hfit pf 0.5%float) as [_ [_ [_ [Hres Hscore]]]].
  split; [apply Hall; reflexivity|].
  split; [reflexivity|].
  split; [exact Hres|].
  apply Hscore. vm_compute. left. reflexivity.
Defined.

(** Claim C5, counterexample.  A family table with two species, the first
    not on the tree ([index = -1]) with the count 3, the second on the
    tree with the count 2.  The positive counts over all species, shifted,
    are [2, 1]; the code collects [1], and fits the rate to that. *)
Lemma off_tree_species_is_not_collected :
  let pf := mk_CafeFamily 2 [-1; 0]%Z [ref_item "F1" (-1) [3; 2]%Z] in
  species_counts pf (ref_item "F1" (-1) [3; 2]%Z) = [3; 2]%Z
  /\ shifted_positive_species_counts pf = [2; 1]%Z
  /\ collect_leaf_sizes pf = [1]%Z
  /\ forall u, find_poisson_lambda pf u = poisson_fit [1]%Z u.
Proof. repeat split. Qed.

(** Claim C4 on a mixture search whose objective is 7 at every point. *)
Lemma convergence_check_runs_witness :
  match cafe_best_lambda_by_fminsearch 4 ref_mixture_checkconv_param 1 2
          (fun _ => [0.125%float; 0.25%float; 0.75%float]) with
  | Some st =>
      runs st = 2%Z /\ converged st = 1%Z
      /\ last (flog (ss_param st)) (EmptyString, [])
         = ("score converged in %d runs.\n"%string, [AInt 2])
  | None => False
  end.
Proof.
  assert (Hrep : reports_seen_value).
  { intros pfm X0 [|[x v] seen] Hne; [contradiction|left; reflexivity]. }
  assert (Hev : evaluates_once).
  { split; [cbn; lia|intros pfm X0; discriminate]. }
  pose proof (proj2 (proj2 (proj2 convergence_check_runs)) 7%float 4
                ref_mixture_checkconv_param 1%Z 2%Z
                (fun _ => [0.125%float; 0.25%float; 0.75%float])
                ltac:(vm_compute; reflexivity) Hrep Hev (fun x p => eq_refl)
                (fun x p => eq_refl) ltac:(cbn; lia)) as H.
  destruct (cafe_best_lambda_by_fminsearch 4 ref_mixture_checkconv_param 1 2
              (fun _ => [0.125%float; 0.25%float; 0.75%float])) as [st|] eqn:E.
  - exact H.
  - vm_compute in E. discriminate.
Defined.

(** Claim C9 on two families: the ranges are back after the search. *)
Lemma each_search_restores_family_size_range_witness :
  let param := ref_param [ref_item "F1" (-1) [1; 1]%Z; ref_item "F2" (-1) [2; 2]%Z] [] in
  range (pcafe (fst (cafe_each_best_lambda_by_fminsearch param 1))) = range (pcafe param)
  /\ family_size (es_param (each_fit 1 2 (mk_each_state param
                     (set_tol (fminsearch_new_with_eq 1) 1e-6 1e-6) []) 1))
     = mk_family_size_range 2 2 2 2.
Proof.
  cbv zeta.
  destruct (each_search_restores_family_size_range
              (ref_param [ref_item "F1" (-1) [1; 1]%Z; ref_item "F2" (-1) [2; 2]%Z] []) 1)
    as [_ [_ [Hsync Hover]]].
  split.
  - apply Hsync. reflexivity.
  - rewrite Hover. vm_compute. reflexivity.
Defined.

(** Claim C10 (amended) on the rate -1: the prior entry is the pmf value. *)
Lemma nan_pmf_is_coerced_in_the_fit_objective_witness :
  nth 0 (cafe_set_prior_rfsize_poisson_lambda 1 [(-1)%float]) 0%float
  = poisspdf (int_to_double (1 - 1 + Z.of_nat 0)) (-1)%float
  /\ __lnLPoisson [(-1)%float] [0%Z] = infinity.
Proof.
  destruct (@nan_pmf_is_coerced_in_the_fit_objective ref_collaborators) as [Hfit [_ Hprior]].
  split.
  - apply Hprior. unfold FAMILYSIZEMAX. lia.
  - rewrite Hfit. vm_compute. reflexivity.
Defined.

(** Claim C4, counterexample.  The scoring function is constant: the
    posterior score is the log(0) penalty for every rate vector, so every
    run ends with the objective value +inf.  The difference of two
    infinite scores is NaN, which is not below 10 x tolF: the search makes
    all 10 runs and logs that the score failed to converge. *)
Lemma infinite_constant_score_never_converges :
  snd (__cafe_best_lambda_search [0.25%float] ref_penalty_param) = infinity
  /\ snd (__cafe_best_lambda_search [7%float] ref_penalty_param) = infinity
  /\ match cafe_best_lambda_by_fminsearch 4 ref_penalty_param 1 0 (fun _ => [0.25%float]) with
     | Some st =>
         runs st = 10%Z /\ converged st = 0%Z
         /\ scores st = repeat infinity 10
         /\ last (flog (ss_param st)) (EmptyString, [])
            = ("score failed to converge in %d runs.\n"%string, [AInt 10])
     | None => False
     end.
Proof.
  split; [vm_compute; reflexivity|]. split; [vm_compute; reflexivity|].
  vm_compute. repeat split.
Qed.

(** * More properties of the code *)

(** ** Facts on loops that fill an array *)

Lemma nth_fold_set_nth_seq {A : Type} (g : nat -> A -> A) (d : A) (n : nat) :
  forall (l : list A) (j : nat),
    nth j (fold_left (fun l j => set_nth j (g j (nth j l d)) l) (seq 0 n) l) d
    = if ((j <? n) && (j <? List.length l))%bool then g j (nth j l d) else nth j l d.
Proof.
  induction n as [|n IH]; intros l j.
  - reflexivity.
  - rewrite seq_S, fold_left_app. cbn [fold_left Nat.add].
    set (l1 := fold_left _ (seq 0 n) l).
    assert (Hlen : List.length l1 = List.length l).
    { subst l1. clear. generalize (seq 0 n) as js. intros js. revert l.
      induction js as [|i js IHjs]; intros l; cbn [fold_left]; [reflexivity|].
      rewrite IHjs. apply length_set_nth. }
    destruct (Nat.eq_dec j n) as [->|Hne].
    + destruct (Nat.ltb_spec n (List.length l)) as [Hlt|Hge].
      * rewrite nth_set_nth_eq by lia. subst l1. rewrite IH.
        rewrite Nat.ltb_irrefl. cbn [andb].
        replace (n <? S n) with true by (symmetry; apply Nat.ltb_lt; lia).
        reflexivity.
      * rewrite andb_false_r.
        rewrite !nth_overflow; [reflexivity|lia|rewrite length_set_nth; lia].
    + rewrite nth_set_nth_neq by congruence. subst l1. rewrite IH.
      destruct (Nat.ltb_spec j n) as [H1|H1]; destruct (Nat.ltb_spec j (S n)) as [H2|H2];
        try lia; reflexivity.
Qed.

Lemma length_fold_set_nth {A : Type} (f : list A -> nat -> nat) (v : list A -> nat -> A)
    (js : list nat) :
  forall l : list A,
    List.length (fold_left (fun l j => set_nth (f l j) (v l j) l) js l) = List.length l.
Proof.
  induction js as [|j js IH]; intros l; cbn [fold_left]; [reflexivity|].
  rewrite IH. apply length_set_nth.
Qed.

Lemma nth_fold_set_nth_offset {A : Type} (v : nat -> A) (d : A) (b n : nat) :
  forall (l : list A) (i : nat),
    nth i (fold_left (fun l j => set_nth (b + j) (v j) l) (seq 0 n) l) d
    = if ((b <=? i) && (i <? b + n) && (i <? List.length l))%bool
      then v (i - b) else nth i l d.
Proof.
  induction n as [|n IH]; intros l i.
  - cbn [seq fold_left]. replace (i <? b + 0) with (i <? b) by (f_equal; lia).
    destruct (Nat.leb_spec b i), (Nat.ltb_spec i b); try lia; reflexivity.
  - rewrite seq_S, fold_left_app. cbn [fold_left Nat.add].
    set (l1 := fold_left _ (seq 0 n) l).
    assert (Hlen : List.length l1 = List.length l).
    { subst l1. apply (length_fold_set_nth (fun _ j => b + j) (fun _ j => v j)). }
    destruct (Nat.eq_dec i (b + n)) as [->|Hne].
    + destruct (Nat.ltb_spec (b + n) (List.length l)) as [Hlt|Hge].
      * rewrite nth_set_nth_eq by lia.
        replace (b <=? b + n) with true by (symmetry; apply Nat.leb_le; lia).
        replace (b + n <? b + S n) with true by (symmetry; apply Nat.ltb_lt; lia).
        cbn [andb]. f_equal. lia.
      * rewrite andb_false_r.
        rewrite !nth_overflow; [reflexivity|lia|rewrite length_set_nth; lia].
    + rewrite nth_set_nth_neq by congruence. subst l1. rewrite IH.
      destruct (Nat.leb_spec b i); cbn [andb]; [|reflexivity].
      destruct (Nat.ltb_spec i (b + n)), (Nat.ltb_spec i (b + S n)); try lia; reflexivity.
Qed.

Lemma fold_set_nth_repeat {A : Type} (x d : A) (n : nat) :
  fold_left (fun l j => set_nth j x l) (seq 0 n) (repeat d n) = repeat x n.
Proof.
  apply nth_ext with (d := d) (d' := d).
  - rewrite (length_fold_set_nth (fun _ j => j) (fun _ _ => x)), !repeat_length. reflexivity.
  - intros i Hi.
    rewrite (length_fold_set_nth (fun _ j => j) (fun _ _ => x)), repeat_length in Hi.
    pose proof (nth_fold_set_nth_offset (fun _ => x) d 0 n (repeat d n) i) as H.
    cbn [Nat.add Nat.leb andb] in H. rewrite H, repeat_length.
    replace (i <? n) with true by (symmetry; apply Nat.ltb_lt; lia). cbn [andb].
    symmetry. apply nth_repeat_lt. exact Hi.
Qed.

Lemma length_copy_prefix (n : Z) (src dst : list float) :
  List.length (copy_prefix n src dst) = List.length dst.
Proof.
  unfold copy_prefix.
  apply (length_fold_set_nth (fun _ i => i) (fun _ i => nth i src 0%float)).
Qed.

Lemma nth_copy_prefix (n : Z) (src dst : list float) (i : nat) :
  nth i (copy_prefix n src dst) 0%float
  = if ((i <? Z.to_nat n) && (i <? List.length dst))%bool
    then nth i src 0%float else nth i dst 0%float.
Proof.
  unfold copy_prefix.
  pose proof (nth_fold_set_nth_offset (fun i => nth i src 0%float) 0%float 0
                (Z.to_nat n) dst i) as H.
  cbn [Nat.add Nat.leb andb] in H. rewrite Nat.sub_0_r in H. exact H.
Qed.

Section MoreProperties.

Context {ext : Collaborators}.

(** ** MixtureSearch: the reseeding of the weights *)

Lemma sum_memberships_nth (param : CafeParam) (k : Z) (j : nat) :
  j < Z.to_nat k -> j < Z.to_nat (parameterized_k_value param) ->
  nth j (sum_memberships param k) 0%float
  = fold_left (fun s i => (s + nth j (nth i (p_z_membership param) []) 0)%float)
      (seq 0 (List.length (flist (pfamily param)))) 0%float.
Proof.
  intros Hk Hp. unfold sum_memberships.
  assert (G : forall fams sw, j < List.length sw ->
            nth j (fold_left
                     (fun sw i =>
                        fold_left
                          (fun sw j =>
                             set_nth j (nth j sw 0
                                        + nth j (nth i (p_z_membership param) []) 0)%float sw)
                          (seq 0 (Z.to_nat k)) sw) fams sw) 0%float
            = fold_left (fun s i => (s + nth j (nth i (p_z_membership param) []) 0)%float)
                fams (nth j sw 0%float)).
  { induction fams as [|i fams IH]; intros sw Hlen; cbn [fold_left]; [reflexivity|].
    rewrite IH.
    - f_equal.
      rewrite (nth_fold_set_nth_seq
                 (fun j x => (x + nth j (nth i (p_z_membership param) []) 0)%float)
                 0%float (Z.to_nat k) sw j).
      replace (j <? Z.to_nat k) with true by (symmetry; apply Nat.ltb_lt; lia).
      replace (j <? List.length sw) with true by (symmetry; apply Nat.ltb_lt; lia).
      reflexivity.
    - rewrite (length_fold_set_nth (fun _ j => j)
                 (fun l j => (nth j l 0 + nth j (nth i (p_z_membership param) []) 0)%float)).
      exact Hlen. }
  rewrite G by (rewrite repeat_length; exact Hp).
  rewrite nth_repeat. reflexivity.
Qed.

(** Property X1.  The reseeding step of the EM loop writes the [k - 1] slots of the
    parameter vector that start at the first weight and nothing else: the
    rates before them, the slots after them, the length of the vector and
    the rest of the session are as before.  Slot [j] of the weights gets
    the sum over the families of the responsibility of cluster [j],
    divided by the number of families. *)
Theorem em_reseed_sets_mean_responsibilities (lambda_len k : Z) (param : CafeParam) :
  let base := weight_index lambda_len k param in
  let n := List.length (flist (pfamily param)) in
  let p := em_reseed lambda_len k param in
  p = set_input_parameters param (input_parameters p)
  /\ List.length (input_parameters p) = List.length (input_parameters param)
  /\ (forall i : nat,
        i < base \/ base + Z.to_nat (k - 1) <= i ->
        nth i (input_parameters p) 0%float = nth i (input_parameters param) 0%float)
  /\ (forall j : nat,
        j < Z.to_nat (k - 1) ->
        j < Z.to_nat (parameterized_k_value param) ->
        base + j < List.length (input_parameters param) ->
        nth (base + j) (input_parameters p) 0%float
        = (fold_left (fun s i => s + nth j (nth i (p_z_membership param) []) 0)
             (seq 0 n) 0 / int_to_double (Z.of_nat n))%float).
Proof.
  cbv zeta. unfold em_reseed. cbn [input_parameters set_input_parameters].
  pose (base := weight_index lambda_len k param).
  pose (v := fun j => (nth j (sum_memberships param k) 0
                       / int_to_double (Z.of_nat (List.length (flist (pfamily param)))))%float).
  assert (Hnth := nth_fold_set_nth_offset v 0%float base (Z.to_nat (k - 1))
                    (input_parameters param)).
  cbv beta delta [v base] in Hnth.
  split; [reflexivity|]. split.
  { apply (length_fold_set_nth (fun _ j => base + j) (fun _ j => v j)). }
  split.
  - intros i Hi. rewrite Hnth. fold base in Hi |- *.
    destruct (Nat.leb_spec base i); cbn [andb]; [|reflexivity].
    destruct (Nat.ltb_spec i (base + Z.to_nat (k - 1))); [lia|reflexivity].
  - intros j Hj Hp Hlen. rewrite Hnth. fold base in Hlen |- *.
    replace (base <=? base + j) with true by (symmetry; apply Nat.leb_le; lia).
    replace (base + j <? base + Z.to_nat (k - 1)) with true
      by (symmetry; apply Nat.ltb_lt; lia).
    replace (base + j <? List.length (input_parameters param)) with true
      by (symmetry; apply Nat.ltb_lt; lia).
    cbn [andb]. replace (base + j - base) with j by lia.
    rewrite sum_memberships_nth by lia. reflexivity.
Qed.

(** ** PerFamilySearch: what it writes and what it leaves *)

Lemma each_objective_invariant (P : CafeParam -> Prop) :
  (forall p v, P p -> P (set_pcafe p v)) ->
  (forall p v, P p -> P (set_param_lambda p v)) ->
  (forall p fmt args, P p -> P (cafe_log p fmt args)) ->
  forall x p, P p -> P (fst (__cafe_each_best_lambda_search x p)).
Proof.
  intros Htree Hlam Hlog x p Hp. unfold __cafe_each_best_lambda_search.
  destruct (has_negative (num_lambdas p) x); cbn [fst].
  - apply Hlog, Hlog, Hp.
  - apply Hlog, Hlog, Htree. unfold cafe_shell_set_lambdas. apply Hlam, Htree, Hp.
Qed.

Lemma each_step_invariant (P : CafeParam -> Prop) (lambda_len fsize : Z) :
  (forall p v, P p -> P (set_pcafe p v)) ->
  (forall p v, P p -> P (set_param_lambda p v)) ->
  (forall p fmt args, P p -> P (cafe_log p fmt args)) ->
  (forall p v, P p -> P (set_family_size p v)) ->
  (forall p i l m, P p ->
     P (set_family_item p i (set_lambda_mu (family_item (pfamily p) i) l m))) ->
  forall st i, P (es_param st) -> P (es_param (each_step lambda_len fsize st i)).
Proof.
  intros Htree Hlam Hlog Hsize Hitem st i Hp. unfold each_step.
  destruct (refers_to_other _ i).
  - unfold each_copy_ref. cbn [es_param].
    apply Hlog, Hlog. unfold cafe_shell_set_lambdas. apply Hlam, Htree, Hitem, Hp.
  - unfold each_fit.
    set (p3 := cafe_log _ "%s:\n" _).
    assert (H3 : P p3).
    { subst p3. apply Hlog, Hsize, Htree, Hp. }
    pose proof (fminsearch_min_invariant P __cafe_each_best_lambda_search
                  (each_objective_invariant P Htree Hlam Hlog)
                  (es_pfm st) (deref (param_lambda p3)) p3 H3) as H4.
    destruct (fminsearch_min __cafe_each_best_lambda_search (es_pfm st)
                (deref (param_lambda p3)) p3) as [p4 pfm1].
    cbn [fst] in H4. cbn [es_param].
    apply Hlog.
    destruct (near_boundary lambda_len (fminsearch_get_minX pfm1) (pcafe p4)).
    + apply Hlog, Hlog, Hlog. unfold cafe_shell_set_lambdas. apply Hlam, Htree, Hitem, H4.
    + apply Hlog. unfold cafe_shell_set_lambdas. apply Hlam, Htree, Hitem, H4.
Qed.

Lemma each_steps_invariant (P : CafeParam -> Prop) (lambda_len fsize : Z) :
  (forall p v, P p -> P (set_pcafe p v)) ->
  (forall p v, P p -> P (set_param_lambda p v)) ->
  (forall p fmt args, P p -> P (cafe_log p fmt args)) ->
  (forall p v, P p -> P (set_family_size p v)) ->
  (forall p i l m, P p ->
     P (set_family_item p i (set_lambda_mu (family_item (pfamily p) i) l m))) ->
  forall l st, P (es_param st) ->
    P (es_param (fold_left (each_step lambda_len fsize) l st)).
Proof.
  intros Htree Hlam Hlog Hsize Hitem l.
  induction l as [|i l IH]; intros st Hp; cbn [fold_left]; [exact Hp|].
  apply IH. apply each_step_invariant; assumption.
Qed.

Lemma each_search_invariant (P : CafeParam -> Prop) (param : CafeParam) (lambda_len : Z) :
  (forall p v, P p -> P (set_pcafe p v)) ->
  (forall p v, P p -> P (set_param_lambda p v)) ->
  (forall p fmt args, P p -> P (cafe_log p fmt args)) ->
  (forall p v, P p -> P (set_family_size p v)) ->
  (forall p i l m, P p ->
     P (set_family_item p i (set_lambda_mu (family_item (pfamily p) i) l m))) ->
  P (set_num_lambdas param lambda_len) ->
  P (fst (cafe_each_best_lambda_by_fminsearch param lambda_len)).
Proof.
  intros Htree Hlam Hlog Hsize Hitem Hp.
  unfold cafe_each_best_lambda_by_fminsearch. cbn [fst].
  apply Hlam, Hsize, Htree.
  apply each_steps_invariant; try assumption. cbn [es_param].
  exact (Hlam (set_num_lambdas param lambda_len) _ Hp).
Qed.

Lemma map_item_data_set_lambda_mu (items : list CafeFamilyItem) (i : nat) l m :
  map item_data (set_nth i (set_lambda_mu (nth i items null_item) l m) items)
  = map item_data items.
Proof.
  apply (map_set_nth_same item_data i _ null_item). reflexivity.
Qed.

Lemma each_search_frame (param : CafeParam) (lambda_len : Z) :
  let p := fst (cafe_each_best_lambda_by_fminsearch param lambda_len) in
  map item_data (flist (pfamily p)) = map item_data (flist (pfamily param))
  /\ num_species (pfamily p) = num_species (pfamily param)
  /\ index (pfamily p) = index (pfamily param)
  /\ num_lambdas p = lambda_len
  /\ session_settings p = session_settings param
  /\ ferr p = ferr param
  /\ exists lines, flog p = flog param ++ lines.
Proof.
  cbv zeta.
  apply (each_search_invariant
           (fun q : CafeParam =>
              map item_data (flist (pfamily q)) = map item_data (flist (pfamily param))
              /\ num_species (pfamily q) = num_species (pfamily param)
              /\ index (pfamily q) = index (pfamily param)
              /\ num_lambdas q = lambda_len
              /\ session_settings q = session_settings param
              /\ ferr q = ferr param
              /\ exists lines, flog q = flog param ++ lines)).
  - intros p v Hp. exact Hp.
  - intros p v Hp. exact Hp.
  - intros p fmt args [H1 [H2 [H3 [H4 [H5 [H6 [lines H7]]]]]]].
    repeat (split; [assumption|]). unfold cafe_log. cbn [flog set_flog].
    exists (lines ++ [(fmt, args)]). rewrite H7. now rewrite app_assoc.
  - intros p v Hp. exact Hp.
  - intros p i l m [H1 [H2 [H3 [H4 [H5 [H6 H7]]]]]].
    split; [|repeat (split; [assumption|]); assumption].
    cbn [pfamily set_family_item set_pfamily set_flist flist].
    unfold family_item. rewrite map_item_data_set_lambda_mu. exact H1.
  - repeat split. exists []. now rewrite app_nil_r.
Qed.

(** Property X2.  The per-family search changes, of a family, its rates only: the
    families keep their number, order, names, references, counts and
    cached root sizes, and the species are as before.  On return the
    session's current rate vector is the one it had on entry, the number
    of rates is [lambda_len], the settings the search reads and the error
    stream are untouched, and the log has only grown. *)
Theorem each_search_changes_only_rates (param : CafeParam) (lambda_len : Z) :
  let p := fst (cafe_each_best_lambda_by_fminsearch param lambda_len) in
  map item_data (flist (pfamily p)) = map item_data (flist (pfamily param))
  /\ List.length (flist (pfamily p)) = List.length (flist (pfamily param))
  /\ num_species (pfamily p) = num_species (pfamily param)
  /\ index (pfamily p) = index (pfamily param)
  /\ param_lambda p = param_lambda param
  /\ num_lambdas p = lambda_len
  /\ session_settings p = session_settings param
  /\ ferr p = ferr param
  /\ exists lines, flog p = flog param ++ lines.
Proof.
  cbv zeta.
  destruct (each_search_frame param lambda_len) as [H1 [H2 [H3 [H4 [H5 [H6 H7]]]]]].
  split; [exact H1|].
  split; [rewrite <- (length_map item_data), H1; apply length_map|].
  repeat (split; [assumption|]). split; [reflexivity|].
  repeat (split; [assumption|]). assumption.
Qed.

Lemma copy_prefix_zeros (n : Z) (re : list float) :
  copy_prefix n re (repeat 0%float (Z.to_nat n))
  = map (fun j => nth j re 0%float) (seq 0 (Z.to_nat n)).
Proof.
  apply nth_ext with (d := 0%float) (d' := 0%float).
  - rewrite length_copy_prefix, repeat_length, length_map, length_seq. reflexivity.
  - intros i Hi. rewrite length_copy_prefix, repeat_length in Hi.
    rewrite nth_copy_prefix, repeat_length.
    replace (i <? Z.to_nat n) with true by (symmetry; apply Nat.ltb_lt; lia).
    cbn [andb]. symmetry. apply (nth_map_seq (fun j => nth j re 0%float)). exact Hi.
Qed.

Lemma each_fit_item (lambda_len fsize : Z) (st : each_state) (i : nat) :
  i < List.length (es_items st) ->
  exists pfm X0 seen,
    nth i (es_items (each_fit lambda_len fsize st i)) null_item
    = set_lambda_mu (nth i (es_items st) null_item)
        (Some (map (fun j => nth j (snd (fmin_report pfm X0 seen)) 0%float)
                 (seq 0 (Z.to_nat lambda_len))))
        (Some (repeat 0%float (Z.to_nat lambda_len))).
Proof.
  intros Hi. unfold each_fit.
  set (p3 := cafe_log _ "%s:\n" _).
  assert (H3 : pfamily p3 = pfamily (es_param st)) by reflexivity.
  pose proof (fminsearch_min_invariant (fun q => pfamily q = pfamily (es_param st))
                __cafe_each_best_lambda_search
                (fun x s Hs => eq_trans (proj1 (each_objective_frame x s)) Hs)
                (es_pfm st) (deref (param_lambda p3)) p3 H3) as H4.
  unfold fminsearch_min in *.
  destruct (fmin_evals __cafe_each_best_lambda_search (es_pfm st)
              (deref (param_lambda p3)) fmin_maxeval [] p3) as [p4 seen].
  exists (es_pfm st), (deref (param_lambda p3)), seen.
  destruct (fmin_report (es_pfm st) (deref (param_lambda p3)) seen) as [[it v] x].
  cbn [fst snd] in H4 |- *. unfold fminsearch_get_minX. cbn [minX].
  rewrite copy_prefix_zeros.
  set (pitem1 := set_lambda_mu _ _ _).
  assert (E : forall q : CafeParam,
             pfamily q = pfamily (cafe_shell_set_lambdas (set_family_item p4 i pitem1) x) ->
             nth i (flist (pfamily q)) null_item = pitem1).
  { intros q ->. cbn [pfamily cafe_shell_set_lambdas set_param_lambda set_pcafe
                      set_family_item set_pfamily set_flist flist].
    apply nth_set_nth_eq. rewrite H4. exact Hi. }
  unfold es_items. cbn [es_param].
  rewrite E.
  - unfold pitem1, family_item. rewrite H4. reflexivity.
  - destruct (near_boundary lambda_len x (pcafe p4)); reflexivity.
Qed.

Lemma each_search_fit_result (param : CafeParam) (lambda_len : Z) (i : nat) :
  let items := flist (pfamily param) in
  i < List.length items ->
  refers_to_other (nth i items null_item) i = false ->
  let res := cafe_each_best_lambda_by_fminsearch param lambda_len in
  let pitem := nth i (flist (pfamily (fst res))) null_item in
  (exists pfm X0 seen,
      lambda pitem
      = Some (map (fun j => nth j (snd (fmin_report pfm X0 seen)) 0%float)
                (seq 0 (Z.to_nat lambda_len))))
  /\ mu pitem = Some (repeat 0%float (Z.to_nat lambda_len))
  /\ In i (snd res).
Proof.
  intros items Hi Hown res pitem.
  assert (Hsplit : seq 0 (List.length items)
                   = seq 0 i ++ i :: seq (S i) (List.length items - S i)).
  { replace (List.length items) with (i + S (List.length items - S i)) at 1 by lia.
    rewrite seq_app. reflexivity. }
  subst pitem res. unfold cafe_each_best_lambda_by_fminsearch. cbn [fst snd].
  cbn [pfamily set_param_lambda set_family_size set_pcafe set_num_lambdas].
  fold items.
  set (fsize := Z.of_nat (List.length items)).
  set (st0 := mk_each_state _ _ []).
  assert (E0 : es_items st0 = items) by reflexivity.
  change (flist (pfamily (es_param ?s))) with (es_items s).
  rewrite each_steps_calls, E0. cbn [fmin_calls st0 app].
  assert (Hcall : In i (filter (fun j => negb (refers_to_other (nth j items null_item) j))
                          (seq 0 (List.length items)))).
  { apply filter_In. split; [apply in_seq; lia|]. now rewrite Hown. }
  set (final := fold_left (each_step lambda_len fsize) (seq 0 (List.length items)) st0).
  assert (Hfinal : final
                   = fold_left (each_step lambda_len fsize)
                       (seq (S i) (List.length items - S i))
                       (each_step lambda_len fsize
                          (fold_left (each_step lambda_len fsize) (seq 0 i) st0) i)).
  { unfold final. rewrite Hsplit, fold_left_app. reflexivity. }
  rewrite Hfinal. clear Hfinal final.
  set (st1 := fold_left (each_step lambda_len fsize) (seq 0 i) st0).
  assert (Hrefs1 : map ref (es_items st1) = map ref items).
  { unfold st1. rewrite each_steps_refs. now rewrite E0. }
  assert (Hlen1 : List.length (es_items st1) = List.length items).
  { rewrite <- (length_map ref), Hrefs1, length_map. reflexivity. }
  assert (Hown1 : refers_to_other (nth i (es_items st1) null_item) i = false).
  { unfold refers_to_other in *. rewrite nth_map_ref, Hrefs1, <- nth_map_ref. exact Hown. }
  rewrite each_steps_other by (rewrite in_seq; lia).
  unfold each_step. unfold family_item. fold (es_items st1). rewrite Hown1.
  assert (Hi1 : i < List.length (es_items st1)) by (rewrite Hlen1; exact Hi).
  destruct (each_fit_item lambda_len fsize st1 i Hi1) as [pfm [X0 [seen E]]].
  rewrite E. cbn [lambda mu set_lambda_mu].
  split; [exists pfm, X0, seen; reflexivity|]. split; [reflexivity|exact Hcall].
Qed.

(** The rates a family of its own receives: the first [lambda_len]
    coordinates of the point at which the call of the optimizer for this
    family ended. *)
Lemma each_fit_item_call (lambda_len fsize : Z) (st : each_state) (i : nat) :
  i < List.length (es_items st) ->
  nth i (es_items (each_fit lambda_len fsize st i)) null_item
  = set_lambda_mu (nth i (es_items st) null_item)
      (Some (map (fun j => nth j (fminsearch_get_minX (snd (each_fit_call st i))) 0%float)
               (seq 0 (Z.to_nat lambda_len))))
      (Some (repeat 0%float (Z.to_nat lambda_len))).
Proof.
  intros Hi. unfold each_fit, each_fit_call, each_fit_session. cbv zeta.
  set (p3 := cafe_log _ "%s:\n" _).
  assert (H3 : pfamily p3 = pfamily (es_param st)) by reflexivity.
  pose proof (fminsearch_min_invariant (fun q => pfamily q = pfamily (es_param st))
                __cafe_each_best_lambda_search
                (fun x s Hs => eq_trans (proj1 (each_objective_frame x s)) Hs)
                (es_pfm st) (deref (param_lambda p3)) p3 H3) as H4.
  destruct (fminsearch_min __cafe_each_best_lambda_search (es_pfm st)
              (deref (param_lambda p3)) p3) as [p4 pfm1].
  cbn [fst snd] in H4 |- *.
  rewrite copy_prefix_zeros.
  set (pitem1 := set_lambda_mu _ _ _).
  assert (E : forall q : CafeParam,
             pfamily q = pfamily (cafe_shell_set_lambdas (set_family_item p4 i pitem1)
                                    (fminsearch_get_minX pfm1)) ->
             nth i (flist (pfamily q)) null_item = pitem1).
  { intros q ->. cbn [pfamily cafe_shell_set_lambdas set_param_lambda set_pcafe
                      set_family_item set_pfamily set_flist flist].
    apply nth_set_nth_eq. rewrite H4. exact Hi. }
  unfold es_items. cbn [es_param].
  rewrite E.
  - unfold pitem1, family_item. rewrite H4. reflexivity.
  - destruct (near_boundary lambda_len (fminsearch_get_minX pfm1) (pcafe p4)); reflexivity.
Qed.

(** The handle of the per-family search keeps its settings. *)
Lemma each_steps_handle (lambda_len fsize : Z) (l : list nat) :
  forall st : each_state,
    let pfm := es_pfm (fold_left (each_step lambda_len fsize) l st) in
    variable_count pfm = variable_count (es_pfm st)
    /\ tolx pfm = tolx (es_pfm st) /\ tolf pfm = tolf (es_pfm st).
Proof.
  induction l as [|i l IH]; intros st; cbn [fold_left]; [repeat split|].
  destruct (IH (each_step lambda_len fsize st i)) as [Hv [Hx Hf]].
  cbv zeta. rewrite Hv, Hx, Hf. clear IH Hv Hx Hf.
  unfold each_step. destruct (refers_to_other _ i); [repeat split|].
  unfold each_fit, fminsearch_min.
  destruct (fmin_evals _ _ _ _ _ _) as [p4 seen].
  destruct (fmin_report _ _ seen) as [[it v] x]. repeat split.
Qed.

(** The result of the per-family search for a family of its own, from the
    call of the optimizer made for it. *)
Lemma each_search_fit_call (param : CafeParam) (lambda_len : Z) (i : nat) :
  let items := flist (pfamily param) in
  i < List.length items ->
  refers_to_other (nth i items null_item) i = false ->
  let res := cafe_each_best_lambda_by_fminsearch param lambda_len in
  let pitem := nth i (flist (pfamily (fst res))) null_item in
  let st := each_state_at param lambda_len i in
  lambda pitem
  = Some (map (fun j => nth j (fminsearch_get_minX (snd (each_fit_call st i))) 0%float)
            (seq 0 (Z.to_nat lambda_len)))
  /\ mu pitem = Some (repeat 0%float (Z.to_nat lambda_len))
  /\ In i (snd res).
Proof.
  intros items Hi Hown res pitem st.
  assert (Hsplit : seq 0 (List.length items)
                   = seq 0 i ++ i :: seq (S i) (List.length items - S i)).
  { replace (List.length items) with (i + S (List.length items - S i)) at 1 by lia.
    rewrite seq_app. reflexivity. }
  subst pitem res st. unfold cafe_each_best_lambda_by_fminsearch, each_state_at.
  cbn [fst snd].
  cbn [pfamily set_param_lambda set_family_size set_pcafe set_num_lambdas].
  fold items.
  set (fsize := Z.of_nat (List.length items)).
  set (st0 := mk_each_state _ _ []).
  assert (E0 : es_items st0 = items) by reflexivity.
  change (flist (pfamily (es_param ?s))) with (es_items s).
  rewrite each_steps_calls, E0. cbn [fmin_calls st0 app].
  assert (Hcall : In i (filter (fun j => negb (refers_to_other (nth j items null_item) j))
                          (seq 0 (List.length items)))).
  { apply filter_In. split; [apply in_seq; lia|]. now rewrite Hown. }
  set (final := fold_left (each_step lambda_len fsize) (seq 0 (List.length items)) st0).
  assert (Hfinal : final
                   = fold_left (each_step lambda_len fsize)
                       (seq (S i) (List.length items - S i))
                       (each_step lambda_len fsize
                          (fold_left (each_step lambda_len fsize) (seq 0 i) st0) i)).
  { unfold final. rewrite Hsplit, fold_left_app. reflexivity. }
  rewrite Hfinal. clear Hfinal final.
  set (st1 := fold_left (each_step lambda_len fsize) (seq 0 i) st0).
  assert (Hrefs1 : map ref (es_items st1) = map ref items).
  { unfold st1. rewrite each_steps_refs. now rewrite E0. }
  assert (Hlen1 : List.length (es_items st1) = List.length items).
  { rewrite <- (length_map ref), Hrefs1, length_map. reflexivity. }
  assert (Hown1 : refers_to_other (nth i (es_items st1) null_item) i = false).
  { unfold refers_to_other in *. rewrite nth_map_ref, Hrefs1, <- nth_map_ref. exact Hown. }
  rewrite each_steps_other by (rewrite in_seq; lia).
  unfold each_step. unfold family_item. fold (es_items st1). rewrite Hown1.
  assert (Hi1 : i < List.length (es_items st1)) by (rewrite Hlen1; exact Hi).
  rewrite (each_fit_item_call lambda_len fsize st1 i Hi1).
  cbn [lambda mu set_lambda_mu].
  split; [reflexivity|]. split; [reflexivity|exact Hcall].
Qed.

(** Property X3.  After the per-family search, a family that does not refer to
    another one holds the rates the optimizer fitted in the call made for
    it: the first [lambda_len] coordinates of the point at which that call
    ended.  The call is the one the loop makes when it reaches the family:
    on the handle of the search, in [lambda_len] variables with both
    tolerances 1e-6, minimizing the per-family objective on the session
    that carries the sizes of this family, from the current rate vector of
    the session.  The rate vector of the family holds [lambda_len] values
    and its [mu] vector holds [lambda_len] zeros (the search never fills
    it). *)
Theorem each_search_fits_own_families (param : CafeParam) (lambda_len : Z) (i : nat) :
  let items := flist (pfamily param) in
  i < List.length items ->
  refers_to_other (nth i items null_item) i = false ->
  let res := cafe_each_best_lambda_by_fminsearch param lambda_len in
  let pitem := nth i (flist (pfamily (fst res))) null_item in
  let st := each_state_at param lambda_len i in
  let session := each_fit_session st i in
  lambda pitem
  = Some (map (fun j => nth j (fminsearch_get_minX (snd (each_fit_call st i))) 0%float)
            (seq 0 (Z.to_nat lambda_len)))
  /\ each_fit_call st i
     = fminsearch_min __cafe_each_best_lambda_search (es_pfm st)
         (deref (param_lambda session)) session
  /\ (variable_count (es_pfm st) = lambda_len
      /\ tolx (es_pfm st) = 1e-6%float /\ tolf (es_pfm st) = 1e-6%float)
  /\ (num_lambdas session = lambda_len
      /\ pcafe session
         = cafe_family_set_size_with_family_forced (pfamily (es_param st)) (Z.of_nat i)
             (pcafe (es_param st))
      /\ pfamily session = pfamily (es_param st)
      /\ param_lambda session = param_lambda (es_param st))
  /\ List.length (deref (lambda pitem)) = Z.to_nat lambda_len
  /\ mu pitem = Some (repeat 0%float (Z.to_nat lambda_len))
  /\ In i (snd res).
Proof.
  intros items Hi Hown res pitem st session.
  destruct (each_search_fit_call param lambda_len i Hi Hown) as [E [Hm Hc]].
  fold res in E, Hm, Hc. fold pitem in E, Hm. fold st in E.
  split; [exact E|]. split; [reflexivity|].
  split.
  { subst st. unfold each_state_at.
    destruct (each_steps_handle lambda_len
                (Z.of_nat (List.length (flist (pfamily param)))) (seq 0 i)
                (mk_each_state
                   (set_num_lambdas
                      (set_param_lambda param
                         (Some (repeat (0.5 / max_branch_length (pcafe param))%float
                                  (Z.to_nat lambda_len))))
                      lambda_len)
                   (set_tol (fminsearch_new_with_eq lambda_len) 1e-6%float 1e-6%float) []))
      as [Hv [Hx Hf]].
    cbv zeta in Hv, Hx, Hf. split; [exact Hv|]. split; [exact Hx|exact Hf]. }
  split.
  { split; [|repeat split].
    subst session st. unfold each_fit_session, each_state_at.
    cbn [num_lambdas cafe_log set_family_size set_pcafe].
    apply (each_steps_invariant (fun q => num_lambdas q = lambda_len)); try (intros; assumption).
    reflexivity. }
  split; [|split; assumption].
  rewrite E. cbn [deref]. now rewrite length_map, length_seq.
Qed.

(** ** GridScanner: the log of a scan *)

Lemma get_posterior_loop_family prior (idxs : list nat) :
  forall st : gp_state,
    let pf := gp_family (fst (get_posterior_loop prior idxs st)) in
    num_species pf = num_species (gp_family st) /\ index pf = index (gp_family st).
Proof.
  induction idxs as [|i idxs IH]; intros st; cbn [get_posterior_loop].
  - split; reflexivity.
  - assert (H1 : num_species (gp_family (get_posterior_fill prior i st))
                 = num_species (gp_family st)
                 /\ index (gp_family (get_posterior_fill prior i st)) = index (gp_family st)).
    { unfold get_posterior_fill. destruct (own_family _ i).
      - destruct (compute_posterior _ _ prior) as [[pitem1 tree2] p]. split; reflexivity.
      - split; reflexivity. }
    destruct (nth i (family_max_likelihood (get_posterior_fill prior i st)) 0 =? 0)%float.
    + exact H1.
    + cbv zeta. specialize (IH (gp_add_score (get_posterior_fill prior i st) i)).
      cbv zeta in IH. cbn [gp_family gp_add_score] in IH.
      destruct IH as [IH1 IH2]. rewrite IH1, IH2. exact H1.
Qed.

Lemma posterior_score_frame (plambda : list float) (param : CafeParam) :
  let p := fst (posterior_score plambda param) in
  flog p = flog param
  /\ num_lambdas p = num_lambdas param
  /\ session_settings p = session_settings param
  /\ family_size p = family_size param
  /\ num_species (pfamily p) = num_species (pfamily param)
  /\ index (pfamily p) = index (pfamily param).
Proof.
  cbv zeta. unfold posterior_score.
  destruct (has_negative (num_lambdas param) plambda).
  { cbn [fst]. repeat split. }
  set (p2 := set_pcafe (cafe_shell_set_lambdas param plambda) _).
  set (pr := map _ (seq 0 FAMILYSIZEMAX)).
  pose proof (get_posterior_loop_family pr (seq 0 (List.length (flist (pfamily p2))))
                (gp_init (pfamily p2) (pcafe p2))) as Hf.
  unfold get_posterior.
  destruct (get_posterior_loop pr _ (gp_init (pfamily p2) (pcafe p2))) as [st r].
  cbv zeta in Hf. cbn [fst gp_family gp_init] in Hf. destruct Hf as [Hf1 Hf2].
  destruct r as [s|what]; [|destruct (quiet _ =? 0)%Z]; cbn [fst];
    repeat split; assumption.
Qed.

Lemma best_lambda_search_log (plambda : list float) (param : CafeParam) :
  let p := fst (__cafe_best_lambda_search plambda param) in
  flog p = flog param
           ++ score_lines (num_lambdas param) plambda (snd (posterior_score plambda param))
  /\ num_lambdas p = num_lambdas param.
Proof.
  cbv zeta. unfold __cafe_best_lambda_search.
  destruct (posterior_score_frame plambda param) as [Hl [Hn _]].
  destruct (posterior_score plambda param) as [p1 s]. cbn [fst snd] in *.
  unfold cafe_log. cbn [flog set_flog num_lambdas]. rewrite Hl, Hn, <- app_assoc.
  split; reflexivity.
Qed.

Lemma distribution_step_log range (st : CafeParam * GMatrix) (i : nat) :
  let st1 := distribution_step range st i in
  let plambda := grid_point range (dim_index (dimsize (snd st)) (Z.of_nat i)) in
  flog (fst st1)
  = flog (fst st)
    ++ score_lines (num_lambdas (fst st)) plambda (snd (posterior_score plambda (fst st)))
  /\ num_lambdas (fst st1) = num_lambdas (fst st).
Proof.
  destruct st as [param pgm]. cbv zeta. unfold distribution_step, gmatrix_dim_index.
  cbn [fst snd].
  destruct (best_lambda_search_log (grid_point range (dim_index (dimsize pgm) (Z.of_nat i)))
              param) as [Hl Hn].
  destruct (__cafe_best_lambda_search _ param) as [p1 r]. cbn [fst] in Hl, Hn.
  destruct (impossible_fit _); cbn [fst flog num_lambdas set_pfamily]; split; assumption.
Qed.

Lemma scan_state_log (param : CafeParam) (range : list lambda_range) (n : nat) :
  let size := map grid_size range in
  let point j := grid_point range (dim_index size (Z.of_nat j)) in
  let score j := snd (posterior_score (point j) (fst (scan_state param range j))) in
  flog (fst (scan_state param range n))
  = flog param
    ++ flat_map (fun j => score_lines (num_lambdas param) (point j) (score j)) (seq 0 n)
  /\ num_lambdas (fst (scan_state param range n)) = num_lambdas param.
Proof.
  cbv zeta. induction n as [|n [IHl IHn]].
  - cbn. now rewrite app_nil_r.
  - unfold scan_state in *. rewrite seq_S, fold_left_app. cbn [fold_left Nat.add].
    set (st := fold_left (distribution_step range) (seq 0 n) _) in *.
    destruct (distribution_step_log range st n) as [Hl Hn].
    assert (Hd : dimsize (snd st) = map grid_size range).
    { unfold st. now rewrite (proj1 (distribution_steps_matrix range (seq 0 n) _)). }
    rewrite Hd in Hl. rewrite Hl, Hn, IHl, IHn.
    rewrite flat_map_app. cbn [flat_map]. rewrite app_nil_r, app_assoc.
    split; reflexivity.
Qed.

(** Property X4.  A grid scan whose sizes fit an [int] logs, for every grid
    point in scan order, the line with the point (as many rates as there
    are ranges) and its score, followed by a dot; it logs nothing else,
    whether or not an output file is given; there is at least one point,
    and at most [INT_MAX]; the scan leaves the number of rates of the
    session at the number of ranges. *)
Theorem grid_scan_logs_every_point
    (param : CafeParam) (range : list lambda_range) (fp : option (list string)) :
  let size := map grid_size range in
  let n := Z.to_nat (fold_right Z.mul 1%Z size) in
  let p1 := set_num_lambdas param (Z.of_nat (List.length range)) in
  let point j := grid_point range (dim_index size (Z.of_nat j)) in
  let score j := snd (posterior_score (point j) (fst (scan_state p1 range j))) in
  let p := fst (write_lambda_distribution param range fp) in
  scan_fits_int range = true ->
  flog p
  = flog param
    ++ flat_map
         (fun j =>
            [("Lambda : %s & Score: %f\n"%string,
              [AJoin "," (Z.of_nat (List.length range)) (point j); ADouble (score j)]);
             ("."%string, [])])
         (seq 0 n)
  /\ (1 <= Z.of_nat n <= INT_MAX)%Z
  /\ num_lambdas p = Z.of_nat (List.length range).
Proof.
  cbv zeta. intros Hfits.
  pose proof (scan_fits_int_points range Hfits) as Hpoints.
  unfold write_lambda_distribution.
  set (p1 := set_num_lambdas param (Z.of_nat (List.length range))).
  destruct (scan_state_log p1 range
              (Z.to_nat (fold_right Z.mul 1%Z (map grid_size range)))) as [Hl Hn].
  unfold scan_state in Hl, Hn at 1. unfold cafe_lambda_distribution.
  cbn [num_elements gmatrix_double_new].
  destruct (fold_left (distribution_step range) _ (p1, _)) as [p2 pgm] eqn:E.
  cbn [fst] in Hl, Hn.
  assert (Hp : fst (match fp with
                    | Some rows =>
                        (p2, Some (rows ++ map (distribution_row range pgm)
                                     (seq 0 (Z.to_nat (num_elements pgm)))))
                    | None => (p2, None)
                    end) = p2) by (destruct fp; reflexivity).
  rewrite Hp, Hl, Hn. split; [reflexivity|]. split; [|reflexivity].
  rewrite Z2Nat.id; lia.
Qed.

(** ** PosteriorScorer: what an evaluation does to the families *)

Lemma nth_set_nth {A : Type} (i j : nat) (x d : A) (l : list A) :
  nth j (set_nth i x l) d
  = if ((j =? i) && (i <? List.length l))%bool then x else nth j l d.
Proof.
  destruct (Nat.eqb_spec j i) as [->|Hne]; cbn [andb].
  - destruct (Nat.ltb_spec i (List.length l)).
    + now apply nth_set_nth_eq.
    + rewrite !nth_overflow; [reflexivity|lia|rewrite length_set_nth; lia].
  - apply nth_set_nth_neq. congruence.
Qed.

Lemma caches_root_size_refl (j : nat) (pitem : CafeFamilyItem) :
  caches_root_size j pitem pitem.
Proof.
  unfold caches_root_size. repeat split. now left.
Qed.

Lemma caches_root_size_trans (j : nat) (a b c : CafeFamilyItem) :
  caches_root_size j a b -> caches_root_size j b c -> caches_root_size j a c.
Proof.
  unfold caches_root_size, own_family.
  intros [A1 [A2 [A3 [A4 [A5 A6]]]]] [B1 [B2 [B3 [B4 [B5 B6]]]]].
  repeat split; try congruence.
  destruct A6 as [A6|A6]; [|now right].
  destruct B6 as [B6|[B6 B7]]; [left; congruence|].
  right. rewrite <- A6, <- A2. now split.
Qed.

Lemma get_posterior_fill_items prior (i : nat) (st : gp_state) :
  List.length (flist (gp_family (get_posterior_fill prior i st)))
  = List.length (flist (gp_family st))
  /\ forall j,
       caches_root_size j (nth j (flist (gp_family st)) null_item)
         (nth j (flist (gp_family (get_posterior_fill prior i st))) null_item).
Proof.
  unfold get_posterior_fill, family_item.
  destruct (own_family (nth i (flist (gp_family st)) null_item) i) eqn:Hown.
  - unfold compute_posterior. cbn [gp_family flist set_flist].
    split; [apply length_set_nth|].
    intros j. rewrite nth_set_nth.
    destruct (Nat.eqb_spec j i) as [->|Hne]; cbn [andb];
      [|apply caches_root_size_refl].
    destruct (i <? List.length (flist (gp_family st))); [|apply caches_root_size_refl].
    destruct (Z.ltb_spec (maxlh (nth i (flist (gp_family st)) null_item)) 0);
      [|apply caches_root_size_refl].
    unfold caches_root_size. cbn [id ref count lambda mu maxlh set_maxlh].
    repeat split. right. split; assumption.
  - cbn [gp_family]. split; [reflexivity|]. intros j. apply caches_root_size_refl.
Qed.

Lemma get_posterior_loop_items prior (idxs : list nat) :
  forall st : gp_state,
    let pf := gp_family (fst (get_posterior_loop prior idxs st)) in
    List.length (flist pf) = List.length (flist (gp_family st))
    /\ forall j,
         caches_root_size j (nth j (flist (gp_family st)) null_item)
           (nth j (flist pf) null_item).
Proof.
  induction idxs as [|i idxs IH]; intros st; cbn [get_posterior_loop]; cbv zeta.
  - split; [reflexivity|]. intros j. apply caches_root_size_refl.
  - destruct (get_posterior_fill_items prior i st) as [Hlen Hitems].
    destruct (nth i (family_max_likelihood (get_posterior_fill prior i st)) 0 =? 0)%float.
    + cbn [fst]. split; assumption.
    + specialize (IH (gp_add_score (get_posterior_fill prior i st) i)).
      cbv zeta in IH. cbn [gp_family gp_add_score] in IH. destruct IH as [IHlen IHitems].
      split; [congruence|]. intros j.
      eapply caches_root_size_trans; [apply Hitems|apply IHitems].
Qed.

Lemma posterior_score_items (plambda : list float) (param : CafeParam) :
  let p := fst (posterior_score plambda param) in
  List.length (flist (pfamily p)) = List.length (flist (pfamily param))
  /\ forall j,
       caches_root_size j (nth j (flist (pfamily param)) null_item)
         (nth j (flist (pfamily p)) null_item).
Proof.
  cbv zeta. unfold posterior_score.
  destruct (has_negative (num_lambdas param) plambda).
  { cbn [fst]. split; [reflexivity|]. intros j. apply caches_root_size_refl. }
  set (p2 := set_pcafe (cafe_shell_set_lambdas param plambda) _).
  set (pr := map _ (seq 0 FAMILYSIZEMAX)).
  pose proof (get_posterior_loop_items pr (seq 0 (List.length (flist (pfamily p2))))
                (gp_init (pfamily p2) (pcafe p2))) as Hf.
  unfold get_posterior.
  destruct (get_posterior_loop pr _ (gp_init (pfamily p2) (pcafe p2))) as [st r].
  cbv zeta in Hf. cbn [fst gp_family gp_init] in Hf.
  destruct r as [s|what]; [|destruct (quiet _ =? 0)%Z]; cbn [fst]; exact Hf.
Qed.

Lemma item_eq (a b : CafeFamilyItem) :
  id a = id b -> ref a = ref b -> count a = count b -> maxlh a = maxlh b ->
  lambda a = lambda b -> mu a = mu b -> a = b.
Proof.
  destruct a, b. cbn. intros; subst; reflexivity.
Qed.

(** Property X5.  An evaluation of the posterior objective keeps the number and the
    order of the families and, of each family, its name, reference, counts
    and rates; the only field it may write is the cached root size
    [maxlh], and it writes it only where it is negative, and only for a
    family that does not refer to another one.  Hence with every root size
    cached the families come out unchanged.  The species, the settings,
    the number of rates and the family-size range are left as they are. *)
Theorem scoring_only_caches_root_sizes (plambda : list float) (param : CafeParam) :
  let p := fst (__cafe_best_lambda_search plambda param) in
  List.length (flist (pfamily p)) = List.length (flist (pfamily param))
  /\ (forall j : nat,
        caches_root_size j (nth j (flist (pfamily param)) null_item)
          (nth j (flist (pfamily p)) null_item))
  /\ (Forall (fun pitem => (0 <= maxlh pitem)%Z) (flist (pfamily param)) ->
      pfamily p = pfamily param)
  /\ num_species (pfamily p) = num_species (pfamily param)
  /\ index (pfamily p) = index (pfamily param)
  /\ session_settings p = session_settings param
  /\ num_lambdas p = num_lambdas param
  /\ family_size p = family_size param.
Proof.
  cbv zeta.
  destruct (posterior_score_items plambda param) as [Hlen Hitems].
  destruct (posterior_score_frame plambda param) as [_ [Hn [Hs [Hf [Hsp Hix]]]]].
  unfold __cafe_best_lambda_search.
  destruct (posterior_score plambda param) as [p1 s]. cbn [fst] in *.
  unfold cafe_log.
  cbn [pfamily set_flog num_lambdas family_size].
  split; [exact Hlen|]. split; [exact Hitems|].
  split; [|repeat split; assumption].
  intros Hall.
  assert (E : flist (pfamily p1) = flist (pfamily param)).
  { apply nth_ext with (d := null_item) (d' := null_item); [exact Hlen|].
    intros j Hj. rewrite Hlen in Hj.
    destruct (Hitems j) as [H1 [H2 [H3 [H4 [H5 H6]]]]].
    apply item_eq; try assumption.
    destruct H6 as [H6|[H6 _]]; [exact H6|].
    rewrite Forall_forall in Hall.
    specialize (Hall _ (nth_In _ null_item Hj)). lia. }
  destruct (pfamily p1), (pfamily param). cbn in *. congruence.
Qed.

(** ** The whole-data search: when the runs stop *)

Lemma search_run_checkconv (emfuel : nat) (lambda_len k : Z) (rnd : list float)
    (st st1 : search_state) :
  (forall x p, checkconv (fst (__cafe_cluster_lambda_search x p)) = checkconv p) ->
  search_run emfuel lambda_len k rnd st = Some st1 ->
  checkconv (ss_param st1) = checkconv (ss_param st).
Proof.
  intros Hcluster E.
  destruct (search_run_rule _ _ _ _ _ _ E) as [p [pfm [Eo [_ [_ [_ Hcc]]]]]].
  destruct (search_optimize_invariant
              (fun q => checkconv q = checkconv (ss_param st))
              (fun _ => True) (fun _ => True)
              emfuel lambda_len k rnd) with (param := ss_param st) (p1 := p) (pfm1 := pfm)
    as [HP _]; auto.
  - intros x q Hq. now rewrite Hcluster.
  - intros x q Hq. now rewrite best_lambda_search_checkconv.
  - congruence.
Qed.

Lemma search_runs_exit (n emfuel : nat) (lambda_len k : Z) (rnd : nat -> list float) :
  forall st st1,
    0 < n ->
    search_runs n emfuel lambda_len k rnd st = Some st1 ->
    search_again st1 = false \/ runs st1 = (runs st + Z.of_nat n)%Z.
Proof.
  induction n as [|n IH]; intros st st1 Hn E; [lia|].
  cbn [search_runs] in E.
  destruct (search_run emfuel lambda_len k (rnd (Z.to_nat (runs st))) st) as [st'|] eqn:Er;
    [|discriminate].
  destruct (search_run_rule _ _ _ _ _ _ Er) as [_ [_ [_ [Hr _]]]].
  destruct (search_again st') eqn:Ea.
  - destruct n as [|n'].
    + cbn [search_runs] in E. inversion E; subst. right. lia.
    + destruct (IH st' st1 ltac:(lia) E) as [H|H]; [now left|right; lia].
  - inversion E; subst. now left.
Qed.

Lemma search_runs_invariant (P : search_state -> Prop) (n emfuel : nat)
    (lambda_len k : Z) (rnd : nat -> list float) :
  (forall r st st1, P st -> search_run emfuel lambda_len k r st = Some st1 -> P st1) ->
  forall st st1,
    P st -> search_runs n emfuel lambda_len k rnd st = Some st1 -> P st1.
Proof.
  intros Hstep. induction n as [|n IH]; intros st st1 Hp E.
  - cbn [search_runs] in E. inversion E; subst. exact Hp.
  - cbn [search_runs] in E.
    destruct (search_run emfuel lambda_len k (rnd (Z.to_nat (runs st))) st) as [st'|] eqn:Er;
      [|discriminate].
    pose proof (Hstep _ _ _ Hp Er) as Hp'.
    destruct (search_again st').
    + exact (IH st' st1 Hp' E).
    + inversion E; subst. exact Hp'.
Qed.

Lemma search_runs_first (n emfuel : nat) (lambda_len k : Z) (rnd : nat -> list float)
    (st st1 : search_state) :
  search_runs (S n) emfuel lambda_len k rnd st = Some st1 ->
  exists st',
    search_run emfuel lambda_len k (rnd (Z.to_nat (runs st))) st = Some st'
    /\ (search_again st' = false -> st1 = st').
Proof.
  cbn [search_runs].
  destruct (search_run emfuel lambda_len k (rnd (Z.to_nat (runs st))) st) as [st'|];
    [|discriminate].
  intros E. exists st'. split; [reflexivity|]. intros Ha. rewrite Ha in E. congruence.
Qed.

(** Property X6.  When the whole-data search returns (the mixture objective, defined
    elsewhere, is assumed to leave the convergence switch alone), the
    switch is as on entry; with the switch off it has made exactly one run
    and logged no verdict; with the switch on and no convergence declared
    it has made all 10 runs; and convergence is never declared before the
    second run. *)
Theorem search_stops_on_convergence_or_cap (emfuel : nat) (param : CafeParam)
    (lambda_len k : Z) (rnd : nat -> list float) (st : search_state) :
  (forall x p, checkconv (fst (__cafe_cluster_lambda_search x p)) = checkconv p) ->
  cafe_best_lambda_by_fminsearch emfuel param lambda_len k rnd = Some st ->
  checkconv (ss_param st) = checkconv param
  /\ (checkconv param = 0%Z ->
      runs st = 1%Z /\ converged st = 0%Z
      /\ exists st1,
           search_run emfuel lambda_len k (rnd 0)
             (mk_search_state param (repeat 0%float 10) 0 0) = Some st1
           /\ ss_param st = ss_param st1)
  /\ (checkconv param <> 0%Z -> converged st = 0%Z -> runs st = 10%Z)
  /\ (converged st <> 0%Z -> converged st = 1%Z /\ (2 <= runs st)%Z).
Proof.
  intros Hcluster E. unfold cafe_best_lambda_by_fminsearch in E.
  set (st0 := mk_search_state param (repeat 0%float (Z.to_nat max_runs)) 0 0) in E.
  destruct (search_runs (Z.to_nat max_runs) emfuel lambda_len k rnd st0) as [st'|] eqn:Er;
    [|discriminate].
  inversion E; subst st; clear E. cbn [ss_param runs converged].
  pose (P := fun s : search_state =>
               checkconv (ss_param s) = checkconv param
               /\ (converged s = 0%Z \/ (converged s = 1%Z /\ (2 <= runs s)%Z))
               /\ (0 <= runs s)%Z).
  assert (HP : P st').
  { apply (search_runs_invariant P (Z.to_nat max_runs) emfuel lambda_len k rnd)
      with (st := st0) (st1 := st'); [| |exact Er].
    - intros r s s1 [Hc [Hv Hr]] Es. unfold P.
      rewrite (search_run_checkconv _ _ _ _ _ _ Hcluster Es).
      destruct (search_run_rule _ _ _ _ _ _ Es) as [_ [pfm [_ [Hr1 [_ [Hc1 _]]]]]].
      split; [exact Hc|]. split; [|lia].
      rewrite Hc1, Hr1.
      destruct (Z.ltb_spec 0 (runs s)); cbn [andb].
      + destruct (close_to_best (scores s) (runs s) pfm); [right; split; [reflexivity|lia]|].
        destruct Hv as [Hv|[Hv Hv2]]; [now left|right; split; [exact Hv|lia]].
      + destruct Hv as [Hv|[Hv Hv2]]; [now left|lia].
    - unfold P, st0. cbn [ss_param converged runs]. split; [reflexivity|].
      split; [now left|lia]. }
  destruct HP as [Hcc [Hconv _]].
  assert (Hlog : checkconv (log_convergence st') = checkconv (ss_param st')).
  { unfold log_convergence. destruct (checkconv (ss_param st') =? 0)%Z; [reflexivity|].
    destruct (converged st' =? 0)%Z; reflexivity. }
  split; [congruence|]. split; [|split].
  - intros H0.
    change (Z.to_nat max_runs) with 10 in Er.
    destruct (search_runs_first _ _ _ _ _ _ _ Er) as [st1 [E1 Hst]].
    assert (Ha : search_again st1 = false).
    { unfold search_again.
      rewrite (search_run_checkconv _ _ _ _ _ _ Hcluster E1). unfold st0. cbn [ss_param].
      rewrite H0. reflexivity. }
    specialize (Hst Ha). subst st'.
    destruct (search_run_rule _ _ _ _ _ _ E1) as [_ [pfm [_ [Hr1 [_ [Hc1 _]]]]]].
    unfold st0 in Hr1, Hc1. cbn [runs converged scores] in Hr1, Hc1.
    split; [exact Hr1|]. split; [exact Hc1|].
    exists st1. split; [exact E1|].
    unfold log_convergence. rewrite Hcc, H0. reflexivity.
  - intros Hne H0.
    assert (Hpos : 0 < Z.to_nat max_runs) by (cbn; lia).
    destruct (search_runs_exit _ _ _ _ _ _ _ Hpos Er) as [Ha|Hr].
    + unfold search_again in Ha. rewrite Hcc, H0 in Ha.
      destruct (Z.eqb_spec (checkconv param) 0); [contradiction|].
      cbn [negb andb Z.eqb] in Ha. apply Z.ltb_ge in Ha.
      apply search_runs_count in Er. unfold st0, max_runs in *. cbn in Er. lia.
    + unfold st0 in Hr. cbn in Hr. exact Hr.
  - intros Hne. destruct Hconv as [H|H]; [contradiction|exact H].
Qed.

Lemma fminsearch_min_settings {S : Type} (eq : list float -> S -> S * float) pfm X0 s :
  let pfm1 := snd (fminsearch_min eq pfm X0 s) in
  (tolx pfm1, tolf pfm1, variable_count pfm1) = (tolx pfm, tolf pfm, variable_count pfm).
Proof.
  cbv zeta. unfold fminsearch_min.
  destruct (fmin_evals eq pfm X0 fmin_maxeval [] s) as [s1 seen].
  destruct (fmin_report pfm X0 seen) as [[it v] x]. reflexivity.
Qed.

(** Property X7.  The optimizer of a run of the whole-data search works with the
    settings the run created it with, through the first minimization and
    every pass of the EM loop: for a mixture ([k > 0]) the tolerances are
    1e-5 and it has as many variables as the session has parameters;
    otherwise the tolerances are 1e-6 and it has [lambda_len] variables. *)
Theorem search_tolerance_profiles (emfuel : nat) (lambda_len k : Z) (rnd : list float)
    (param p : CafeParam) (pfm : FMinSearch) :
  search_optimize emfuel lambda_len k rnd param = Some (p, pfm) ->
  (tolx pfm, tolf pfm, variable_count pfm)
  = if (0 <? k)%Z then (1e-5%float, 1e-5%float, num_params param)
    else (1e-6%float, 1e-6%float, lambda_len).
Proof.
  unfold search_optimize.
  set (p1 := if (0 <? num_params param)%Z then _ else param).
  assert (Hn : num_params p1 = num_params param).
  { subst p1. destruct (0 <? num_params param)%Z; [|reflexivity].
    destruct (input_values_randomize rnd param _ _) as [ps kw]. reflexivity. }
  set (p2 := set_pcafe p1 _).
  assert (Hn2 : num_params p2 = num_params param) by exact Hn.
  destruct (0 <? k)%Z.
  - set (pfm0 := set_tol (fminsearch_new_with_eq (num_params p2)) 1e-5 1e-5).
    set (X0 := copy_prefix _ _ _).
    pose proof (fminsearch_min_settings __cafe_cluster_lambda_search pfm0 X0 p2) as H1.
    destruct (fminsearch_min __cafe_cluster_lambda_search pfm0 X0 p2) as [p3 pfm1].
    cbv zeta in H1. cbn [snd] in H1. intros E.
    destruct (em_loop_invariant (fun _ => True)
                (fun f => (tolx f, tolf f, variable_count f)
                          = (1e-5%float, 1e-5%float, num_params param))
                (fun f => (tolx f, tolf f, variable_count f)
                          = (1e-5%float, 1e-5%float, num_params param))
                lambda_len k) with (7 := E) as [_ HQ]; auto.
    + intros eq f Y s Hf. rewrite <- Hf. apply (fminsearch_min_settings eq f Y s).
    + rewrite H1. subst pfm0. unfold set_tol, fminsearch_new_with_eq.
      cbn [tolx tolf variable_count]. now rewrite Hn2.
  - set (pfm0 := set_tol (fminsearch_new_with_eq lambda_len) 1e-6 1e-6).
    set (X0 := copy_prefix _ _ _).
    pose proof (fminsearch_min_settings __cafe_best_lambda_search pfm0 X0 p2) as H1.
    destruct (fminsearch_min __cafe_best_lambda_search pfm0 X0 p2) as [p3 pfm1].
    cbv zeta in H1. cbn [snd] in H1. intros E. inversion E; subst. exact H1.
Qed.

(** ** PriorEstimator: families without a positive count *)

(** Property X8.  When no species on the tree has a positive count in any family,
    the data of the Poisson fit is empty and the objective of the fit has
    the same value, [-0], at every rate: the fit has nothing to go by. *)
Theorem prior_fit_without_positive_counts (pf : CafeFamily) :
  (forall pitem i,
      In pitem (flist pf) -> i < Z.to_nat (num_species pf) ->
      (0 <= nth i (index pf) 0)%Z -> (nth i (count pitem) 0 <= 0)%Z) ->
  collect_leaf_sizes pf = []
  /\ forall plambda, __lnLPoisson plambda (collect_leaf_sizes pf) = (-0)%float.
Proof.
  intros Hzero.
  assert (E : collect_leaf_sizes pf = []).
  { rewrite collect_leaf_sizes_spec. unfold shifted_positive_counts.
    destruct (flat_map _ (flist pf)) as [|x l] eqn:El; [reflexivity|exfalso].
    assert (Hx : In x (x :: l)) by now left.
    rewrite <- El in Hx. apply in_flat_map in Hx. destruct Hx as [pitem [Hin Hx]].
    apply in_map_iff in Hx. destruct Hx as [c [_ Hc]].
    apply filter_In in Hc. destruct Hc as [Hc Hpos]. apply Z.ltb_lt in Hpos.
    unfold leaf_counts in Hc. apply in_map_iff in Hc. destruct Hc as [i [Hi Hf]].
    apply filter_In in Hf. destruct Hf as [Hseq Hidx].
    apply in_seq in Hseq. apply negb_true_iff, Z.ltb_ge in Hidx.
    specialize (Hzero pitem i Hin ltac:(lia) Hidx). lia. }
  split; [exact E|]. intros plambda. rewrite E. reflexivity.
Qed.

End MoreProperties.

(** ** The lambda command *)

Section CommandProperties.

Context {ext : Collaborators} {cmd : CommandCollaborators}.

(** Property X9.  [set_all_lambdas] leaves the session with at least one rate: the
    number of rates becomes the larger of 1 and its old value, and the
    current rate vector holds exactly that many copies of the value.
    Nothing else of the session changes. *)
Theorem set_all_lambdas_fills_at_least_one (param : CafeParam) (value : float) :
  let p := set_all_lambdas param value in
  num_lambdas p = Z.max 1 (num_lambdas param)
  /\ param_lambda p = Some (repeat value (Z.to_nat (num_lambdas p)))
  /\ 1 <= List.length (deref (param_lambda p))
  /\ p = set_param_lambda (set_num_lambdas param (num_lambdas p)) (param_lambda p).
Proof.
  cbv zeta. unfold set_all_lambdas.
  cbn [num_lambdas set_param_lambda set_num_lambdas param_lambda].
  rewrite fold_set_nth_repeat.
  assert (E : (if (num_lambdas param <? 1)%Z then 1%Z else num_lambdas param)
              = Z.max 1 (num_lambdas param)).
  { destruct (Z.ltb_spec (num_lambdas param) 1); lia. }
  rewrite E. split; [reflexivity|]. split; [reflexivity|]. split.
  - cbn [deref]. rewrite repeat_length. lia.
  - reflexivity.
Qed.

Lemma length_resize {A : Type} (n : nat) (d : A) (v : list A) :
  List.length (resize n d v) = n.
Proof.
  unfold resize. rewrite length_app, length_firstn, repeat_length. lia.
Qed.

(** Property X10.  The setup of [lambda_search].  Without a rate structure there is
    one rate.  With [K > 0] weights given, the session gets [K] clusters,
    the options' [fixcluster0], zeroed weights and
    [|lambdas| * (K - fixcluster0) + (K - 1)] parameters; if the rate list
    is as long as the number of rates (always so without a rate
    structure), the [K - 1] weights the search reads from its first-weight
    index on are exactly the last slots of the parameter vector.  With no
    weights given, the number of parameters is the number of rates and the
    cluster count of the session is left as it was. *)
Theorem lambda_search_parameter_layout (param : CafeParam) (params : lambda_args.t) :
  let res := lambda_search_setup param params in
  let p := fst res in
  let a := snd res in
  let K := Z.of_nat (List.length (lambda_args.k_weights params)) in
  let L := Z.of_nat (List.length (lambda_args.lambdas a)) in
  (match lambda_args.lambda_tree params with
   | None => num_lambdas p = 1%Z /\ L = 1%Z
   | Some _ => num_lambdas p = num_lambdas param
               /\ lambda_args.lambdas a = lambda_args.lambdas params
   end)
  /\ (if (0 <? K)%Z
      then parameterized_k_value p = K
           /\ fixcluster0 p = lambda_args.fixcluster0 params
           /\ num_params p = (L * (K - lambda_args.fixcluster0 params) + (K - 1))%Z
           /\ k_weights p = repeat 0%float (Z.to_nat K)
           /\ (L = num_lambdas p ->
               (0 <= num_lambdas p)%Z ->
               (0 <= lambda_args.fixcluster0 params <= K)%Z ->
               (Z.of_nat (weight_index (num_lambdas p) (parameterized_k_value p) p)
                + (K - 1) = num_params p)%Z)
      else parameterized_k_value p = parameterized_k_value param
           /\ fixcluster0 p = fixcluster0 param
           /\ num_params p = num_lambdas p
           /\ k_weights p = k_weights param)
  /\ input_parameters p = input_values_construct (input_parameters param) (num_params p)
  /\ checkconv p = (if lambda_args.checkconv params then 1%Z else checkconv param).
Proof.
  cbv zeta. unfold lambda_search_setup.
  destruct (lambda_args.lambda_tree params) as [tree|].
  - destruct (0 <? Z.of_nat (List.length (lambda_args.k_weights params)))%Z eqn:Ek;
      destruct (lambda_args.checkconv params);
      cbn -[Z.mul Z.add Z.sub Z.of_nat Z.ltb]; rewrite ?Ek;
      cbn -[Z.mul Z.add Z.sub Z.of_nat Z.ltb];
      repeat split; try reflexivity.
    all: intros HL Hn Hf; unfold weight_index;
      cbn -[Z.mul Z.add Z.sub Z.of_nat Z.ltb]; rewrite HL; nia.
  - cbv beta iota zeta. unfold lambda_args.set_lambdas.
    cbn [lambda_args.k_weights lambda_args.lambdas lambda_args.fixcluster0
         lambda_args.checkconv].
    pose proof (length_resize 1 0%float (lambda_args.lambdas params)) as Hl1.
    set (l1 := resize 1 0%float (lambda_args.lambdas params)) in *. clearbody l1.
    destruct (0 <? Z.of_nat (List.length (lambda_args.k_weights params)))%Z eqn:Ek;
      destruct (lambda_args.checkconv params);
      cbn -[Z.mul Z.add Z.sub Z.of_nat Z.ltb]; rewrite ?Ek;
      cbn -[Z.mul Z.add Z.sub Z.of_nat Z.ltb]; rewrite ?Hl1;
      repeat split; try reflexivity.
    all: intros HL Hn Hf; unfold weight_index;
      cbn -[Z.mul Z.add Z.sub Z.of_nat Z.ltb]; nia.
Qed.

Lemma lambda_search_setup_families (param : CafeParam) (params : lambda_args.t) :
  pfamily (fst (lambda_search_setup param params)) = pfamily param
  /\ lambda_args.each (snd (lambda_search_setup param params)) = lambda_args.each params
  /\ (lambda_args.lambda_tree params = None ->
      num_lambdas (fst (lambda_search_setup param params)) = 1%Z).
Proof.
  unfold lambda_search_setup.
  destruct (lambda_args.lambda_tree params);
    destruct (0 <? Z.of_nat (List.length (lambda_args.k_weights _)))%Z;
    destruct (lambda_args.checkconv _); repeat split; try reflexivity; discriminate.
Qed.

(** Property X11.  A search for every family ([-e]) without a rate structure fits
    one rate per family: the command's search returns, the session has one
    rate, and every family that does not refer to another one comes out
    with a rate vector of length 1 and the [mu] vector [0]. *)
Theorem lambda_search_each_fits_one_rate (emfuel : nat) (rnd : nat -> list float)
    (param : CafeParam) (params : lambda_args.t) (i : nat) :
  lambda_args.each params = true ->
  lambda_args.lambda_tree params = None ->
  i < List.length (flist (pfamily param)) ->
  refers_to_other (nth i (flist (pfamily param)) null_item) i = false ->
  exists p a,
    lambda_search emfuel rnd param params = Some (p, a)
    /\ num_lambdas p = 1%Z
    /\ List.length (deref (lambda (nth i (flist (pfamily p)) null_item))) = 1
    /\ mu (nth i (flist (pfamily p)) null_item) = Some [0%float].
Proof.
  intros He Ht Hi Hown. unfold lambda_search.
  destruct (lambda_search_setup_families param params) as [Hf [Hea Hn]].
  specialize (Hn Ht).
  destruct (lambda_search_setup param params) as [p1 a1]. cbn [fst snd] in *.
  rewrite Hea, He, Hn.
  eexists. eexists. split; [reflexivity|].
  rewrite <- Hf in Hi, Hown.
  destruct (each_search_fit_result p1 1 i Hi Hown) as [[pfm [X0 [seen E]]] [Hm _]].
  split; [|split].
  - exact (proj1 (proj2 (proj2 (proj2 (each_search_frame p1 1))))).
  - rewrite E. reflexivity.
  - rewrite Hm. reflexivity.
Qed.

(** *** The options *)

Ltac opt_case parg name :=
  let E := fresh "E" in
  destruct (String.eqb_spec (opt parg) name) as [E|E];
  [rewrite ?E in *; cbn [String.eqb Ascii.eqb Bool.eqb]|].

Ltac done_case :=
  let H := fresh "H" in
  intros H; inversion H; subst; cbn;
  rewrite ?orb_true_r, ?orb_false_r; repeat split; try discriminate.

Lemma lambda_arg_base_option_effect (parg : Argument) (p p1 : CafeParam)
    (a a1 : lambda_args.t) :
  lambda_arg_base_option parg p a = (p1, Ok a1) ->
  (lambda_args.search a1 = lambda_args.search a || is_opt "-s" parg
   /\ lambda_args.checkconv a1 = lambda_args.checkconv a || is_opt "-checkconv" parg
   /\ lambda_args.score a1 = lambda_args.score a || is_opt "-score" parg
   /\ lambda_args.fixcluster0 a1
      = (if is_opt "-f" parg then 1%Z else lambda_args.fixcluster0 a)
   /\ lambda_args.lambda_type a1
      = (if is_opt "-l" parg then MULTIPLE_LAMBDAS else lambda_args.lambda_type a))%bool
  /\ (lambda_args.vlambda a1 = lambda_args.vlambda a
      /\ lambda_args.range a1 = lambda_args.range a
      /\ lambda_args.write_files a1 = lambda_args.write_files a
      /\ lambda_args.each a1 = lambda_args.each a
      /\ lambda_args.outfile a1 = lambda_args.outfile a
      /\ lambda_args.name a1 = lambda_args.name a)
  /\ (is_opt "-t" parg = false ->
      p1 = p /\ lambda_args.lambda_tree a1 = lambda_args.lambda_tree a
      /\ lambda_args.bdone a1 = lambda_args.bdone a).
Proof.
  unfold lambda_arg_base_option, is_opt.
  opt_case parg "-s"%string; [done_case|].
  opt_case parg "-checkconv"%string; [done_case|].
  opt_case parg "-score"%string; [done_case|].
  opt_case parg "-t"%string.
  { destruct (__cafe_cmd_lambda_tree p (arg parg 0) _) as [[r q] tree].
    destruct (r <? 0)%Z; [discriminate|].
    destruct (vector_resize _ _ _); [|discriminate]. done_case. }
  opt_case parg "-l"%string; [done_case|].
  opt_case parg "-p"%string; [done_case|].
  opt_case parg "-k"%string.
  { destruct (vector_resize _ _ _); [|discriminate]. done_case. }
  opt_case parg "-f"%string; [done_case|].
  done_case.
Qed.

Lemma lambda_arg_base_load_effect (pargs : list Argument) :
  forall (p p1 : CafeParam) (a a1 : lambda_args.t),
    lambda_arg_base_load pargs p a = (p1, Ok a1) ->
    (lambda_args.search a1 = lambda_args.search a || existsb (is_opt "-s") pargs
     /\ lambda_args.checkconv a1
        = lambda_args.checkconv a || existsb (is_opt "-checkconv") pargs
     /\ lambda_args.score a1 = lambda_args.score a || existsb (is_opt "-score") pargs
     /\ lambda_args.fixcluster0 a1
        = (if existsb (is_opt "-f") pargs then 1%Z else lambda_args.fixcluster0 a)
     /\ lambda_args.lambda_type a1
        = (if existsb (is_opt "-l") pargs then MULTIPLE_LAMBDAS
           else lambda_args.lambda_type a))%bool
    /\ (lambda_args.vlambda a1 = lambda_args.vlambda a
        /\ lambda_args.range a1 = lambda_args.range a
        /\ lambda_args.write_files a1 = lambda_args.write_files a
        /\ lambda_args.each a1 = lambda_args.each a
        /\ lambda_args.outfile a1 = lambda_args.outfile a
        /\ lambda_args.name a1 = lambda_args.name a)
    /\ (existsb (is_opt "-t") pargs = false ->
        p1 = p /\ lambda_args.lambda_tree a1 = lambda_args.lambda_tree a
        /\ lambda_args.bdone a1 = lambda_args.bdone a).
Proof.
  induction pargs as [|parg rest IH]; intros p p1 a a1 E; cbn [lambda_arg_base_load] in E.
  - inversion E; subst. cbn [existsb]. rewrite !orb_false_r. repeat split.
  - destruct (lambda_arg_base_option parg p a) as [q [b|what]] eqn:Eo; [|discriminate].
    destruct (lambda_arg_base_option_effect _ _ _ _ _ Eo)
      as [[S1 [S2 [S3 [S4 S5]]]] [[D1 [D2 [D3 [D4 [D5 D6]]]]] T]].
    destruct (IH _ _ _ _ E)
      as [[R1 [R2 [R3 [R4 R5]]]] [[F1 [F2 [F3 [F4 [F5 F6]]]]] U]].
    cbn [existsb].
    split; [|split].
    + rewrite R1, R2, R3, R4, R5, S1, S2, S3, S4, S5, !orb_assoc.
      repeat split.
      * destruct (is_opt "-f" parg); cbn [orb]; [|reflexivity].
        destruct (existsb (is_opt "-f") rest); reflexivity.
      * destruct (is_opt "-l" parg); cbn [orb]; [|reflexivity].
        destruct (existsb (is_opt "-l") rest); reflexivity.
    + repeat split; congruence.
    + intros Ht. apply orb_false_iff in Ht. destruct Ht as [Ht1 Ht2].
      destruct (T Ht1) as [T1 [T2 T3]]. destruct (U Ht2) as [U1 [U2 U3]].
      repeat split; congruence.
Qed.

Lemma lambda_args_option_effect (parg : Argument) (a a1 : lambda_args.t) :
  lambda_args_option parg a = Ok a1 ->
  (lambda_args.lambda_type a1
   = (if is_opt "-v" parg then SINGLE_LAMBDA else lambda_args.lambda_type a)
   /\ lambda_args.write_files a1 = lambda_args.write_files a || is_opt "-e" parg
   /\ lambda_args.each a1 = lambda_args.each a || is_opt "-e" parg)%bool
  /\ (lambda_args.search a1 = lambda_args.search a
      /\ lambda_args.checkconv a1 = lambda_args.checkconv a
      /\ lambda_args.score a1 = lambda_args.score a
      /\ lambda_args.fixcluster0 a1 = lambda_args.fixcluster0 a
      /\ lambda_args.lambda_tree a1 = lambda_args.lambda_tree a
      /\ lambda_args.bdone a1 = lambda_args.bdone a
      /\ lambda_args.name a1 = lambda_args.name a).
Proof.
  unfold lambda_args_option, is_opt.
  opt_case parg "-v"%string; [done_case|].
  opt_case parg "-r"%string.
  { destruct (vector_resize _ _ _); [|discriminate]. done_case. }
  opt_case parg "-e"%string; [done_case|].
  opt_case parg "-o"%string; [done_case|].
  done_case.
Qed.

Lemma lambda_args_options_effect (pargs : list Argument) :
  forall a a1 : lambda_args.t,
    lambda_args_options pargs a = Ok a1 ->
    (lambda_args.lambda_type a1
     = (if existsb (is_opt "-v") pargs then SINGLE_LAMBDA else lambda_args.lambda_type a)
     /\ lambda_args.write_files a1
        = lambda_args.write_files a || existsb (is_opt "-e") pargs
     /\ lambda_args.each a1 = lambda_args.each a || existsb (is_opt "-e") pargs)%bool
    /\ (lambda_args.search a1 = lambda_args.search a
        /\ lambda_args.checkconv a1 = lambda_args.checkconv a
        /\ lambda_args.score a1 = lambda_args.score a
        /\ lambda_args.fixcluster0 a1 = lambda_args.fixcluster0 a
        /\ lambda_args.lambda_tree a1 = lambda_args.lambda_tree a
        /\ lambda_args.bdone a1 = lambda_args.bdone a
        /\ lambda_args.name a1 = lambda_args.name a).
Proof.
  induction pargs as [|parg rest IH]; intros a a1 E; cbn [lambda_args_options] in E.
  - inversion E; subst. cbn [existsb]. rewrite !orb_false_r. repeat split.
  - destruct (lambda_args_option parg a) as [b|what] eqn:Eo; [|discriminate].
    destruct (lambda_args_option_effect _ _ _ Eo)
      as [[S1 [S2 S3]] [D1 [D2 [D3 [D4 [D5 [D6 D7]]]]]]].
    destruct (IH _ _ E) as [[R1 [R2 R3]] [F1 [F2 [F3 [F4 [F5 [F6 F7]]]]]]].
    cbn [existsb]. split.
    + rewrite R1, R2, R3, S1, S2, S3, !orb_assoc. repeat split.
      destruct (is_opt "-v" parg); cbn [orb]; [|reflexivity].
      destruct (existsb (is_opt "-v") rest); reflexivity.
    + repeat split; congruence.
Qed.

(** Property X12.  However the options are ordered, a single rate ([-v]) takes
    precedence over a list of rates ([-l]): after a successful load the
    kind of rates is [SINGLE_LAMBDA] if some option is [-v], else
    [MULTIPLE_LAMBDAS] if some option is [-l], else what it was. *)
Theorem load_single_rate_takes_precedence (pargs : list Argument)
    (cafe_param p1 : CafeParam) (a a1 : lambda_args.t) :
  lambda_args_load pargs cafe_param a = (p1, Ok a1) ->
  lambda_args.lambda_type a1
  = if existsb (is_opt "-v") pargs then SINGLE_LAMBDA
    else if existsb (is_opt "-l") pargs then MULTIPLE_LAMBDAS
    else lambda_args.lambda_type a.
Proof.
  unfold lambda_args_load. intros E.
  destruct (lambda_arg_base_load pargs cafe_param a) as [q [b|what]] eqn:Eb; [|discriminate].
  injection E as <- H1.
  destruct (lambda_arg_base_load_effect _ _ _ _ _ Eb) as [[_ [_ [_ [_ B]]]] _].
  destruct (lambda_args_options_effect _ _ _ H1) as [[D _] _].
  rewrite D, B. reflexivity.
Qed.

(** Property X13.  After a successful load a switch is on exactly when it was on
    before or its option is among the words: [-s], [-checkconv], [-score]
    for the three switches of the search, [-e] for both [each] and
    [write_files] (so [each] implies [write_files] after the load if it
    did before), and [-f] sets [fixcluster0] to 1.  The options never clear a switch,
    and unless one of them is [-t] the load leaves the session, the rate
    structure and the done flag as they were. *)
Theorem load_switches (pargs : list Argument)
    (cafe_param p1 : CafeParam) (a a1 : lambda_args.t) :
  lambda_args_load pargs cafe_param a = (p1, Ok a1) ->
  (lambda_args.search a1 = lambda_args.search a || existsb (is_opt "-s") pargs
   /\ lambda_args.checkconv a1
      = lambda_args.checkconv a || existsb (is_opt "-checkconv") pargs
   /\ lambda_args.score a1 = lambda_args.score a || existsb (is_opt "-score") pargs
   /\ lambda_args.each a1 = lambda_args.each a || existsb (is_opt "-e") pargs
   /\ lambda_args.write_files a1
      = lambda_args.write_files a || existsb (is_opt "-e") pargs)%bool
  /\ lambda_args.fixcluster0 a1
     = (if existsb (is_opt "-f") pargs then 1%Z else lambda_args.fixcluster0 a)
  /\ ((lambda_args.each a = true -> lambda_args.write_files a = true) ->
      lambda_args.each a1 = true -> lambda_args.write_files a1 = true)
  /\ (existsb (is_opt "-t") pargs = false ->
      p1 = cafe_param /\ lambda_args.lambda_tree a1 = lambda_args.lambda_tree a
      /\ lambda_args.bdone a1 = lambda_args.bdone a).
Proof.
  unfold lambda_args_load. intros E.
  destruct (lambda_arg_base_load pargs cafe_param a) as [q [b|what]] eqn:Eb; [|discriminate].
  injection E as <- H1.
  destruct (lambda_arg_base_load_effect _ _ _ _ _ Eb)
    as [[B1 [B2 [B3 [B4 _]]]] [[_ [_ [B5 [B6 _]]]] T]].
  destruct (lambda_args_options_effect _ _ _ H1)
    as [[_ [D1 D2]] [F1 [F2 [F3 [F4 [F5 [F6 F7]]]]]]].
  assert (He : lambda_args.each a1
               = (lambda_args.each a || existsb (is_opt "-e") pargs)%bool)
    by (rewrite D2, B6; reflexivity).
  assert (Hw : lambda_args.write_files a1
               = (lambda_args.write_files a || existsb (is_opt "-e") pargs)%bool)
    by (rewrite D1, B5; reflexivity).
  split; [|split; [|split]].
  - repeat split; congruence.
  - congruence.
  - rewrite He, Hw. intros Himp H.
    destruct (existsb (is_opt "-e") pargs); [apply orb_true_r|].
    rewrite orb_false_r in *. auto.
  - intros Ht. destruct (T Ht) as [T1 [T2 T3]]. repeat split; congruence.
Qed.

Lemma lambda_arg_base_load_app (pre post : list Argument) :
  forall (p : CafeParam) (a : lambda_args.t),
    lambda_arg_base_load (pre ++ post) p a
    = match lambda_arg_base_load pre p a with
      | (p1, Ok a1) => lambda_arg_base_load post p1 a1
      | (p1, Throw what) => (p1, Throw what)
      end.
Proof.
  induction pre as [|parg pre IH]; intros p a; cbn [app lambda_arg_base_load].
  - reflexivity.
  - destruct (lambda_arg_base_option parg p a) as [q [b|what]]; [apply IH|reflexivity].
Qed.

(** Property X14.  A rate structure the tree command rejects (a negative return
    value) aborts the load with [std::exception]: whatever options follow
    the [-t], none of them is read, and the session is left as the tree
    command left it. *)
Theorem load_throws_on_rejected_structure (pre post : list Argument) (parg : Argument)
    (cafe_param p1 : CafeParam) (a a1 : lambda_args.t) :
  lambda_arg_base_load pre cafe_param a = (p1, Ok a1) ->
  is_opt "-t" parg = true ->
  let res := __cafe_cmd_lambda_tree p1 (arg parg 0)
               (if (1 <? argc parg)%Z then Some (arg parg 1) else None) in
  (fst (fst res) < 0)%Z ->
  lambda_args_load (pre ++ parg :: post) cafe_param a
  = (snd (fst res), Throw "std::exception").
Proof.
  intros Epre Ht res Hneg. unfold lambda_args_load.
  rewrite lambda_arg_base_load_app, Epre. cbn [lambda_arg_base_load].
  assert (Eo : lambda_arg_base_option parg p1 a1 = (snd (fst res), Throw "std::exception")).
  { unfold lambda_arg_base_option. unfold is_opt in *.
    apply String.eqb_eq in Ht. rewrite Ht. cbn [String.eqb Ascii.eqb Bool.eqb].
    fold res. destruct res as [[r q] tree]. cbn [fst snd] in *.
    apply Z.ltb_lt in Hneg. rewrite Hneg. reflexivity. }
  rewrite Eo. reflexivity.
Qed.

(** *** The report for every family *)

Lemma boundary_mark_spec (js : list nat) (l : list float) (tree : CafeTree)
    (fpout : list LogLine) :
  boundary_mark js l tree fpout
  = fpout
    ++ (if existsb
             (fun j =>
                let a := (nth j l 0 * max_branch_length tree)%float in
                ((0.5 <=? a)%float || (abs (a - 0.5) <? 1e-3)%float)%bool) js
        then [("@@ "%string, [])] else []).
Proof.
  induction js as [|j js IH]; cbn [boundary_mark existsb].
  - now rewrite app_nil_r.
  - cbv zeta.
    destruct ((0.5 <=? nth j l 0 * max_branch_length tree)%float
              || (abs (nth j l 0 * max_branch_length tree - 0.5) <? 1e-3)%float)%bool;
      cbn [orb]; [reflexivity|exact IH].
Qed.

Lemma report_family_frame (name : string) (descs : list (option string))
    (st : CafeParam * list LogLine * option (list LogLine)) (i : nat) :
  let st1 := report_family name descs st i in
  pfamily (fst (fst st1)) = pfamily (fst (fst st))
  /\ num_lambdas (fst (fst st1)) = num_lambdas (fst (fst st))
  /\ snd (fst st1)
     = snd (fst st)
       ++ (if near_boundary (num_lambdas (fst (fst st)))
                (deref (lambda (family_item (pfamily (fst (fst st))) i)))
                (report_tree (fst (fst st)) i)
           then [("@@ "%string, [])] else [])
       ++ [("%s\t%s\n"%string,
            [AStr (id (family_item (pfamily (fst (fst st))) i));
             AStr (cafe_tree_string_with_familysize_lambda (report_tree (fst (fst st)) i))])]
  /\ match snd st, snd st1 with
     | Some h, Some h1 => exists r1 r2, h1 = h ++ [r1; r2]
     | None, None => True
     | _, _ => False
     end.
Proof.
  destruct st as [[param fpout] fhttp]. cbv zeta. unfold report_family, report_tree.
  cbn [fst snd]. rewrite boundary_mark_spec. unfold near_boundary.
  cbn [pfamily num_lambdas cafe_shell_set_lambdas set_param_lambda set_pcafe].
  rewrite <- app_assoc.
  repeat split. destruct fhttp; [eexists; eexists; reflexivity|exact I].
Qed.

Lemma report_families_spec (name : string) (descs : list (option string))
    (param : CafeParam) (fpout : list LogLine) (fhttp : option (list LogLine)) (n : nat) :
  let st := fold_left (report_family name descs) (seq 0 n) (param, fpout, fhttp) in
  let line i :=
    let q := report_state param name descs fpout fhttp i in
    (if near_boundary (num_lambdas param)
          (deref (lambda (family_item (pfamily param) i))) (report_tree q i)
     then [("@@ "%string, [])] else [])
    ++ [("%s\t%s\n"%string,
         [AStr (id (family_item (pfamily param) i));
          AStr (cafe_tree_string_with_familysize_lambda (report_tree q i))])] in
  pfamily (fst (fst st)) = pfamily param
  /\ num_lambdas (fst (fst st)) = num_lambdas param
  /\ snd (fst st) = fpout ++ flat_map line (seq 0 n)
  /\ match fhttp, snd st with
     | Some h, Some h1 => exists rows, h1 = h ++ rows /\ List.length rows = 2 * n
     | None, None => True
     | _, _ => False
     end.
Proof.
  cbv zeta. induction n as [|n [IHf [IHn [IHo IHh]]]].
  - cbn. rewrite app_nil_r. repeat split.
    destruct fhttp; [exists []; now rewrite app_nil_r|exact I].
  - rewrite seq_S, fold_left_app. cbn [fold_left Nat.add].
    destruct (report_family_frame name descs
                (fold_left (report_family name descs) (seq 0 n) (param, fpout, fhttp)) n)
      as [Hf [Hn [Ho Hh]]].
    split; [congruence|]. split; [congruence|]. split.
    + rewrite Ho, IHo, flat_map_app. cbn [flat_map]. rewrite app_nil_r, <- !app_assoc.
      unfold report_state. rewrite IHf, IHn. reflexivity.
    + destruct fhttp as [h|];
        destruct (snd (fold_left (report_family name descs) (seq 0 n) (param, fpout, _)))
          as [h1|]; try contradiction;
        destruct (snd (report_family name descs _ n)) as [h2|]; try contradiction;
        [|exact I].
      destruct IHh as [rows [-> Hlen]]. destruct Hh as [r1 [r2 ->]].
      exists (rows ++ [r1; r2]). rewrite <- app_assoc. split; [reflexivity|].
      rewrite length_app, Hlen. cbn. lia.
Qed.

(** Property X15.  The report for every family prints, on the output, one line per
    family in family order, with the family's name and the tree string;
    the line is preceded by the mark [@@ ], printed once, exactly when one
    of the family's rates, times the longest branch of the tree, is at
    least 0.5 or within 0.001 of it.  The families and the number of rates
    are left as they are, and when the HTML file is there it gets a header,
    two rows per family and a footer. *)
Theorem report_marks_families_near_boundary
    (param : CafeParam) (name : string) (descs : list (option string))
    (fpout : list LogLine) (fhttp : option (list LogLine)) :
  let n := List.length (flist (pfamily param)) in
  let header := ("<html>\n<body>\n<table border=1>\n"%string, @nil LogArg) in
  let footer := ("</table>\n</body>\n</html>\n"%string, @nil LogArg) in
  let fhttp1 := match fhttp with
                | Some h => Some (h ++ [header])
                | None => None
                end in
  let line i :=
    let q := report_state param name descs fpout fhttp1 i in
    (if near_boundary (num_lambdas param)
          (deref (lambda (family_item (pfamily param) i))) (report_tree q i)
     then [("@@ "%string, [])] else [])
    ++ [("%s\t%s\n"%string,
         [AStr (id (family_item (pfamily param) i));
          AStr (cafe_tree_string_with_familysize_lambda (report_tree q i))])] in
  let res := report_each param name descs fpout fhttp in
  snd (fst res) = fpout ++ flat_map line (seq 0 n)
  /\ pfamily (fst (fst res)) = pfamily param
  /\ num_lambdas (fst (fst res)) = num_lambdas param
  /\ match fhttp, snd res with
     | Some h, Some h1 =>
         exists rows, h1 = h ++ [header] ++ rows ++ [footer] /\ List.length rows = 2 * n
     | None, None => True
     | _, _ => False
     end.
Proof.
  cbv zeta. unfold report_each.
  set (fhttp1 := match fhttp with
                 | Some h => Some (h ++ [("<html>\n<body>\n<table border=1>\n"%string, [])])
                 | None => None
                 end).
  destruct (report_families_spec name descs param fpout fhttp1
              (List.length (flist (pfamily param)))) as [Hf [Hn [Ho Hh]]].
  destruct (fold_left (report_family name descs) _ (param, fpout, fhttp1)) as [[p out] http].
  cbn [fst snd] in *.
  split; [exact Ho|]. split; [exact Hf|]. split; [exact Hn|].
  subst fhttp1. destruct fhttp as [h|]; destruct http as [h1|]; try contradiction;
    [|exact I].
  destruct Hh as [rows [-> Hlen]]. exists rows.
  rewrite <- !app_assoc. split; [reflexivity|exact Hlen].
Qed.

(** *** The prior of the command *)

(** Property X16.  The prior the command stores in the session is the estimated
    one, entry for entry, and it has exactly [FAMILYSIZEMAX] entries: the
    copy of [FAMILYSIZEMAX] entries that every evaluation of the posterior
    objective makes stays inside the array and passes on the estimated
    prior unchanged. *)
Theorem command_prior_is_what_the_scorer_reads (param : CafeParam) (u : float) :
  let p := cmd_lambda_prior param u in
  List.length (prior_rfsize p) = FAMILYSIZEMAX
  /\ prior_rfsize p = snd (cafe_set_prior_rfsize_empirical param u)
  /\ scoring_prior p = prior_rfsize p
  /\ forall i : nat,
       i < FAMILYSIZEMAX ->
       nth i (scoring_prior p) 0%float
       = poisspdf (int_to_double (root_min (range (pcafe param)) - 1 + Z.of_nat i))
           (nth 0 (parameters (find_poisson_lambda (pfamily param) u)) 0%float).
Proof.
  cbv zeta. unfold cmd_lambda_prior, cafe_set_prior_rfsize_empirical.
  cbn [prior_rfsize set_prior_rfsize snd].
  set (prior := cafe_set_prior_rfsize_poisson_lambda _ _).
  assert (Hlen : List.length prior = FAMILYSIZEMAX).
  { unfold prior, cafe_set_prior_rfsize_poisson_lambda.
    now rewrite length_map, length_seq. }
  assert (Hcopy : copy_prefix (Z.of_nat (List.length prior)) prior
                    (repeat 0%float (Z.to_nat (Z.of_nat (List.length prior)))) = prior).
  { rewrite copy_prefix_zeros, Nat2Z.id.
    apply nth_ext with (d := 0%float) (d' := 0%float).
    - now rewrite length_map, length_seq.
    - intros i Hi. rewrite length_map, length_seq in Hi.
      apply (nth_map_seq (fun j => nth j prior 0%float)). exact Hi. }
  rewrite Hcopy.
  assert (Hscore : forall q, scoring_prior (set_prior_rfsize q prior) = prior).
  { intros q. unfold scoring_prior. cbn [prior_rfsize set_prior_rfsize].
    apply nth_ext with (d := 0%float) (d' := 0%float).
    - now rewrite length_map, length_seq, Hlen.
    - intros i Hi. rewrite length_map, length_seq in Hi.
      apply (nth_map_seq (fun j => nth j prior 0%float)). exact Hi. }
  split; [exact Hlen|]. split; [reflexivity|]. split; [apply Hscore|].
  intros i Hi. rewrite Hscore. unfold prior, cafe_set_prior_rfsize_poisson_lambda.
  apply (nth_map_seq
           (fun i => poisspdf (int_to_double (root_min (range (pcafe param)) - 1 + Z.of_nat i))
                       (nth 0 (parameters (find_poisson_lambda (pfamily param) u)) 0%float))).
  exact Hi.
Qed.

(** *** Setting the rates *)

(** Property X17.  [lambda_set] fixes the number of rates (1 without a rate
    structure) and the number of parameters (the options' own count when
    weights are given, else the number of rates), and validates the number
    of parameters before it touches the parameter vector: when the
    validation throws, the error is passed on and the parameter vector and
    the weights of the session are as before, while the counts are
    already changed.  When it succeeds with [K > 0] weights, the session
    has [K] clusters and [K] zeroed weights, and the [K - 1] given weights
    go into the parameter vector from the index on at which the search
    reads its first weight. *)
Theorem lambda_set_validates_before_writing (param : CafeParam) (params : lambda_args.t) :
  let res := lambda_set param params in
  let p := fst res in
  let K := Z.of_nat (List.length (lambda_args.k_weights params)) in
  let L := Z.of_nat (List.length (lambda_args.lambdas params)) in
  let fresh := input_values_construct (input_parameters param) (num_params p) in
  num_lambdas p = (match lambda_args.lambda_tree params with
                   | None => 1%Z
                   | Some _ => num_lambdas param
                   end)
  /\ num_params p = (if (0 <? K)%Z then get_num_params params else num_lambdas p)
  /\ match snd res with
     | Throw what =>
         validate_parameter_count params (num_params p) = Throw what
         /\ input_parameters p = input_parameters param
         /\ k_weights p = k_weights param
     | Ok _ =>
         validate_parameter_count params (num_params p) = Ok tt
         /\ if (0 <? K)%Z
            then parameterized_k_value p = K
                 /\ fixcluster0 p = lambda_args.fixcluster0 params
                 /\ k_weights p = repeat 0%float (Z.to_nat K)
                 /\ ((0 <= num_lambdas p * (K - lambda_args.fixcluster0 params))%Z ->
                     input_parameters p
                     = input_values_set_k_weights
                         (input_values_set_lambdas fresh (lambda_args.lambdas params) L)
                         (lambda_args.k_weights params)
                         (Z.of_nat (weight_index (num_lambdas p)
                                      (parameterized_k_value p) p))
                         (K - 1))
            else parameterized_k_value p = parameterized_k_value param
                 /\ k_weights p = k_weights param
                 /\ input_parameters p
                    = input_values_set_lambdas fresh (lambda_args.lambdas params)
                        (match lambda_args.lambda_tree params with
                         | None => 1%Z
                         | Some _ => L
                         end)
     end.
Proof.
  cbv zeta. unfold lambda_set, set_parameters, set_rates_only.
  destruct (lambda_args.lambda_tree params) as [tree|];
    destruct (0 <? Z.of_nat (List.length (lambda_args.k_weights params)))%Z eqn:Ek;
    cbn [num_params set_num_params set_fixcluster0 set_parameterized_k_value num_lambdas
         set_num_lambdas];
    match goal with
    | |- context [validate_parameter_count params ?n] =>
        destruct (validate_parameter_count params n) as [[]|what] eqn:Ev
    end;
    cbn -[Z.mul Z.add Z.sub Z.of_nat Z.ltb Z.to_nat]; rewrite ?Ek, ?Ev;
    repeat split; try reflexivity.
  all: intros Hpos; unfold weight_index;
    cbn -[Z.mul Z.add Z.sub Z.of_nat Z.ltb Z.to_nat]; rewrite Z2Nat.id by exact Hpos;
    reflexivity.
Qed.

End CommandProperties.

(** ** The further properties on concrete inputs *)

(** Property X3 on two families, the second referring to the first: the
    reference optimizer ends at the start vector, [0.5 / 2]. *)
Lemma each_search_fits_own_families_witness :
  let param := ref_param [ref_item "F1" (-1) [1; 1]%Z; ref_item "F2" 0 [1; 1]%Z] [] in
  let res := cafe_each_best_lambda_by_fminsearch param 1 in
  lambda (nth 0 (flist (pfamily (fst res))) null_item) = Some [0.25%float]
  /\ fminsearch_get_minX (snd (each_fit_call (each_state_at param 1 0) 0)) = [0.25%float]
  /\ mu (nth 0 (flist (pfamily (fst res))) null_item) = Some [0%float]
  /\ In 0 (snd res).
Proof.
  cbv zeta.
  destruct (each_search_fits_own_families
              (ref_param [ref_item "F1" (-1) [1; 1]%Z; ref_item "F2" 0 [1; 1]%Z] [])
              1 0 ltac:(cbn; lia) ltac:(reflexivity)) as [E [_ [_ [_ [_ [Hm Hc]]]]]].
  split; [rewrite E; vm_compute; reflexivity|].
  split; [vm_compute; reflexivity|].
  split; [exact Hm|exact Hc].
Defined.

(** Property X4 on the range 0 : 0.5 : 1, without an output file: three
    points, a line and a dot for each. *)
Lemma grid_scan_logs_every_point_witness :
  let param := ref_param [ref_item "F1" (-1) [1; 1]%Z] [1%float; 1%float] in
  let p := fst (write_lambda_distribution param [mk_lambda_range 0 0.5 1] None) in
  flog p
  = [("Lambda : %s & Score: %f\n"%string, [AJoin "," 1 [0%float]; ADouble 0%float]);
     ("."%string, []);
     ("Lambda : %s & Score: %f\n"%string, [AJoin "," 1 [0.5%float]; ADouble 0%float]);
     ("."%string, []);
     ("Lambda : %s & Score: %f\n"%string, [AJoin "," 1 [1%float]; ADouble 0%float]);
     ("."%string, [])]
  /\ num_lambdas p = 1%Z.
Proof.
  cbv zeta.
  destruct (grid_scan_logs_every_point
              (ref_param [ref_item "F1" (-1) [1; 1]%Z] [1%float; 1%float])
              [mk_lambda_range 0 0.5 1] None ltac:(reflexivity)) as [Hl [_ Hn]].
  split; [rewrite Hl; vm_compute; reflexivity|exact Hn].
Defined.

(** Property X6 on a session with the convergence check off: one run. *)
Lemma search_stops_on_convergence_or_cap_witness :
  match cafe_best_lambda_by_fminsearch 4
          (ref_param [ref_item "F1" (-1) [1; 1]%Z] [1%float; 1%float]) 1 0
          (fun _ => [0.25%float]) with
  | Some st => runs st = 1%Z /\ converged st = 0%Z
  | None => False
  end.
Proof.
  destruct (cafe_best_lambda_by_fminsearch 4
              (ref_param [ref_item "F1" (-1) [1; 1]%Z] [1%float; 1%float]) 1 0
              (fun _ => [0.25%float])) as [st|] eqn:E.
  - destruct (@search_stops_on_convergence_or_cap ref_collaborators 4 _ 1 0 _ st
                (fun x p => eq_refl) E)
      as [_ [H _]].
    destruct (H eq_refl) as [H1 [H2 _]]. split; assumption.
  - vm_compute in E. discriminate.
Defined.

(** Property X7 on a search without mixture. *)
Lemma search_tolerance_profiles_witness :
  match search_optimize 4 1 0 [0.25%float]
          (ref_param [ref_item "F1" (-1) [1; 1]%Z] [1%float; 1%float]) with
  | Some (p, pfm) => (tolx pfm, tolf pfm, variable_count pfm) = (1e-6%float, 1e-6%float, 1%Z)
  | None => False
  end.
Proof.
  destruct (search_optimize 4 1 0 [0.25%float]
              (ref_param [ref_item "F1" (-1) [1; 1]%Z] [1%float; 1%float]))
    as [[p pfm]|] eqn:E.
  - exact (search_tolerance_profiles 4 1 0 _ _ p pfm E).
  - vm_compute in E. discriminate.
Defined.

(** Property X8 on a family with no gene in either species. *)
Lemma prior_fit_without_positive_counts_witness :
  collect_leaf_sizes (ref_family [ref_item "F1" (-1) [0; 0]%Z]) = []
  /\ __lnLPoisson [0.5%float] (collect_leaf_sizes (ref_family [ref_item "F1" (-1) [0; 0]%Z]))
     = (-0)%float.
Proof.
  assert (H : forall pitem i,
             In pitem (flist (ref_family [ref_item "F1" (-1) [0; 0]%Z])) ->
             i < Z.to_nat (num_species (ref_family [ref_item "F1" (-1) [0; 0]%Z])) ->
             (0 <= nth i (index (ref_family [ref_item "F1" (-1) [0; 0]%Z])) 0)%Z ->
             (nth i (count pitem) 0 <= 0)%Z).
  { intros pitem i [<-|[]] Hi _. destruct i as [|[|i]]; cbn in Hi |- *; lia. }
  destruct (prior_fit_without_positive_counts _ H) as [E Hv].
  split; [exact E|apply Hv].
Defined.

(** Property X12 on the words [-v 0.5 -l 0.1 0.2]. *)
Lemma load_single_rate_takes_precedence_witness :
  match snd (lambda_args_load
               [mk_Argument "-v" 1 ["0.5"%string];
                mk_Argument "-l" 2 ["0.1"%string; "0.2"%string]]
               (ref_param [] []) ref_args) with
  | Ok a1 => lambda_args.lambda_type a1 = SINGLE_LAMBDA
  | Throw _ => False
  end.
Proof.
  destruct (lambda_args_load
              [mk_Argument "-v" 1 ["0.5"%string];
               mk_Argument "-l" 2 ["0.1"%string; "0.2"%string]]
              (ref_param [] []) ref_args) as [p1 [a1|what]] eqn:E; cbn [snd].
  - rewrite (load_single_rate_takes_precedence _ _ _ _ _ E). reflexivity.
  - vm_compute in E. discriminate.
Defined.

(** Property X13 on the words [-e -s]. *)
Lemma load_switches_witness :
  match snd (lambda_args_load [mk_Argument "-e" 0 []; mk_Argument "-s" 0 []]
               (ref_param [] []) ref_args) with
  | Ok a1 =>
      lambda_args.search a1 = true /\ lambda_args.each a1 = true
      /\ lambda_args.write_files a1 = true /\ lambda_args.checkconv a1 = false
  | Throw _ => False
  end.
Proof.
  destruct (lambda_args_load [mk_Argument "-e" 0 []; mk_Argument "-s" 0 []]
              (ref_param [] []) ref_args) as [p1 [a1|what]] eqn:E; cbn [snd].
  - destruct (load_switches _ _ _ _ _ E) as [[H1 [H2 [_ [H4 H5]]]] _].
    rewrite H1, H2, H4, H5. repeat split.
  - vm_compute in E. discriminate.
Defined.

(** Property X14 on [-t] with an empty word, then [-s]: the empty
    structure is rejected. *)
Lemma load_throws_on_rejected_structure_witness :
  lambda_args_load [mk_Argument "-t" 1 [EmptyString]; mk_Argument "-s" 0 []]
    (ref_param [] []) ref_args
  = (ref_param [] [], Throw "std::exception").
Proof.
  assert (H : (-1 < 0)%Z) by lia.
  exact (load_throws_on_rejected_structure [] [mk_Argument "-s" 0 []]
           (mk_Argument "-t" 1 [EmptyString]) (ref_param [] []) (ref_param [] [])
           ref_args ref_args eq_refl eq_refl H).
Defined.

(** Property X11 on one family, with the option [-e]. *)
Lemma lambda_search_each_fits_one_rate_witness :
  exists p a,
    lambda_search 4 (fun _ => [])
      (ref_param [ref_item "F1" (-1) [1; 1]%Z] [])
      (lambda_args.set_each ref_args true) = Some (p, a)
    /\ num_lambdas p = 1%Z
    /\ mu (nth 0 (flist (pfamily p)) null_item) = Some [0%float].
Proof.
  destruct (lambda_search_each_fits_one_rate 4 (fun _ => [])
              (ref_param [ref_item "F1" (-1) [1; 1]%Z] [])
              (lambda_args.set_each ref_args true) 0 eq_refl eq_refl
              ltac:(cbn; lia) eq_refl) as [p [a [E [Hn [_ Hm]]]]].
  exists p, a. split; [exact E|]. split; assumption.
Defined.
